(** * datatool: the concurrent execution core and the dedup / packing pipeline

    A shallow embedding of
      - [datatool/utils/parallel.py]        (the three worker pools),
      - [datatool/utils/data.py]            (the highest-turn reduction),
      - [datatool/scripts/zip_dataset.py]   (content hasher, deduplicator,
                                             volume packer),
    followed by the properties the specification states about them.

    Conventions.  Python [int] is [Z] (or [nat] where it only counts);
    a Python [str] is a [string], read as its UTF-8 byte sequence, so
    [len(s.encode('utf-8'))] is [String.length s]; a Python [dict] is a
    [gmap]; a value that may be [None] is an [option]. *)

From Stdlib Require Import Strings.Byte.
From stdpp Require Import gmap strings list pretty.

Set Warnings "-abstract-large-number".
Open Scope Z_scope.

(* ===================================================================== *)
(** ** Volume packer ([zip_dataset.py], [allocate_files_to_volumes])       *)
(* ===================================================================== *)

Module Packer.

(** One element of [unique_file_paths]. *)
Record file_info := FileInfo {
  src_path : string;
  zip_path : string;
  size : Z
}.

(** A volume dictionary: [{"files", "jsonl", "config", "size"}]. *)
Record volume := Volume {
  files : list file_info;
  jsonl : gmap string string;
  config : option string;
  vsize : Z
}.

Definition utf8_len (s : string) : Z := Z.of_nat (String.length s).

(** [sum(len(content.encode('utf-8')) for content in jsonl_data.values())],
    plus the config length when [config_content] is truthy. *)
Definition base_overhead (jsonl_data : gmap string string)
    (config_content : option string) : Z :=
  map_fold (fun _ content acc => acc + utf8_len content) 0 jsonl_data
  + match config_content with
    | Some c => if String.eqb c "" then 0 else utf8_len c
    | None => 0
    end.

(** [sorted(unique_file_paths, key=lambda x: x["size"], reverse=True)]:
    descending by size; Python's sort is stable also under [reverse=True],
    so entries of equal size keep their input order. *)
Fixpoint insert_desc (x : file_info) (l : list file_info) : list file_info :=
  match l with
  | [] => [x]
  | y :: l' =>
      if size y <=? size x then x :: y :: l' else y :: insert_desc x l'
  end.

Definition sorted_desc (l : list file_info) : list file_info :=
  foldr insert_desc [] l.

Definition nonempty {A} (l : list A) : bool :=
  match l with [] => false | _ => true end.

(** One iteration of [for file_info in sorted_files]; the loop state is
    the pair [(volumes, current_volume)]. *)
Definition alloc_step (jsonl_data : gmap string string) (overhead max_zip_size : Z)
    (st : list volume * volume) (f : file_info) : list volume * volume :=
  let '(volumes, cur) := st in
  let '(volumes, cur) :=
    if (max_zip_size <? vsize cur + size f) && nonempty (files cur)
    then (volumes ++ [cur], Volume [] jsonl_data None overhead)
    else (volumes, cur) in
  (volumes,
   Volume (files cur ++ [f]) (jsonl cur) (config cur) (vsize cur + size f)).

Definition alloc_loop (jsonl_data : gmap string string) (overhead max_zip_size : Z)
    (st : list volume * volume) (fs : list file_info) : list volume * volume :=
  foldl (alloc_step jsonl_data overhead max_zip_size) st fs.

Definition alloc_finish (st : list volume * volume) : list volume :=
  let '(volumes, cur) := st in
  if nonempty (files cur) then volumes ++ [cur] else volumes.

Definition allocate_files_to_volumes (unique_file_paths : list file_info)
    (jsonl_data : gmap string string) (config_content : option string)
    (max_zip_size : Z) : list volume :=
  let overhead := base_overhead jsonl_data config_content in
  let current_volume := Volume [] jsonl_data config_content overhead in
  alloc_finish
    (alloc_loop jsonl_data overhead max_zip_size ([], current_volume)
       (sorted_desc unique_file_paths)).

(** [zip_tasks] of [create_zip_files_streaming_optimized]: one tuple
    [(zip_path, files, jsonl, config)] per volume, numbered from 1. *)
Definition zip_info : Type :=
  string * list file_info * gmap string string * option string.

Definition zip_tasks (output_path : string) (volumes : list volume) : list zip_info :=
  imap (fun vol_idx v =>
          (output_path +:+ "_part" +:+ pretty (S vol_idx) +:+ ".zip",
           files v, jsonl v, config v)) volumes.

Definition files_size (fs : list file_info) : Z :=
  foldr (fun f acc => size f + acc) 0 fs.

(** Sample inputs: files of a chosen size and an 8-byte metadata payload. *)
Definition sample_file (name : string) (n : Z) : file_info :=
  FileInfo ("/data/" +:+ name) ("ds/MediaFiles/images/" +:+ name) n.

Definition sample_jsonl : gmap string string :=
  {[ "ds/MetaFiles/a.jsonl" := "[1,2,3]+" ]}.

End Packer.

(* ===================================================================== *)
(** ** Content hasher ([zip_dataset.py] and [merge_dataset.py],
       [get_file_hash_fast]; the two copies are identical)                 *)
(* ===================================================================== *)

Module Hasher.

(** An open binary file: its bytes and the read position. *)
Record handle := Handle { h_data : list byte; h_pos : nat }.

Definition open (content : list byte) : handle := Handle content 0.

(** [f.read(n)]: at most [n] bytes from the position, which advances. *)
Definition read (n : nat) (h : handle) : list byte * handle :=
  let chunk := take n (drop (h_pos h) (h_data h)) in
  (chunk, Handle (h_data h) (h_pos h + length chunk)).

(** [f.read()]: everything from the position to the end. *)
Definition read_all (h : handle) : list byte * handle :=
  let chunk := drop (h_pos h) (h_data h) in
  (chunk, Handle (h_data h) (h_pos h + length chunk)).

(** [f.seek(p)]. *)
Definition seek (p : nat) (h : handle) : handle := Handle (h_data h) p.

Definition MiB : nat := 1024 * 1024.

(** [str(file_size).encode()]. *)
Definition str_encode (n : nat) : list byte :=
  String.list_byte_of_string (pretty n).

(** [for chunk in iter(lambda: f.read(8192), b""): hash_md5.update(chunk)]:
    the bytes fed to the digest.  Every non-empty chunk advances the
    position, so [S (length content)] rounds are enough. *)
Fixpoint read_chunks (fuel : nat) (h : handle) (fed : list byte) : list byte :=
  match fuel with
  | O => fed
  | S k =>
      let '(chunk, h') := read 8192 h in
      match chunk with
      | [] => fed
      | _ => read_chunks k h' (fed ++ chunk)
      end
  end.

Definition full_digest_input (content : list byte) : list byte :=
  read_chunks (S (length content)) (open content) [].

(** The large-file branch: the successive arguments of [hash_md5.update],
    concatenated (a streaming digest depends only on the concatenation). *)
Definition fast_digest_input (content : list byte) : list byte :=
  let file_size := length content in
  let f := open content in
  let '(head_data, f) := read MiB f in
  let fed := head_data in
  let '(fed, f) :=
    if decide (2 * MiB < file_size)%nat then
      let f := seek (file_size `div` 2) f in
      let '(middle_data, f) := read MiB f in
      (fed ++ middle_data, f)
    else (fed, f) in
  let '(fed, f) :=
    if decide (MiB < file_size)%nat then
      let f := seek (0 `max` (file_size - MiB)) f in
      let '(tail_data, f) := read_all f in
      (fed ++ tail_data, f)
    else (fed, f) in
  fed ++ str_encode file_size.

(** What the file system answers for one path: the bytes, and whether
    [open] succeeds ([stat] succeeds for every existing path). *)
Record fs_entry := FsEntry { content : list byte; readable : bool }.

Section WithDigest.
(** [hashlib.md5(...).hexdigest()] of a byte string. *)
Variable md5_hexdigest : list byte -> string.

(** [get_file_hash_fast]; [None] is the [except Exception] branch. *)
Definition get_file_hash_fast (fs : gmap string fs_entry) (file_path : string)
    : option string :=
  match fs !! file_path with
  | None => None
  | Some e =>
      let file_size := length (content e) in
      if decide (file_size = 0)%nat then Some "empty_file"
      else if negb (readable e) then None
      else if decide (file_size < 10 * MiB)%nat then
        Some (md5_hexdigest (full_digest_input (content e)))
      else
        Some ("fast_" +:+ md5_hexdigest (fast_digest_input (content e)))
  end.

Definition get_file_hash := get_file_hash_fast.
End WithDigest.

(** The digest input as the specification words it: the first MiB, the
    MiB centred at the midpoint, the last MiB, the decimal size. *)
Definition spec_digest_input (content : list byte) : list byte :=
  let file_size := length content in
  take MiB content
  ++ (if decide (2 * MiB < file_size)%nat
      then take MiB (drop (file_size `div` 2 - MiB `div` 2) content) else [])
  ++ (if decide (MiB < file_size)%nat
      then drop (file_size - MiB) content else [])
  ++ str_encode file_size.

(** A 10 MiB file: 5 MiB of [0x00] followed by 5 MiB of [0x01]. *)
Definition two_tone_file : list byte :=
  replicate (5 * MiB) x00 ++ replicate (5 * MiB) x01.

End Hasher.

(* ===================================================================== *)
(** ** Deduplicator ([zip_dataset.py])                                     *)
(* ===================================================================== *)

Module Dedup.
Import Hasher.

(** A media-file dictionary as built by [collect_media_files_from_item];
    [item_id] and [item_idx] are carried along but never read here. *)
Record media_file := MediaFile {
  src_path : string;
  media_type : string;
  suffix : string;
  size : Z;
  dataset_name : string
}.

(** A value of [unique_files]. *)
Record unique_info := UniqueInfo {
  u_media_type : string;
  u_src_path : string;
  u_idx : nat;
  u_suffix : string;
  u_size : Z;
  u_original_dataset : string
}.

(** The three dictionaries the deduplicator mutates in place and shares
    with [process_hash_group_concurrent_zip].  [media_counters] is the
    nested [defaultdict(lambda: defaultdict(int))], keyed here by the pair
    (dataset, media type); a missing key reads 0. *)
Record tables := Tables {
  media_counters : gmap (string * string) nat;
  unique_files : gmap string unique_info;
  path_mapping : gmap string string
}.

Definition empty_tables : tables := Tables ∅ ∅ ∅.

(** [f"MediaFiles/{media_type}/{idx}{suffix}"]. *)
Definition rel_path (media_type : string) (idx : nat) (suffix : string) : string :=
  "MediaFiles/" +:+ media_type +:+ "/" +:+ pretty idx +:+ suffix.

(** [media_counters[dataset_name][media_type] += 1] followed by the read
    of the new value. *)
Definition bump (dataset media_type : string) (c : gmap (string * string) nat)
    : gmap (string * string) nat * nat :=
  let idx := S (default 0%nat (c !! (dataset, media_type))) in
  (<[(dataset, media_type) := idx]> c, idx).

(** Registers [mf] as a new unique file under [key]. *)
Definition add_unique (key : string) (mf : media_file) (t : tables)
    : tables * unique_info :=
  let '(counters, idx) :=
    bump (dataset_name mf) (media_type mf) (media_counters t) in
  let info := UniqueInfo (media_type mf) (src_path mf) idx (suffix mf)
                (size mf) (dataset_name mf) in
  (Tables counters
     (<[key := info]> (unique_files t))
     (<[src_path mf := rel_path (media_type mf) idx (suffix mf)]> (path_mapping t)),
   info).

(** The result dictionary of [compute_hash_for_file_zip_thread] /
    [..._process]. *)
Inductive status := Success | Error.

Record hash_result := HashResult {
  r_status : status;
  r_src_path : string;
  r_file_hash : option string;
  r_media_file : media_file
}.

(** [size_groups]: a [defaultdict(list)] iterated in insertion order. *)
Definition size_groups := list (nat * list media_file).

Fixpoint group_append (file_size : nat) (mf : media_file) (g : size_groups)
    : size_groups :=
  match g with
  | [] => [(file_size, [mf])]
  | (k, l) :: g' =>
      if decide (k = file_size) then (k, l ++ [mf]) :: g'
      else (k, l) :: group_append file_size mf g'
  end.

(** [f"size_{file_size}_{src_path}"]. *)
Definition size_hash (file_size : nat) (src_path : string) : string :=
  "size_" +:+ pretty file_size +:+ "_" +:+ src_path.

Section WithEnvironment.
Variable md5_hexdigest : list byte -> string.
(** The file system at the time of the run. *)
Variable fs : gmap string fs_entry.
(** The order in which a Queue-Fed Executor hands back the results of
    one batch (completion order; some permutation of the batch). *)
Variable completion : list hash_result -> list hash_result.

(** The transform both hashing pools wrap.  [get_file_hash] swallows its
    own failures, so the [Error] branch is not reachable from here. *)
Definition compute_hash_for_file_zip (file_info : media_file) : hash_result :=
  HashResult Success (src_path file_info)
    (get_file_hash md5_hexdigest fs (src_path file_info)) file_info.

(** First phase: drop repeated paths, [stat] the rest, group by size. *)
Definition group_step (st : gset string * size_groups) (mf : media_file)
    : gset string * size_groups :=
  let '(processed_paths, groups) := st in
  if decide (src_path mf ∈ processed_paths) then st
  else
    let processed_paths := processed_paths ∪ {[src_path mf]} in
    match fs !! src_path mf with
    | Some e => (processed_paths, group_append (length (content e)) mf groups)
    | None => (processed_paths, groups)
    end.

Definition group_by_size (all_media_files : list media_file) : size_groups :=
  (foldl group_step (∅, []) all_media_files).2.

Definition truthy (h : option string) : bool :=
  match h with
  | Some s => negb (String.eqb s "")
  | None => false
  end.

(** One iteration of [for result in hash_results]; [group_hash_map] is
    local to the group, the tables are the caller's. *)
Definition hash_result_step (st : gmap string unique_info * tables)
    (result : hash_result) : gmap string unique_info * tables :=
  let '(group_hash_map, t) := st in
  match r_status result, r_file_hash result with
  | Success, Some file_hash =>
      if negb (truthy (Some file_hash)) then st
      else
        let mf := r_media_file result in
        match group_hash_map !! file_hash with
        | None =>
            let '(t, info) := add_unique file_hash mf t in
            (<[file_hash := info]> group_hash_map, t)
        | Some existing_info =>
            (group_hash_map,
             Tables (media_counters t) (unique_files t)
               (<[src_path mf := rel_path (u_media_type existing_info)
                                   (u_idx existing_info)
                                   (u_suffix existing_info)]> (path_mapping t)))
        end
  | _, _ => st
  end.

Definition process_hash_group_concurrent_zip (media_files_group : list media_file)
    (t : tables) : tables :=
  let hash_tasks :=
    filter (fun mf => is_Some (fs !! src_path mf)) media_files_group in
  match hash_tasks with
  | [] => t
  | _ =>
      let hash_results := completion (compute_hash_for_file_zip <$> hash_tasks) in
      (foldl hash_result_step (∅, t) hash_results).2
  end.

(** One iteration of [for file_size, media_files_group in size_groups.items()]. *)
Definition dedup_group (t : tables) (g : nat * list media_file) : tables :=
  match g with
  | (file_size, [mf]) => (add_unique (size_hash file_size (src_path mf)) mf t).1
  | (_, media_files_group) => process_hash_group_concurrent_zip media_files_group t
  end.

Definition deduplicate_media_files_byhash (all_media_files : list media_file)
    : gmap string unique_info * gmap string string :=
  let t := foldl dedup_group empty_tables (group_by_size all_media_files) in
  (unique_files t, path_mapping t).
End WithEnvironment.

(** [deduplicate_media_files_by_path]: no file access at all. *)
Definition by_path_step (st : gset string * tables) (mf : media_file)
    : gset string * tables :=
  let '(processed_paths, t) := st in
  if decide (src_path mf ∈ processed_paths) then st
  else (processed_paths ∪ {[src_path mf]}, (add_unique (src_path mf) mf t).1).

Definition deduplicate_media_files_by_path (all_media_files : list media_file)
    : gmap string unique_info * gmap string string :=
  let t := (foldl by_path_step (∅, empty_tables) all_media_files).2 in
  (unique_files t, path_mapping t).

(** Sample inputs.  Two datasets with one image each, of different
    sizes; and one dataset with two images of the same size, the second
    of which cannot be opened.  The examples fix the executor's completion
    order to the input order and use the bytes themselves as digest. *)
Definition collide_fs : gmap string fs_entry :=
  {[ "/d1/cat.jpg" := FsEntry [x01] true;
     "/d2/dog.jpg" := FsEntry [x02; x03] true ]}.

Definition cat_file : media_file := MediaFile "/d1/cat.jpg" "images" ".jpg" 1 "d1".
Definition dog_file : media_file := MediaFile "/d2/dog.jpg" "images" ".jpg" 2 "d2".

Definition locked_fs : gmap string fs_entry :=
  {[ "/d1/a.png" := FsEntry [x61; x62; x63] true;
     "/d1/b.png" := FsEntry [x64; x65; x66] false ]}.

Definition a_file : media_file := MediaFile "/d1/a.png" "images" ".png" 3 "d1".
Definition b_file : media_file := MediaFile "/d1/b.png" "images" ".png" 3 "d1".

Definition bytes_digest (bs : list byte) : string := String.string_of_list_byte bs.
Definition input_order (rs : list hash_result) : list hash_result := rs.

End Dedup.

(* ===================================================================== *)
(** ** Worker pools ([datatool/utils/parallel.py])                         *)
(* ===================================================================== *)

Module Parallel.

(** What a call of a caller-supplied function does. *)
Inductive outcome (A : Type) : Type :=
  | Returned (a : A)
  | Raised.
Arguments Returned {A} a.
Arguments Raised {A}.

(** *** [split_data_for_workers] *)

Section Split.
Context {T : Type}.

(** [for i, c_data in enumerate(data_list)]; [None] is the exception of
    [i % num_workers] (zero workers) or of the list index. *)
Fixpoint split_loop (num_workers i : nat) (data_list : list T)
    (distributed_data : list (list T)) : option (list (list T)) :=
  match data_list with
  | [] => Some distributed_data
  | c_data :: rest =>
      if decide (num_workers = 0)%nat then None
      else
        match distributed_data !! (i `mod` num_workers)%nat with
        | Some l =>
            split_loop num_workers (S i) rest
              (<[(i `mod` num_workers)%nat := l ++ [c_data]]> distributed_data)
        | None => None
        end
  end.

Definition split_data_for_workers (data_list : list T) (num_workers : nat)
    : option (list (list T)) :=
  split_loop num_workers 0 data_list (replicate num_workers []).
End Split.

(** *** Static-Partition Executor: [pre_allocated_multiprocess] *)

(** What [func] hands back: a list or tuple (which the caller [extend]s
    with) or any other value (which it [append]s). *)
Inductive pyresult (R : Type) : Type :=
  | Seq (l : list R)
  | Single (r : R).
Arguments Seq {R} l.
Arguments Single {R} r.

Section PreAllocated.
Context {T R : Type}.
(** [func(data, **kwargs)] with [kwargs["process_id"] = pid]. *)
Variable func : list T -> nat -> outcome (pyresult R).

(** The started processes ([None] once a process has ended) and the
    shared [result_queue].  [counter_queue] is written and never read. *)
Record pre_state := PreState {
  pre_procs : list (option (list T));
  pre_result_queue : list (pyresult R)
}.

(** [process_worker] of process [pid] runs to its end: its single [put]
    is the only event the other processes and the caller can see. *)
Definition process_worker (pid : nat) (s : pre_state) : option pre_state :=
  match pre_procs s !! pid with
  | Some (Some data) =>
      Some (PreState (<[pid := None]> (pre_procs s))
              (pre_result_queue s ++
               match func data pid with
               | Returned results => [results]
               | Raised => []
               end))
  | _ => None
  end.

(** The processes end in the order [order]. *)
Fixpoint pre_run (order : list nat) (s : pre_state) : option pre_state :=
  match order with
  | [] => Some s
  | pid :: order' =>
      match process_worker pid s with
      | Some s' => pre_run order' s'
      | None => None
      end
  end.

(** [while not result_queue.empty()]: [extend] or [append]. *)
Definition flatten_result (r : pyresult R) : list R :=
  match r with
  | Seq l => l
  | Single x => [x]
  end.

Definition collect_results (result_queue : list (pyresult R)) : list R :=
  flat_map flatten_result result_queue.

Definition all_joined (s : pre_state) : bool :=
  forallb (fun p => match p with None => true | Some _ => false end) (pre_procs s).

(** The wrapper, for the run in which the processes end in the order
    [order]; [None] when the split raises or [order] is not the order of
    a complete run (every process ends exactly once before the joins
    return). *)
Definition pre_allocated_multiprocess (all_data : list T) (num_workers : nat)
    (order : list nat) : option (list R) :=
  match split_data_for_workers all_data num_workers with
  | None => None
  | Some all_data_list =>
      match pre_run order (PreState (Some <$> all_data_list) []) with
      | Some s =>
          if all_joined s then Some (collect_results (pre_result_queue s))
          else None
      | None => None
      end
  end.

(** What process [pid] contributes to the returned list. *)
Definition worker_output (all_data_list : list (list T)) (pid : nat) : list R :=
  match all_data_list !! pid with
  | Some data =>
      match func data pid with
      | Returned results => flatten_result results
      | Raised => []
      end
  | None => []
  end.
End PreAllocated.

(** The identity transform over a worker's whole sub-list. *)
Definition echo_func {T : Type} (data : list T) (pid : nat) : outcome (pyresult T) :=
  Returned (Seq data).

(** *** Queue-Fed Executor: [post_allocated_multiprocess] and
        [post_allocated_multithread] *)

Inductive variant := Process | Thread.

(** Where a worker is in its loop: blocked in [get], holding an item it
    popped, out of the loop through the termination marker, or out of it
    through the [except] handler's [break] (process variant only). *)
Inductive wstate (T : Type) : Type :=
  | Waiting
  | Busy (data : T)
  | Stopped
  | Failed.
Arguments Waiting {T}.
Arguments Busy {T} data.
Arguments Stopped {T}.
Arguments Failed {T}.

(** The events of a run.  [Fill]: the filler puts its next element;
    [Get w]: worker [w] pops the head of the data queue; [Call w]: worker
    [w] finishes [func] on the item it holds; [Timeout w]: the
    [get(timeout=1)] of worker [w] raises [Empty]; [Collect]: the caller
    pops one value off the result queue. *)
Inductive event := Fill | Get (w : nat) | Call (w : nat) | Timeout (w : nat) | Collect.

Section QueueFed.
Context {T R : Type}.
Variable v : variant.
(** [func(data, **kwargs)] with [kwargs["process_id"] = w]; the value
    returned may be [None]. *)
Variable func : nat -> T -> outcome (option R).

(** [invocations] is history, not program state: the calls of [func]
    that have returned or raised so far, oldest first. *)
Record qstate := QState {
  to_put : list (option T);
  data_queue : list (option T);
  result_queue : list (option R);
  workers : list (wstate T);
  remaining : nat;
  all_results : list (option R);
  invocations : list (nat * T)
}.

(** The state once the filler and the workers are started.  An item of
    [all_data] may itself be [None].  The thread variant returns [[]]
    for an empty list before it creates anything. *)
Definition post_init (all_data : list (option T)) (num_workers : nat) : qstate :=
  match v, all_data with
  | Thread, [] => QState [] [] [] [] 0 [] []
  | _, _ =>
      QState (all_data ++ replicate num_workers None) [] []
        (replicate num_workers Waiting) (length all_data) [] []
  end.

Definition set_worker (w : nat) (st : wstate T) (s : qstate) : qstate :=
  QState (to_put s) (data_queue s) (result_queue s)
    (<[w := st]> (workers s)) (remaining s) (all_results s) (invocations s).

Definition put_result (r : option R) (s : qstate) : qstate :=
  QState (to_put s) (data_queue s) (result_queue s ++ [r])
    (workers s) (remaining s) (all_results s) (invocations s).

Definition record_call (w : nat) (data : T) (s : qstate) : qstate :=
  QState (to_put s) (data_queue s) (result_queue s)
    (workers s) (remaining s) (all_results s) (invocations s ++ [(w, data)]).

(** One event; [None] when the event cannot happen in [s]. *)
Definition post_step (e : event) (s : qstate) : option qstate :=
  match e with
  | Fill =>
      match to_put s with
      | x :: rest =>
          Some (QState rest (data_queue s ++ [x]) (result_queue s)
                  (workers s) (remaining s) (all_results s) (invocations s))
      | [] => None
      end
  | Get w =>
      match workers s !! w, data_queue s with
      | Some Waiting, x :: rest =>
          let s' := QState (to_put s) rest (result_queue s)
                      (workers s) (remaining s) (all_results s) (invocations s) in
          match x with
          | None => Some (set_worker w Stopped s')
          | Some data => Some (set_worker w (Busy data) s')
          end
      | _, _ => None
      end
  | Call w =>
      match workers s !! w with
      | Some (Busy data) =>
          let s' := record_call w data s in
          match func w data, v with
          | Returned result, _ => Some (set_worker w Waiting (put_result result s'))
          | Raised, Thread => Some (set_worker w Waiting (put_result None s'))
          | Raised, Process => Some (set_worker w Failed s')
          end
      | _ => None
      end
  | Timeout w =>
      match v, workers s !! w, data_queue s with
      | Process, Some Waiting, [] => Some (set_worker w Failed s)
      | _, _, _ => None
      end
  | Collect =>
      match remaining s, result_queue s with
      | S n, result :: rest =>
          let kept :=
            match v, result with
            | Thread, None => all_results s
            | _, _ => all_results s ++ [result]
            end in
          Some (QState (to_put s) (data_queue s) rest (workers s) n kept
                  (invocations s))
      | _, _ => None
      end
  end.

Fixpoint post_run (sched : list event) (s : qstate) : option qstate :=
  match sched with
  | [] => Some s
  | e :: sched' =>
      match post_step e s with
      | Some s' => post_run sched' s'
      | None => None
      end
  end.

(** The caller's collecting loop is over. *)
Definition loop_done (s : qstate) : Prop := remaining s = 0%nat.

Definition exited (st : wstate T) : bool :=
  match st with
  | Stopped | Failed => true
  | Waiting | Busy _ => false
  end.

(** The wrapper can return: its loop is over and its joins come back.
    The thread variant joins with a timeout, so its joins always do; the
    process variant waits for the filler and for every worker. *)
Definition returns (s : qstate) : bool :=
  match remaining s, v with
  | O, Thread => true
  | O, Process =>
      match to_put s with
      | [] => forallb exited (workers s)
      | _ :: _ => false
      end
  | S _, _ => false
  end.

(** The wrapper, for the run whose events are [sched]: the list it
    returns, or [None] when [sched] is not a run or the wrapper cannot
    return at its end. *)
Definition post_allocated (all_data : list (option T)) (num_workers : nat)
    (sched : list event) : option (list (option R)) :=
  match post_run sched (post_init all_data num_workers) with
  | Some s => if returns s then Some (all_results s) else None
  | None => None
  end.

(** Nothing can happen any more. *)
Definition quiescent (s : qstate) : Prop := forall e, post_step e s = None.

Definition no_failed (s : qstate) : Prop := Failed ∉ workers s.

(** What one invocation contributes to the result queue. *)
Definition pushed (c : nat * T) : list (option R) :=
  match func c.1 c.2, v with
  | Returned result, _ => [result]
  | Raised, Thread => [None]
  | Raised, Process => []
  end.

(** What one invocation contributes to the list the caller returns. *)
Definition kept_of (c : nat * T) : list (option R) :=
  match func c.1 c.2, v with
  | Returned None, Thread => []
  | Returned result, _ => [result]
  | Raised, _ => []
  end.

(** Potential of a state: every event lowers it. *)
Definition worker_weight (st : wstate T) : nat :=
  match st with
  | Waiting => 1
  | Busy _ => 3
  | Stopped | Failed => 0
  end.

Definition potential (s : qstate) : nat :=
  5 * length (to_put s) + 4 * length (data_queue s)
  + length (result_queue s) + sum_list (worker_weight <$> workers s).
End QueueFed.

Definition post_allocated_multiprocess {T R : Type} :=
  @post_allocated T R Process.

Definition post_allocated_multithread {T R : Type} :=
  @post_allocated T R Thread.

(** Sample transforms over numbers: one that returns [None] for every
    item, one that raises on every item, and one that raises on 0, returns
    [None] on 1 and doubles everything else. *)
Definition none_func (w data : nat) : outcome (option nat) := Returned None.

Definition raising_func (w data : nat) : outcome (option nat) := Raised.

Definition mixed_func (w data : nat) : outcome (option nat) :=
  match data with
  | O => Raised
  | S O => Returned None
  | _ => Returned (Some (2 * data)%nat)
  end.

(** Whether an invocation returned rather than raised. *)
Definition did_return {T R : Type} (func : nat -> T -> outcome (option R))
    (c : nat * T) : bool :=
  match func c.1 c.2 with
  | Returned _ => true
  | Raised => false
  end.

(** *** Dynamic Dependent-Task Scheduler: [dynamic_task_pool_multiprocess] *)

(** A task dictionary; [task_id] is only ever read with [.get]. *)
Record task := Task {
  task_id : option string;
  item_id : string;
  turn : Z;
  payload : string
}.

(** The dictionary a worker puts on [result_q]. *)
Record dyn_result := DynResult {
  dr_task_id : option string;
  dr_item_id : string;
  dr_turn : Z;
  dr_result : option string
}.

(** What [func] returns: [fr_result] is [None] when the dictionary has no
    ['result'] key (or is empty or [None]), and [Some r] when the key is
    there with value [r], itself possibly [None]; [fr_next_tasks] is the
    ['next_tasks'] list, empty when absent. *)
Record fn_result := FnResult {
  fr_result : option (option string);
  fr_next_tasks : list (option task)
}.

(** A worker of the dynamic pool: blocked in [get(timeout=3)], holding a
    task, inside the [except Empty] handler having seen [qsize() == 0]
    [k] times so far, or out of its loop. *)
Inductive dstate :=
  | DWaiting
  | DBusy (t : task)
  | DPolling (k : nat)
  | DExited.

Inductive devent := DGet (w : nat) | DCall (w : nat) | DTimeout (w : nat) | DCheck (w : nat).

Section Dynamic.
Variable func : nat -> task -> outcome fn_result.

Record dstate_pool := DPool {
  task_queue : list (option task);
  d_result_queue : list dyn_result;
  d_workers : list dstate
}.

Definition dyn_init (initial_tasks : list (option task)) (num_workers : nat)
    : dstate_pool :=
  match initial_tasks with
  | [] => DPool [] [] []
  | _ => DPool initial_tasks [] (replicate num_workers DWaiting)
  end.

Definition set_dworker (w : nat) (st : dstate) (s : dstate_pool) : dstate_pool :=
  DPool (task_queue s) (d_result_queue s) (<[w := st]> (d_workers s)).

(** One event of the pool.  [DCall] groups the puts of one finished
    task: the result first, its [next_tasks] after it. *)
Definition dyn_step (e : devent) (s : dstate_pool) : option dstate_pool :=
  match e with
  | DGet w =>
      match d_workers s !! w, task_queue s with
      | Some DWaiting, x :: rest =>
          let s' := DPool rest (d_result_queue s) (d_workers s) in
          match x with
          | None => Some (set_dworker w DExited s')
          | Some t => Some (set_dworker w (DBusy t) s')
          end
      | _, _ => None
      end
  | DCall w =>
      match d_workers s !! w with
      | Some (DBusy t) =>
          match func w t with
          | Returned result =>
              let produced :=
                match fr_result result with
                | Some r => [DynResult (task_id t) (item_id t) (turn t) r]
                | None => []
                end in
              Some (DPool (task_queue s ++ fr_next_tasks result)
                      (d_result_queue s ++ produced)
                      (<[w := DWaiting]> (d_workers s)))
          | Raised => Some (set_dworker w DWaiting s)
          end
      | _ => None
      end
  | DTimeout w =>
      match d_workers s !! w, task_queue s with
      | Some DWaiting, [] => Some (set_dworker w (DPolling 0) s)
      | _, _ => None
      end
  | DCheck w =>
      match d_workers s !! w with
      | Some (DPolling k) =>
          match task_queue s with
          | [] =>
              if decide (k < 2)%nat then Some (set_dworker w (DPolling (S k)) s)
              else Some (set_dworker w DExited s)
          | _ :: _ => Some (set_dworker w DWaiting s)
          end
      | _ => None
      end
  end.

Fixpoint dyn_run (sched : list devent) (s : dstate_pool) : option dstate_pool :=
  match sched with
  | [] => Some s
  | e :: sched' =>
      match dyn_step e s with
      | Some s' => dyn_run sched' s'
      | None => None
      end
  end.

(** Every [p.join()] has returned. *)
Definition all_exited (s : dstate_pool) : Prop :=
  Forall (fun st => st = DExited) (d_workers s).

Definition has_exited (st : dstate) : bool :=
  match st with
  | DExited => true
  | _ => false
  end.

(** The wrapper, for the run whose events are [sched]: once the joins are
    over it drains the result queue in order; [None] when [sched] is not a
    run or leaves a worker in its loop. *)
Definition dynamic_task_pool_multiprocess (initial_tasks : list (option task))
    (num_workers : nat) (sched : list devent) : option (list dyn_result) :=
  match dyn_run sched (dyn_init initial_tasks num_workers) with
  | Some s =>
      if forallb has_exited (d_workers s) then Some (d_result_queue s) else None
  | None => None
  end.
End Dynamic.

(** *** The caller-side reduction ([datatool/utils/data.py],
        [process_turn_hook]) *)

(** [if item_id not in item_results or turn > item_results[item_id]['turn']]. *)
Definition keep_highest (item_results : gmap string dyn_result) (result : dyn_result)
    : gmap string dyn_result :=
  match item_results !! dr_item_id result with
  | None => <[dr_item_id result := result]> item_results
  | Some kept =>
      if decide (dr_turn kept < dr_turn result)
      then <[dr_item_id result := result]> item_results
      else item_results
  end.

Definition item_results (results : list dyn_result) : gmap string dyn_result :=
  foldl keep_highest ∅ results.

(** *** The two-turn scenario of the specification *)

Definition turn0_task : task := Task None "x" 0 "".
Definition turn1_task : task := Task None "x" 1 "".

Definition two_turn_func (w : nat) (t : task) : outcome fn_result :=
  if decide (turn t = 0)
  then Returned (FnResult (Some (Some "partial")) [Some turn1_task])
  else Returned (FnResult (Some (Some "final")) []).

Definition partial_result : dyn_result := DynResult None "x" 0 (Some "partial").
Definition final_result : dyn_result := DynResult None "x" 1 (Some "final").

(** Potential of a pool state under [two_turn_func]. *)
Definition queued_weight (x : option task) : nat :=
  match x with
  | Some t => if decide (turn t = 0) then 4 else 2
  | None => 1
  end.

Definition held_weight (st : dstate) : nat :=
  match st with
  | DBusy t => if decide (turn t = 0) then 3 else 1
  | _ => 0
  end.

Definition idle_weight (queue_empty : bool) (st : dstate) : nat :=
  match st with
  | DWaiting | DBusy _ => 5
  | DPolling k => if queue_empty then S (3 - k) else 6
  | DExited => 0
  end.

Definition work_left (s : dstate_pool) : nat :=
  sum_list (queued_weight <$> task_queue s) + sum_list (held_weight <$> d_workers s).

Definition two_turn_potential (s : dstate_pool) : nat :=
  work_left s * (6 * length (d_workers s) + 1)
  + sum_list (idle_weight (bool_decide (task_queue s = [])) <$> d_workers s).

End Parallel.

(* ===================================================================== *)
(** * Properties                                                           *)
(* ===================================================================== *)

(** ** Volume packer *)

Module PackerProps.
Import Packer.

Lemma utf8_len_nonneg s : 0 <= utf8_len s.
Proof. unfold utf8_len. lia. Qed.

Lemma base_overhead_nonneg jsonl_data config_content :
  0 <= base_overhead jsonl_data config_content.
Proof.
  unfold base_overhead.
  assert (0 <= map_fold (fun (_ : string) content acc => acc + utf8_len content)
                 0 jsonl_data) as Hfold.
  { apply (map_fold_weak_ind (fun acc _ => 0 <= acc)); [lia|].
    intros k c m acc _ Hacc. pose proof (utf8_len_nonneg c). lia. }
  destruct config_content as [c|]; [|lia].
  destruct (String.eqb c ""); pose proof (utf8_len_nonneg c); lia.
Qed.

Lemma files_size_app fs gs : files_size (fs ++ gs) = files_size fs + files_size gs.
Proof. induction fs as [|f fs IH]; simpl; lia. Qed.

(** The three cases of one loop iteration. *)
Lemma alloc_step_absorb jd b cap vols cur f :
  vsize cur + size f <= cap ->
  alloc_step jd b cap (vols, cur) f =
  (vols, Volume (files cur ++ [f]) (jsonl cur) (config cur) (vsize cur + size f)).
Proof.
  intros Hfit. unfold alloc_step.
  destruct (Z.ltb_spec cap (vsize cur + size f)); [lia|]. reflexivity.
Qed.

Lemma alloc_step_seal jd b cap vols cur f :
  cap < vsize cur + size f -> files cur <> [] ->
  alloc_step jd b cap (vols, cur) f =
  (vols ++ [cur], Volume [f] jd None (b + size f)).
Proof.
  intros Hover Hne. unfold alloc_step.
  destruct (Z.ltb_spec cap (vsize cur + size f)); [|lia].
  destruct (files cur); [done|]. reflexivity.
Qed.

Lemma alloc_step_first jd b cap vols cur f :
  files cur = [] ->
  alloc_step jd b cap (vols, cur) f =
  (vols, Volume [f] (jsonl cur) (config cur) (vsize cur + size f)).
Proof.
  intros Hnil. unfold alloc_step. rewrite Hnil, andb_false_r. simpl.
  rewrite Hnil. reflexivity.
Qed.

Lemma alloc_loop_invariant (I : list volume * volume -> Prop) jd b cap st fs :
  I st ->
  (forall st f, I st -> I (alloc_step jd b cap st f)) ->
  I (alloc_loop jd b cap st fs).
Proof.
  intros Hst Hstep. unfold alloc_loop.
  revert st Hst. induction fs as [|f fs IH]; intros st Hst; simpl; auto.
Qed.

Section SizeBound.
Variables (jd : gmap string string) (b cap : Z).

(** A volume that has been filled: its recorded size is the overhead
    plus its entries, and it is within the cap unless it is a singleton. *)
Definition filled (v : volume) : Prop :=
  vsize v = b + files_size (files v)
  /\ files v <> []
  /\ (vsize v <= cap \/ exists f, files v = [f]).

Definition size_inv (st : list volume * volume) : Prop :=
  Forall filled st.1
  /\ vsize st.2 = b + files_size (files st.2)
  /\ (files st.2 = [] \/ filled st.2).

Lemma size_inv_step st f : size_inv st -> size_inv (alloc_step jd b cap st f).
Proof.
  destruct st as [vols cur]. intros (Hvols & Hsz & Hcur).
  simpl in Hvols, Hsz, Hcur. unfold size_inv.
  destruct (decide (files cur = [])) as [Hnil|Hne].
  - rewrite alloc_step_first by done. split_and!; simpl; auto.
    + rewrite Hnil in *. simpl in *. lia.
    + right. split_and!; simpl; [rewrite Hnil in *; simpl in *; lia|done|eauto].
  - destruct Hcur as [?|Hcur]; [done|].
    destruct (Z.lt_ge_cases cap (vsize cur + size f)).
    + rewrite alloc_step_seal by done. split_and!; simpl.
      * apply Forall_app; split; auto.
      * lia.
      * right. split_and!; simpl; [lia|done|eauto].
    + rewrite alloc_step_absorb by done. split_and!; simpl; auto.
      * rewrite files_size_app. simpl. lia.
      * right. split_and!; simpl.
        -- rewrite files_size_app. simpl. lia.
        -- by destruct (files cur).
        -- left. lia.
Qed.

Lemma size_inv_finish st : size_inv st -> Forall filled (alloc_finish st).
Proof.
  destruct st as [vols cur]. intros (Hvols & Hsz & Hcur); simpl in *.
  destruct (files cur) eqn:E; simpl; [done|].
  apply Forall_app; split; [done|]. destruct Hcur; [done|]. by constructor.
Qed.
End SizeBound.

Lemma allocate_filled unique_file_paths jsonl_data config_content max_zip_size :
  Forall (filled (base_overhead jsonl_data config_content) max_zip_size)
    (allocate_files_to_volumes unique_file_paths jsonl_data config_content max_zip_size).
Proof.
  unfold allocate_files_to_volumes. apply size_inv_finish.
  apply alloc_loop_invariant; [|intros; by apply size_inv_step].
  split_and!; simpl; [constructor|lia|by left].
Qed.

(** C7, as amended.  Every produced volume's size is the shared-payload
    overhead plus its entries; a volume's size exceeds the cap only when it
    holds exactly one entry and overhead plus that entry exceeds the cap
    (so its entries alone exceed the cap only for one entry that is itself
    larger than the cap).  A running volume absorbs an entry when
    current size + entry size <= cap; when the entry would overflow, a
    non-empty running volume is sealed and a new one started with the
    entry, while an empty one takes the entry regardless. *)
Theorem packer_volume_size_bound unique_file_paths jsonl_data config_content
    max_zip_size :
  let b := base_overhead jsonl_data config_content in
  Forall (fun v =>
            vsize v = b + files_size (files v)
            /\ files v <> []
            /\ (max_zip_size < vsize v ->
                exists f, files v = [f] /\ max_zip_size < b + size f)
            /\ (max_zip_size < files_size (files v) ->
                exists f, files v = [f] /\ max_zip_size < size f))
    (allocate_files_to_volumes unique_file_paths jsonl_data config_content
       max_zip_size)
  /\ (forall vols cur f,
        (vsize cur + size f <= max_zip_size ->
         alloc_step jsonl_data b max_zip_size (vols, cur) f =
         (vols, Volume (files cur ++ [f]) (jsonl cur) (config cur)
                  (vsize cur + size f)))
        /\ (max_zip_size < vsize cur + size f -> files cur <> [] ->
            alloc_step jsonl_data b max_zip_size (vols, cur) f =
            (vols ++ [cur], Volume [f] jsonl_data None (b + size f)))
        /\ (max_zip_size < vsize cur + size f -> files cur = [] ->
            alloc_step jsonl_data b max_zip_size (vols, cur) f =
            (vols, Volume [f] (jsonl cur) (config cur) (vsize cur + size f)))).
Proof.
  intros b. split.
  - eapply Forall_impl; [apply allocate_filled|].
    intros v (Hsz & Hne & Hcap). fold b in Hsz.
    pose proof (base_overhead_nonneg jsonl_data config_content) as Hb. fold b in Hb.
    split_and!; auto.
    + intros Hover. destruct Hcap as [?|[f Hf]]; [lia|].
      exists f. split; [done|]. rewrite Hf in Hsz. simpl in Hsz. lia.
    + intros Hover. destruct Hcap as [?|[f Hf]]; [lia|].
      exists f. split; [done|]. rewrite Hf in Hover. simpl in Hover. lia.
  - intros vols cur f. split_and!.
    + apply alloc_step_absorb.
    + apply alloc_step_seal.
    + intros _. apply alloc_step_first.
Qed.

(** C7 as stated fails: with 8 bytes of metadata and a cap of 10, the
    single 5-byte entry sits in a volume of size 13, although the entry
    itself is within the cap. *)
Lemma packer_volume_size_bound_counterexample :
  ~ Forall (fun v => 10 < vsize v -> exists f, files v = [f] /\ 10 < size f)
      (allocate_files_to_volumes [sample_file "1.png" 5] sample_jsonl None 10).
Proof.
  replace (allocate_files_to_volumes [sample_file "1.png" 5] sample_jsonl None 10)
    with [Volume [sample_file "1.png" 5] sample_jsonl None 13]
    by (vm_compute; reflexivity).
  intros H. rewrite Forall_singleton in H. simpl in H.
  assert (10 < 13) as Hover by lia.
  apply H in Hover as (f & Hf & Hsz).
  injection Hf as <-. simpl in Hsz. lia.
Qed.

Section Payload.
Variables (jd : gmap string string) (cfg : option string).

(** Metadata everywhere; the config in the first volume only. *)
Definition payload_shape (l : list volume) : Prop :=
  Forall (fun v => jsonl v = jd) l
  /\ match l with
     | [] => True
     | v :: rest => config v = cfg /\ Forall (fun v => config v = None) rest
     end.

Lemma payload_shape_snoc_later l v :
  l <> [] -> payload_shape l -> jsonl v = jd -> config v = None ->
  payload_shape (l ++ [v]).
Proof.
  intros Hne [Hj Hc] Hvj Hvc. split.
  - apply Forall_app; split; [done|by constructor].
  - destruct l as [|v0 rest]; [done|]. simpl. destruct Hc as [Hc0 Hrest].
    split; [done|]. apply Forall_app; split; [done|by constructor].
Qed.

Lemma payload_shape_replace_last l v v' :
  payload_shape (l ++ [v]) -> jsonl v' = jsonl v -> config v' = config v ->
  payload_shape (l ++ [v']).
Proof.
  intros [Hj Hc] Hvj Hvc.
  apply Forall_app in Hj as [Hj Hjv]. rewrite Forall_singleton in Hjv.
  split.
  - apply Forall_app; split; [done|]. constructor; [congruence|done].
  - destruct l as [|v0 rest]; simpl in *.
    + destruct Hc as [Hc _]. split; [congruence|done].
    + destruct Hc as [Hc0 Hrest]. split; [done|].
      apply Forall_app in Hrest as [Hrest Hlast]. rewrite Forall_singleton in Hlast.
      apply Forall_app; split; [done|]. constructor; [congruence|done].
Qed.

Lemma payload_shape_prefix l v : payload_shape (l ++ [v]) -> payload_shape l.
Proof.
  intros [Hj Hc]. apply Forall_app in Hj as [Hj _]. split; [done|].
  destruct l as [|v0 rest]; [done|]. simpl in *. destruct Hc as [Hc0 Hrest].
  split; [done|]. by apply Forall_app in Hrest as [Hrest _].
Qed.

Definition payload_inv (st : list volume * volume) : Prop :=
  payload_shape (st.1 ++ [st.2]).

Lemma payload_inv_step b cap st f :
  payload_inv st -> payload_inv (alloc_step jd b cap st f).
Proof.
  destruct st as [vols cur]. unfold payload_inv. simpl. intros Hinv.
  unfold alloc_step.
  destruct ((cap <? vsize cur + size f) && nonempty (files cur)); simpl.
  - apply payload_shape_snoc_later; simpl; auto. by destruct vols.
  - by eapply payload_shape_replace_last.
Qed.

Lemma payload_inv_finish st : payload_inv st -> payload_shape (alloc_finish st).
Proof.
  destruct st as [vols cur]. unfold payload_inv. simpl.
  destruct (nonempty (files cur)); [done|apply payload_shape_prefix].
Qed.
End Payload.

Lemma imap_payload (name : nat -> volume -> string) volumes :
  (fun z : zip_info => (z.1.2, z.2))
    <$> imap (fun i v => (name i v, files v, jsonl v, config v)) volumes
  = (fun v => (jsonl v, config v)) <$> volumes.
Proof.
  revert name. induction volumes as [|v vs IH]; intros name; [done|].
  simpl. f_equal. apply (IH (fun i => name (S i))).
Qed.

Lemma zip_tasks_payload output_path volumes :
  (fun z : zip_info => (z.1.2, z.2)) <$> zip_tasks output_path volumes
  = (fun v => (jsonl v, config v)) <$> volumes.
Proof.
  unfold zip_tasks.
  apply (imap_payload
           (fun i _ => output_path +:+ "_part" +:+ pretty (S i) +:+ ".zip")).
Qed.

(** C8, as amended.  Every produced volume carries the complete JSON-lines
    metadata; the config goes into the first volume only and every later
    volume carries [None] in its place.  The archive tasks built from the
    volumes hand on exactly these two payload slots. *)
Theorem packer_shared_payload unique_file_paths jsonl_data config_content
    max_zip_size output_path :
  let volumes :=
    allocate_files_to_volumes unique_file_paths jsonl_data config_content
      max_zip_size in
  Forall (fun v => jsonl v = jsonl_data) volumes
  /\ match volumes with
     | [] => True
     | v :: rest =>
         config v = config_content /\ Forall (fun v => config v = None) rest
     end
  /\ (fun z : zip_info => (z.1.2, z.2)) <$> zip_tasks output_path volumes
     = (fun v => (jsonl v, config v)) <$> volumes.
Proof.
  intros volumes.
  assert (payload_shape jsonl_data config_content volumes) as [Hj Hc].
  { unfold volumes, allocate_files_to_volumes. apply payload_inv_finish.
    apply alloc_loop_invariant; [|intros; by apply payload_inv_step].
    unfold payload_inv, payload_shape. simpl. repeat constructor. }
  split_and!; [done|done|apply zip_tasks_payload].
Qed.

(** C8 as stated fails: two 6-byte entries under a cap of 10 make two
    volumes, and the second one has no config. *)
Lemma packer_shared_payload_counterexample :
  ~ Forall (fun v => jsonl v = sample_jsonl /\ config v = Some "a: b")
      (allocate_files_to_volumes
         [sample_file "1.png" 6; sample_file "2.png" 6]
         sample_jsonl (Some "a: b") 10).
Proof.
  intros H. apply Forall_lookup with (i := 1%nat)
    (x := Volume [sample_file "2.png" 6] sample_jsonl None 18) in H.
  - by destruct H as [_ ?].
  - vm_compute. reflexivity.
Qed.

End PackerProps.

(** ** Content hasher *)

Module HasherProps.
Import Hasher.

Lemma MiB_pos : (0 < MiB)%nat.
Proof. unfold MiB. lia. Qed.

Lemma half_double n : ((2 * n) `div` 2 = n)%nat.
Proof. rewrite Nat.mul_comm. apply Nat.div_mul. lia. Qed.

Lemma MiB_half : (MiB `div` 2 + MiB `div` 2 = MiB)%nat.
Proof.
  replace MiB with (2 * (512 * 1024))%nat by (unfold MiB; lia).
  rewrite half_double. lia.
Qed.

(** From here on the constant is only used through the facts above. *)
#[local] Opaque MiB.

(** The reads of the large-file branch, as slices of the content. *)
Lemma fast_digest_input_slices content :
  (2 * MiB < length content)%nat ->
  fast_digest_input content =
  take MiB content
  ++ take MiB (drop (length content `div` 2) content)
  ++ drop (length content - MiB) content
  ++ str_encode (length content).
Proof.
  intros Hbig.
  cbv beta iota zeta delta [fast_digest_input open read seek read_all h_data h_pos].
  destruct (decide (2 * MiB < length content)%nat); [|lia].
  destruct (decide (MiB < length content)%nat); [|lia].
  rewrite drop_0, Nat.max_0_l, <- !app_assoc. reflexivity.
Qed.

(** C5, as amended.  For every file of at least 10 MiB the digest input
    is the first MiB, then the MiB that starts at offset [size // 2] (it
    begins at the midpoint; it is not centred on it), then the last MiB,
    then the decimal string of the size; both size guards hold for such a
    file.  The returned hash of a readable file is the hex digest of that
    input prefixed with [fast_]. *)
Theorem hasher_large_file_digest content :
  (10 * MiB <= length content)%nat ->
  fast_digest_input content =
    take MiB content
    ++ take MiB (drop (length content `div` 2) content)
    ++ drop (length content - MiB) content
    ++ str_encode (length content)
  /\ forall md5_hexdigest (fs : gmap string fs_entry) file_path,
       fs !! file_path = Some (FsEntry content true) ->
       get_file_hash_fast md5_hexdigest fs file_path =
       Some ("fast_" +:+ md5_hexdigest (fast_digest_input content)).
Proof.
  intros Hbig. pose proof MiB_pos as Hpos. split.
  - apply fast_digest_input_slices. lia.
  - intros md5_hexdigest fs file_path Hfile.
    unfold get_file_hash_fast. rewrite Hfile.
    cbv beta iota zeta delta [Hasher.content readable negb].
    destruct (decide (length content = 0)%nat); [lia|].
    destruct (decide (length content < 10 * MiB)%nat); [lia|]. reflexivity.
Qed.

Lemma two_tone_length : length two_tone_file = (10 * MiB)%nat.
Proof. unfold two_tone_file. rewrite length_app, !length_replicate. lia. Qed.

Lemma two_tone_midpoint : (length two_tone_file `div` 2 = 5 * MiB)%nat.
Proof.
  rewrite two_tone_length.
  replace (10 * MiB)%nat with (2 * (5 * MiB))%nat by lia. apply half_double.
Qed.

Lemma hasher_large_file_digest_witness :
  fast_digest_input two_tone_file =
    take MiB two_tone_file
    ++ take MiB (drop (length two_tone_file `div` 2) two_tone_file)
    ++ drop (length two_tone_file - MiB) two_tone_file
    ++ str_encode (length two_tone_file)
  /\ forall md5_hexdigest (fs : gmap string fs_entry) file_path,
       fs !! file_path = Some (FsEntry two_tone_file true) ->
       get_file_hash_fast md5_hexdigest fs file_path =
       Some ("fast_" +:+ md5_hexdigest (fast_digest_input two_tone_file)).
Proof.
  apply (hasher_large_file_digest two_tone_file).
  rewrite two_tone_length. lia.
Defined.

(** The middle read of the code on the two-tone file starts with [0x01] ... *)
Lemma two_tone_code_middle :
  take MiB (drop (length two_tone_file `div` 2) two_tone_file) !! 0%nat = Some x01.
Proof.
  pose proof MiB_pos. rewrite two_tone_midpoint. unfold two_tone_file.
  rewrite drop_app_ge by (rewrite length_replicate; lia).
  rewrite length_replicate, drop_replicate, take_replicate.
  apply lookup_replicate_2. lia.
Qed.

(** ... and the MiB centred on the midpoint starts with [0x00]. *)
Lemma two_tone_spec_middle :
  take MiB (drop (length two_tone_file `div` 2 - MiB `div` 2) two_tone_file)
    !! 0%nat = Some x00.
Proof.
  pose proof MiB_pos. pose proof MiB_half.
  rewrite two_tone_midpoint. unfold two_tone_file.
  rewrite drop_app_le by (rewrite length_replicate; lia).
  rewrite drop_replicate, lookup_take by lia.
  rewrite lookup_app_l by (rewrite length_replicate; lia).
  apply lookup_replicate_2. lia.
Qed.

#[local] Opaque two_tone_file.

Lemma differ_at_head {A} (a b r1 r2 : list A) (x y : A) :
  a !! 0%nat = Some x -> b !! 0%nat = Some y -> x <> y -> a ++ r1 <> b ++ r2.
Proof.
  intros Ha Hb Hxy Heq. apply Hxy.
  apply (lookup_app_l_Some _ r1) in Ha. apply (lookup_app_l_Some _ r2) in Hb.
  rewrite Heq in Ha. congruence.
Qed.

(** C5 as stated fails: on the 10 MiB two-tone file the code's digest
    input differs from the specification's (its middle MiB begins at the
    midpoint, where the bytes are [0x01], not half a MiB before it). *)
Lemma hasher_large_file_digest_counterexample :
  (10 * MiB <= length two_tone_file)%nat
  /\ fast_digest_input two_tone_file <> spec_digest_input two_tone_file.
Proof.
  pose proof MiB_pos as Hpos. pose proof two_tone_length as Hlen.
  split; [lia|]. intros Heq.
  rewrite fast_digest_input_slices in Heq by lia.
  unfold spec_digest_input in Heq.
  destruct (decide (2 * MiB < length two_tone_file)%nat); [|lia].
  apply app_inv_head in Heq. revert Heq.
  apply (differ_at_head _ _ _ _ x01 x00 two_tone_code_middle two_tone_spec_middle).
  discriminate.
Qed.

End HasherProps.

(** ** Deduplicator *)

Module DedupProps.
Import Hasher Dedup.

Section HashFailure.
Variable md5_hexdigest : list byte -> string.
Variable fs : gmap string fs_entry.
Variable completion : list hash_result -> list hash_result.
(** The path of a file for which hashing yields no hash. *)
Variable p : string.
Hypothesis completion_sound : forall l r, r ∈ completion l -> r ∈ l.
Hypothesis no_hash : get_file_hash md5_hexdigest fs p = None.

(** The tables say nothing about [p]. *)
Definition absent (t : tables) : Prop :=
  path_mapping t !! p = None
  /\ forall key info, unique_files t !! key = Some info -> u_src_path info <> p.

Lemma add_unique_absent key mf t :
  src_path mf <> p -> absent t -> absent (add_unique key mf t).1.
Proof.
  intros Hne [Hpm Huf]. unfold add_unique, bump. simpl. split; simpl.
  - by rewrite lookup_insert_ne.
  - intros k info. rewrite lookup_insert. case_decide.
    + intros [= <-]. done.
    + apply Huf.
Qed.

Lemma hash_result_step_absent ghm t mf :
  absent t ->
  absent (hash_result_step (ghm, t) (compute_hash_for_file_zip md5_hexdigest fs mf)).2.
Proof.
  intros Habs.
  cbv beta iota zeta delta [hash_result_step compute_hash_for_file_zip
                              r_status r_file_hash r_media_file].
  destruct (get_file_hash md5_hexdigest fs (src_path mf)) as [h|] eqn:Hh;
    [|exact Habs].
  assert (src_path mf <> p) as Hne by (intros Heq; congruence).
  destruct (negb (truthy (Some h))); [exact Habs|].
  destruct (ghm !! h) as [existing|].
  - destruct Habs as [Hpm Huf]. split; simpl; [|done].
    by rewrite lookup_insert_ne.
  - pose proof (add_unique_absent h mf t Hne Habs) as Hadd.
    destruct (add_unique h mf t) as [t' info]. exact Hadd.
Qed.

Lemma hash_results_absent (tasks : list media_file) results st :
  (forall r, r ∈ results -> r ∈ compute_hash_for_file_zip md5_hexdigest fs <$> tasks) ->
  absent st.2 -> absent (foldl hash_result_step st results).2.
Proof.
  revert st. induction results as [|r results IH]; intros [ghm t] Hin Habs; [done|].
  simpl. apply IH.
  - intros r' Hr'. apply Hin. by right.
  - assert (r ∈ compute_hash_for_file_zip md5_hexdigest fs <$> tasks) as Hr
      by (apply Hin; by left).
    apply list_elem_of_fmap in Hr as (mf & -> & _).
    by apply hash_result_step_absent.
Qed.

Lemma process_hash_group_absent group t :
  absent t ->
  absent (process_hash_group_concurrent_zip md5_hexdigest fs completion group t).
Proof.
  intros Habs. unfold process_hash_group_concurrent_zip.
  destruct (filter _ group) as [|mf tasks] eqn:Htasks; [done|].
  apply (hash_results_absent (mf :: tasks)); [|done].
  intros r Hr. by apply completion_sound.
Qed.

Lemma dedup_group_absent t g :
  (forall mf, g.2 = [mf] -> src_path mf <> p) ->
  absent t -> absent (dedup_group md5_hexdigest fs completion t g).
Proof.
  intros Hsingle Habs. destruct g as [sz [|mf [|mf' group]]]; simpl.
  - by apply process_hash_group_absent.
  - apply add_unique_absent; [|done]. by apply Hsingle.
  - by apply process_hash_group_absent.
Qed.

Lemma dedup_groups_absent groups t :
  Forall (fun g => forall mf, g.2 = [mf] -> src_path mf <> p) groups ->
  absent t -> absent (foldl (dedup_group md5_hexdigest fs completion) t groups).
Proof.
  revert t. induction groups as [|g groups IH]; intros t Hgs Habs; [done|].
  inversion Hgs; subst. simpl. apply IH; [done|]. by apply dedup_group_absent.
Qed.
End HashFailure.

(** C6, as amended.  A file whose hashing yields no hash is skipped by the
    Deduplicator: unless it is the only file of its size (in which case it
    is never hashed), it receives no PathMapping target and no
    UniqueFileEntry in the returned tables. *)
Theorem dedup_hash_failure_is_skipped md5_hexdigest fs completion
    (all_media_files : list media_file) (p : string) :
  (forall l r, r ∈ completion l -> r ∈ l) ->
  get_file_hash md5_hexdigest fs p = None ->
  Forall (fun g : nat * list media_file => forall mf, g.2 = [mf] -> src_path mf <> p)
    (group_by_size fs all_media_files) ->
  let '(unique_files, path_mapping) :=
    deduplicate_media_files_byhash md5_hexdigest fs completion all_media_files in
  path_mapping !! p = None
  /\ forall key info, unique_files !! key = Some info -> u_src_path info <> p.
Proof.
  intros Hsound Hnone Hgroups. unfold deduplicate_media_files_byhash.
  apply (dedup_groups_absent md5_hexdigest fs completion p Hsound Hnone); [done|].
  split; [done|]. intros key info. simpl. by rewrite lookup_empty.
Qed.

Lemma dedup_hash_failure_is_skipped_witness :
  let '(unique_files, path_mapping) :=
    deduplicate_media_files_byhash bytes_digest locked_fs input_order
      [a_file; b_file] in
  path_mapping !! "/d1/b.png" = None
  /\ forall key info, unique_files !! key = Some info -> u_src_path info <> "/d1/b.png".
Proof.
  apply (dedup_hash_failure_is_skipped bytes_digest locked_fs input_order
           [a_file; b_file] "/d1/b.png").
  - intros l r Hr. exact Hr.
  - vm_compute. reflexivity.
  - vm_compute. repeat constructor. intros mf [=].
Defined.

(** C6 as stated fails: [/d1/b.png] has the size of [/d1/a.png] and cannot
    be opened, so its hash is [None]; it ends up with no PathMapping
    target, and the only UniqueFileEntry is the one of [/d1/a.png]. *)
Lemma dedup_hash_failure_counterexample :
  b_file ∈ [a_file; b_file]
  /\ get_file_hash bytes_digest locked_fs (src_path b_file) = None
  /\ ~ (is_Some ((deduplicate_media_files_byhash bytes_digest locked_fs
                     input_order [a_file; b_file]).2 !! src_path b_file)
        /\ exists key info,
             (deduplicate_media_files_byhash bytes_digest locked_fs
                input_order [a_file; b_file]).1 !! key = Some info
             /\ u_src_path info = src_path b_file).
Proof.
  split_and!.
  - set_solver.
  - vm_compute. reflexivity.
  - intros [[dst Hdst] _]. vm_compute in Hdst. discriminate.
Qed.

(** C10.  Destination names are not unique across datasets: the two
    images below come from different datasets, have the same media type
    and suffix and different content, and both the hash-based and the
    path-based deduplicator map them to [MediaFiles/images/1.jpg], since
    each (dataset, media type) counter starts at 1 and the destination
    string does not mention the dataset. *)
Theorem dedup_destinations_collide_across_datasets :
  dataset_name cat_file <> dataset_name dog_file
  /\ media_type cat_file = media_type dog_file
  /\ suffix cat_file = suffix dog_file
  /\ src_path cat_file <> src_path dog_file
  /\ content <$> collide_fs !! src_path cat_file
     <> content <$> collide_fs !! src_path dog_file
  /\ (forall md5_hexdigest completion,
        let path_mapping :=
          (deduplicate_media_files_byhash md5_hexdigest collide_fs completion
             [cat_file; dog_file]).2 in
        path_mapping !! src_path cat_file = Some "MediaFiles/images/1.jpg"
        /\ path_mapping !! src_path dog_file = Some "MediaFiles/images/1.jpg")
  /\ (let path_mapping :=
        (deduplicate_media_files_by_path [cat_file; dog_file]).2 in
      path_mapping !! src_path cat_file = Some "MediaFiles/images/1.jpg"
      /\ path_mapping !! src_path dog_file = Some "MediaFiles/images/1.jpg")
  /\ (forall media_type idx suffix,
        rel_path media_type idx suffix =
        "MediaFiles/" +:+ media_type +:+ "/" +:+ pretty idx +:+ suffix).
Proof.
  split_and!; [done|done|done|done|vm_compute; congruence|..|done].
  - intros md5_hexdigest completion. split; vm_compute; reflexivity.
  - split; vm_compute; reflexivity.
Qed.

End DedupProps.

(** ** Static-Partition Executor *)

Module StaticProps.
Import Parallel.

Section SplitFacts.
Context {T : Type}.
Implicit Types (data : list T) (dist : list (list T)).

Lemma split_loop_app n i data1 data2 dist :
  split_loop n i (data1 ++ data2) dist =
  split_loop n i data1 dist ≫= split_loop n (i + length data1) data2.
Proof.
  revert i dist. induction data1 as [|x data1 IH]; intros i dist; simpl.
  - by rewrite Nat.add_0_r.
  - destruct (decide (n = 0)%nat); [done|].
    destruct (dist !! (i `mod` n)%nat); [|done].
    rewrite IH. by replace (S i + length data1)%nat with (i + S (length data1))%nat by lia.
Qed.

(** Round-robin placement: position [k] of worker [w]'s sub-list holds
    item [k * n + w]. *)
Definition round_robin (n : nat) data dist : Prop :=
  length dist = n
  /\ forall w l, dist !! w = Some l -> forall k, l !! k = data !! (k * n + w)%nat.

Lemma round_robin_length n data dist w l :
  (0 < n)%nat -> round_robin n data dist -> dist !! w = Some l ->
  (w = length data `mod` n)%nat -> length l = (length data `div` n)%nat.
Proof.
  intros Hn [Hlen Hrr] Hl ->.
  pose proof (Nat.div_mod_eq (length data) n) as Hdm.
  pose proof (Nat.mod_upper_bound (length data) n ltac:(lia)) as Hmod.
  set (q := (length data `div` n)%nat) in *.
  set (r := (length data `mod` n)%nat) in *.
  apply Nat.le_antisymm.
  - apply lookup_ge_None. rewrite (Hrr _ _ Hl). apply lookup_ge_None. nia.
  - destruct q as [|q']; [lia|].
    assert (is_Some (l !! q')) as Hsome.
    { rewrite (Hrr _ _ Hl). apply lookup_lt_is_Some. nia. }
    apply lookup_lt_is_Some in Hsome. lia.
Qed.

Lemma round_robin_snoc n data dist x l :
  (0 < n)%nat -> round_robin n data dist ->
  dist !! (length data `mod` n)%nat = Some l ->
  round_robin n (data ++ [x]) (<[(length data `mod` n)%nat := l ++ [x]]> dist).
Proof.
  intros Hn Hrr Hl.
  pose proof (round_robin_length _ _ _ _ _ Hn Hrr Hl eq_refl) as Hlenl.
  destruct Hrr as [Hlen Hrr].
  pose proof (Nat.div_mod_eq (length data) n) as Hdm.
  pose proof (Nat.mod_upper_bound (length data) n ltac:(lia)) as Hmod.
  set (q := (length data `div` n)%nat) in *.
  set (r := (length data `mod` n)%nat) in *.
  split; [by rewrite length_insert|].
  intros w l' Hl' k.
  assert (w < n)%nat as Hw.
  { apply lookup_lt_Some in Hl'. rewrite length_insert in Hl'. lia. }
  destruct (decide (w = r)) as [->|Hne].
  - rewrite list_lookup_insert_eq in Hl' by lia. injection Hl' as <-.
    destruct (Nat.lt_trichotomy k q) as [Hk|[->|Hk]].
    + rewrite lookup_app_l by lia. rewrite (Hrr _ _ Hl).
      rewrite lookup_app_l by nia. done.
    + rewrite lookup_app_r by lia. rewrite Hlenl, Nat.sub_diag.
      rewrite lookup_app_r by nia.
      replace (q * n + r - length data)%nat with 0%nat by nia. done.
    + rewrite !lookup_ge_None_2; [done|..].
      * rewrite length_app. simpl. nia.
      * rewrite length_app. simpl. lia.
  - rewrite list_lookup_insert_ne in Hl' by done. rewrite (Hrr _ _ Hl').
    destruct (Nat.lt_trichotomy (k * n + w) (length data)) as [Hk|[Hk|Hk]].
    + by rewrite lookup_app_l.
    + exfalso. apply Hne.
      assert (k = q) by nia. subst k. lia.
    + rewrite !lookup_ge_None_2; [done|..].
      * rewrite length_app. simpl. lia.
      * lia.
Qed.

Lemma split_round_robin data n :
  (0 < n)%nat ->
  exists dist, split_data_for_workers data n = Some dist /\ round_robin n data dist.
Proof.
  intros Hn. unfold split_data_for_workers.
  induction data as [|x data IH] using rev_ind.
  - eexists. split; [done|]. split; [by rewrite length_replicate|].
    intros w l Hl k. apply lookup_replicate in Hl as [-> _]. done.
  - destruct IH as (dist & Hsplit & Hrr).
    rewrite split_loop_app, Hsplit. simpl.
    destruct (decide (n = 0)%nat); [lia|].
    pose proof (Nat.mod_upper_bound (length data) n ltac:(lia)) as Hmod.
    destruct (lookup_lt_is_Some_2 dist (length data `mod` n)%nat) as [l Hl].
    { destruct Hrr as [-> _]. done. }
    rewrite Hl. eexists. split; [done|]. by apply round_robin_snoc.
Qed.
End SplitFacts.

Lemma flat_map_ext_elem {A B} (f g : A -> list B) (l : list A) :
  (forall x, x ∈ l -> f x = g x) -> flat_map f l = flat_map g l.
Proof.
  induction l as [|x l IH]; intros Hfg; simpl; [done|].
  rewrite Hfg by (by left). rewrite IH; [done|]. intros y Hy. apply Hfg. by right.
Qed.

Section RunFacts.
Context {T R : Type}.
Variable func : list T -> nat -> outcome (pyresult R).
Implicit Types (s : @pre_state T R) (order : list nat).

(** What one finished process leaves on the result queue. *)
Definition put_of (data : list T) (pid : nat) : list (pyresult R) :=
  match func data pid with
  | Returned results => [results]
  | Raised => []
  end.

Lemma process_worker_Some pid s s' :
  process_worker func pid s = Some s' <->
  exists data,
    pre_procs s !! pid = Some (Some data)
    /\ s' = PreState (<[pid := None]> (pre_procs s))
              (pre_result_queue s ++ put_of data pid).
Proof.
  unfold process_worker, put_of.
  destruct (pre_procs s !! pid) as [[data|]|]; split.
  - intros [= <-]. eauto.
  - intros (data' & [= <-] & ->). done.
  - done.
  - intros (? & [=] & _).
  - done.
  - intros (? & [=] & _).
Qed.

(** A run ends every process of [order] once, in that order: they were
    all still running, no process occurs twice, and the queue grows by
    their puts. *)
Lemma pre_run_Some order s s' :
  pre_run func order s = Some s' ->
  NoDup order
  /\ Forall (fun pid => exists data, pre_procs s !! pid = Some (Some data)) order
  /\ length (pre_procs s') = length (pre_procs s)
  /\ (forall pid, pre_procs s' !! pid =
                  if decide (pid ∈ order) then (fun _ => None) <$> pre_procs s !! pid
                  else pre_procs s !! pid)
  /\ pre_result_queue s' =
     pre_result_queue s
     ++ flat_map (fun pid => match pre_procs s !! pid with
                             | Some (Some data) => put_of data pid
                             | _ => []
                             end) order.
Proof.
  revert s. induction order as [|pid order IH]; intros s.
  - intros [= <-]. split_and!.
    + constructor.
    + constructor.
    + done.
    + intros pid. case_decide; [set_solver|done].
    + by rewrite app_nil_r.
  - cbn [pre_run].
    destruct (process_worker func pid s) as [s1|] eqn:Hstep; [|done].
    apply process_worker_Some in Hstep as (data & Hpid & ->).
    intros (Hnd & Hall & Hlen & Hprocs & Hq)%IH.
    cbn [pre_procs pre_result_queue flat_map] in *.
    assert (pid ∉ order) as Hfresh.
    { intros Hin. rewrite Forall_forall in Hall.
      destruct (Hall _ Hin) as (d & Hd).
      rewrite list_lookup_insert_eq in Hd by (by eapply lookup_lt_Some). done. }
    split_and!.
    + by constructor.
    + constructor; [eauto|]. rewrite Forall_forall in Hall |- *.
      intros pid' Hin. destruct (Hall _ Hin) as (d & Hd).
      rewrite list_lookup_insert_ne in Hd by (intros ->; done). eauto.
    + by rewrite Hlen, length_insert.
    + intros pid'. rewrite Hprocs.
      destruct (decide (pid' = pid)) as [->|Hne].
      * rewrite list_lookup_insert_eq by (by eapply lookup_lt_Some).
        rewrite Hpid. destruct (decide (pid ∈ order)); [done|].
        destruct (decide (pid ∈ pid :: order)) as [|Hout]; [done|].
        exfalso. apply Hout. by left.
      * rewrite list_lookup_insert_ne by done.
        destruct (decide (pid' ∈ order)) as [Hin|Hout],
                 (decide (pid' ∈ pid :: order)) as [Hin'|Hout']; try done.
        -- exfalso. apply Hout'. by right.
        -- apply elem_of_cons in Hin' as [?|?]; done.
    + rewrite Hq, Hpid, <- app_assoc. f_equal. f_equal.
      apply flat_map_ext_elem. intros pid' Hin.
      rewrite list_lookup_insert_ne by (intros ->; done). done.
Qed.

Lemma pre_run_total order s :
  NoDup order ->
  Forall (fun pid => exists data, pre_procs s !! pid = Some (Some data)) order ->
  is_Some (pre_run func order s).
Proof.
  revert s. induction order as [|pid order IH]; intros s Hnd Hall; simpl; [done|].
  inversion Hnd as [|? ? Hfresh Hnd']; subst.
  inversion Hall as [|? ? (data & Hpid) Hall']; subst.
  unfold process_worker. rewrite Hpid. apply IH; [done|]. simpl.
  rewrite Forall_forall in Hall' |- *. intros pid' Hin.
  destruct (Hall' _ Hin) as (d & Hd). exists d.
  rewrite list_lookup_insert_ne by (intros ->; done). done.
Qed.

Lemma all_joined_spec s :
  all_joined s = true <->
  forall pid, (pid < length (pre_procs s))%nat -> pre_procs s !! pid = Some None.
Proof.
  unfold all_joined. rewrite forallb_forall. split.
  - intros Hall pid Hlt%lookup_lt_is_Some_2. destruct Hlt as [p Hp].
    specialize (Hall p). rewrite <- list_elem_of_In in Hall.
    rewrite Hp. destruct p; [|done].
    by specialize (Hall ltac:(by eapply list_elem_of_lookup_2)).
  - intros Hall p Hin%list_elem_of_In. apply list_elem_of_lookup in Hin as [pid Hpid].
    rewrite Hall in Hpid by (by eapply lookup_lt_Some). by injection Hpid as <-.
Qed.

Lemma flat_map_flat_map {A B C} (f : B -> list C) (g : A -> list B) (l : list A) :
  flat_map f (flat_map g l) = flat_map (fun x => flat_map f (g x)) l.
Proof.
  induction l as [|x l IH]; simpl; [done|]. by rewrite flat_map_app, IH.
Qed.

Lemma collect_puts (all_data_list : list (list T)) order :
  collect_results
    (flat_map (fun pid => match (Some <$> all_data_list) !! pid with
                          | Some (Some data) => put_of data pid
                          | _ => []
                          end) order)
  = flat_map (worker_output func all_data_list) order.
Proof.
  unfold collect_results. rewrite flat_map_flat_map.
  apply flat_map_ext_elem. intros pid _.
  unfold worker_output, put_of. rewrite list_lookup_fmap.
  destruct (all_data_list !! pid) as [data|]; simpl; [|done].
  destruct (func data pid); simpl; [by rewrite app_nil_r|done].
Qed.

(** The runs of the wrapper are exactly the orders in which the
    [num_workers] processes can end, and a run returns the processes'
    outputs in that order. *)
Lemma pre_allocated_runs all_data num_workers all_data_list order :
  split_data_for_workers all_data num_workers = Some all_data_list ->
  length all_data_list = num_workers ->
  (forall results,
     pre_allocated_multiprocess func all_data num_workers order = Some results ->
     order ≡ₚ seq 0 num_workers
     /\ results = flat_map (worker_output func all_data_list) order)
  /\ (order ≡ₚ seq 0 num_workers ->
      pre_allocated_multiprocess func all_data num_workers order =
      Some (flat_map (worker_output func all_data_list) order)).
Proof.
  intros Hsplit Hlen. unfold pre_allocated_multiprocess. rewrite Hsplit.
  set (s0 := PreState (Some <$> all_data_list) []).
  assert (forall pid, (exists data, pre_procs s0 !! pid = Some (Some data))
                      <-> (pid < num_workers)%nat) as Hrunning.
  { intros pid. simpl. rewrite list_lookup_fmap. split.
    - intros (data & Hd). apply fmap_Some in Hd as (d & Hd%lookup_lt_Some & _). lia.
    - intros Hlt. destruct (lookup_lt_is_Some_2 all_data_list pid) as [d Hd]; [lia|].
      exists d. by rewrite Hd. }
  assert (forall s',
            pre_run func order s0 = Some s' ->
            (all_joined s' = true <-> order ≡ₚ seq 0 num_workers)
            /\ collect_results (pre_result_queue s') =
               flat_map (worker_output func all_data_list) order) as Hrun.
  { intros s' (Hnd & Hall & Hlen' & Hprocs & Hq)%pre_run_Some. split.
    - rewrite all_joined_spec. split.
      + intros Hjoined. apply NoDup_Permutation; [done|apply NoDup_seq|].
        intros pid. rewrite elem_of_seq. split.
        * intros Hin. rewrite Forall_forall in Hall.
          apply Hall, Hrunning in Hin. lia.
        * intros [_ Hlt]. simpl in Hlt.
          destruct (decide (pid ∈ order)) as [|Hout]; [done|].
          specialize (Hjoined pid). rewrite Hprocs, decide_False in Hjoined by done.
          apply Hrunning in Hlt as (d & Hd). rewrite Hd in Hjoined.
          discriminate Hjoined. rewrite Hlen'. by eapply lookup_lt_Some.
      + intros Hperm pid Hlt. rewrite Hprocs, decide_True.
        * rewrite Hlen' in Hlt. apply lookup_lt_is_Some_2 in Hlt as [d ->]. done.
        * rewrite Hperm, elem_of_seq. rewrite Hlen' in Hlt. simpl in Hlt.
          rewrite length_fmap in Hlt. lia.
    - rewrite Hq. simpl. apply collect_puts. }
  split.
  - intros results.
    destruct (pre_run func order s0) as [s'|] eqn:Hs'; [|done].
    destruct (Hrun s' eq_refl) as [Hjoined Hres].
    destruct (all_joined s') eqn:Hj; [|done]. intros [= <-].
    split; [by apply Hjoined|done].
  - intros Hperm.
    destruct (pre_run_total order s0) as [s' Hs'].
    { rewrite Hperm. apply NoDup_seq. }
    { rewrite Forall_forall. intros pid Hin. apply Hrunning.
      rewrite Hperm, elem_of_seq in Hin. lia. }
    destruct (Hrun s' Hs') as [Hjoined Hres]. rewrite Hs'.
    destruct (all_joined s') eqn:Hj; [by rewrite Hres|].
    apply Hjoined in Hperm. done.
Qed.
End RunFacts.

(** C3, as amended.  The input is split round-robin (item [i] is element
    [i div workers] of worker [i mod workers]'s sub-list).  The returned
    list is the concatenation of the workers' result sub-lists in the
    order in which the processes put them on the shared result queue, that
    is, in completion order: every order of completion is a possible run,
    and worker-index order is only one of them.  A worker whose [func]
    raised contributes nothing. *)
Theorem static_partition_round_robin_and_order {T R : Type}
    (func : list T -> nat -> outcome (pyresult R)) (all_data : list T)
    (num_workers : nat) :
  (0 < num_workers)%nat ->
  exists all_data_list,
    split_data_for_workers all_data num_workers = Some all_data_list
    /\ length all_data_list = num_workers
    /\ (forall w l, all_data_list !! w = Some l ->
        forall k, l !! k = all_data !! (k * num_workers + w)%nat)
    /\ (forall order results,
          pre_allocated_multiprocess func all_data num_workers order = Some results ->
          order ≡ₚ seq 0 num_workers
          /\ results = flat_map (worker_output func all_data_list) order)
    /\ (forall order,
          order ≡ₚ seq 0 num_workers ->
          pre_allocated_multiprocess func all_data num_workers order =
          Some (flat_map (worker_output func all_data_list) order)).
Proof.
  intros Hn.
  destruct (split_round_robin all_data num_workers Hn) as (dist & Hsplit & Hlen & Hrr).
  exists dist. split_and!; [done|done|done|..].
  - intros order results.
    by apply (pre_allocated_runs func all_data num_workers dist order).
  - intros order.
    by apply (pre_allocated_runs func all_data num_workers dist order).
Qed.

Lemma static_partition_round_robin_and_order_witness :
  exists all_data_list,
    split_data_for_workers [10; 20; 30] 2 = Some all_data_list
    /\ length all_data_list = 2%nat
    /\ (forall w l, all_data_list !! w = Some l ->
        forall k, l !! k = [10; 20; 30] !! (k * 2 + w)%nat)
    /\ (forall order results,
          pre_allocated_multiprocess echo_func [10; 20; 30] 2 order = Some results ->
          order ≡ₚ seq 0 2
          /\ results = flat_map (worker_output echo_func all_data_list) order)
    /\ (forall order,
          order ≡ₚ seq 0 2 ->
          pre_allocated_multiprocess echo_func [10; 20; 30] 2 order =
          Some (flat_map (worker_output echo_func all_data_list) order)).
Proof.
  apply (static_partition_round_robin_and_order echo_func [10; 20; 30] 2). lia.
Defined.

(** C3 as stated fails: with two workers over [[10; 20]], the run in
    which process 1 ends first returns [[20; 10]], which is not the
    concatenation in worker-index order, [[10; 20]]. *)
Lemma static_partition_order_counterexample :
  split_data_for_workers [10; 20] 2 = Some [[10]; [20]]
  /\ pre_allocated_multiprocess echo_func [10; 20] 2 [1; 0]%nat = Some [20; 10]
  /\ [20; 10] <> flat_map (worker_output echo_func [[10]; [20]]) (seq 0 2).
Proof. split_and!; [reflexivity|reflexivity|discriminate]. Qed.

End StaticProps.

(** ** Sums over lists *)

Module ListFacts.

Lemma sum_list_insert {A} (f : A -> nat) (l : list A) (i : nat) (x y : A) :
  l !! i = Some x ->
  (sum_list (f <$> <[i := y]> l) + f x = sum_list (f <$> l) + f y)%nat.
Proof.
  revert i. induction l as [|z l IH]; intros [|i] Hi; simplify_eq/=; [lia|].
  specialize (IH i Hi). lia.
Qed.

Lemma sum_list_app (l k : list nat) :
  sum_list (l ++ k) = (sum_list l + sum_list k)%nat.
Proof. induction l as [|n l IH]; simpl; lia. Qed.

End ListFacts.


(** ** Queue-Fed Executor *)

Module QueueFedProps.
Import Parallel ListFacts.

Section Runs.
Context {T R : Type}.
Variable func : nat -> T -> outcome (option R).
Implicit Types (v : variant) (s : @qstate T R) (sched : list event).

#[local] Abbreviation step v := (post_step v func).
#[local] Abbreviation run v := (post_run v func).

(** Every event lowers the potential, so a run from [s] has at most
    [potential s] events. *)
Lemma step_potential v e s s' :
  step v e s = Some s' -> (potential s' < potential s)%nat.
Proof.
  unfold post_step, potential. intros Hstep.
  destruct e as [|w|w|w|]; repeat case_match; simplify_eq/=;
    rewrite ?length_app; simpl;
    try match goal with
        | H : workers _ !! _ = Some ?old |- context [<[_ := ?new]> _] =>
            pose proof (sum_list_insert worker_weight _ _ old new H); simpl in *
        end;
    try match goal with H : data_queue _ = [] |- _ => rewrite ?H end;
    simpl; lia.
Qed.

Lemma run_potential v sched s s' :
  run v sched s = Some s' -> (length sched + potential s' <= potential s)%nat.
Proof.
  revert s. induction sched as [|e sched IH]; intros s; simpl.
  - intros [= ->]. lia.
  - destruct (step v e s) as [s1|] eqn:Hstep; [|done].
    intros Hrun%IH. apply step_potential in Hstep. lia.
Qed.

Lemma run_app v sched1 sched2 s :
  run v (sched1 ++ sched2) s = run v sched1 s ≫= run v sched2.
Proof.
  revert s. induction sched1 as [|e sched1 IH]; intros s; simpl; [done|].
  destruct (step v e s); simpl; [apply IH|done].
Qed.

(** *** Bookkeeping *)

(** The items held by busy workers, the number of stopped workers, the
    markers in a stretch of the data queue. *)
Definition held_by (st : wstate T) : list T :=
  match st with Busy data => [data] | _ => [] end.

Definition held (ws : list (wstate T)) : list T := flat_map held_by ws.

Definition is_stopped (st : wstate T) : nat :=
  match st with Stopped => 1 | _ => 0 end.

Definition is_marker (x : option T) : nat :=
  match x with None => 1 | Some _ => 0 end.

(** What the caller's loop keeps of one popped value. *)
Definition keep v (result : option R) : list (option R) :=
  match v, result with
  | Thread, None => []
  | _, _ => [result]
  end.

Lemma kept_of_pushed v c : kept_of v func c = flat_map (keep v) (pushed v func c).
Proof.
  unfold kept_of, pushed, keep.
  destruct (func c.1 c.2) as [[r|]|], v; reflexivity.
Qed.

Lemma held_insert ws w old new :
  ws !! w = Some old ->
  held_by old ++ held (<[w := new]> ws) ≡ₚ held_by new ++ held ws.
Proof.
  unfold held. revert w. induction ws as [|st ws IH]; intros [|w] Hw; simplify_eq/=.
  - apply Permutation_app_swap_app.
  - specialize (IH w Hw).
    rewrite !(Permutation_app_swap_app _ (held_by st)). by f_equiv.
Qed.

(** The invariant of a run that started with [plan] still to be put and
    [total] results to collect. *)
Record inv v (plan : list (option T)) (total : nat) (s : qstate) : Prop := Inv {
  inv_fifo :
    exists consumed,
      consumed ++ data_queue s ++ to_put s = plan
      /\ sum_list (is_marker <$> consumed) = sum_list (is_stopped <$> workers s)
      /\ omap id consumed ≡ₚ (invocations s).*2 ++ held (workers s);
  inv_results :
    all_results s ++ flat_map (keep v) (result_queue s)
    = flat_map (kept_of v func) (invocations s);
  inv_count :
    (remaining s + length (flat_map (pushed v func) (invocations s))
     = total + length (result_queue s))%nat;
  inv_failed :
    match v with
    | Thread => Failed ∉ workers s
    | Process =>
        forall c, c ∈ invocations s -> func c.1 c.2 = Raised -> Failed ∈ workers s
    end
}.

Lemma elem_of_insert_keep (ws : list (wstate T)) w new st :
  st ∈ ws -> st ∈ <[w := new]> ws \/ ws !! w = Some st.
Proof.
  intros (i & Hi)%list_elem_of_lookup.
  destruct (decide (i = w)) as [->|Hne]; [by right|].
  left. apply list_elem_of_lookup. exists i. by rewrite list_lookup_insert_ne.
Qed.

Lemma elem_of_insert_new (ws : list (wstate T)) w old new :
  ws !! w = Some old -> new ∈ <[w := new]> ws.
Proof.
  intros Hw. apply list_elem_of_lookup. exists w.
  rewrite list_lookup_insert_eq; [done|by eapply lookup_lt_Some].
Qed.

Lemma elem_of_insert_inv (ws : list (wstate T)) w new st :
  st ∈ <[w := new]> ws -> st = new \/ st ∈ ws.
Proof.
  intros (i & Hi)%list_elem_of_lookup.
  destruct (decide (i = w)) as [->|Hne].
  - destruct (decide (w < length ws)%nat).
    + rewrite list_lookup_insert_eq in Hi by done. left. congruence.
    + rewrite list_insert_ge in Hi by lia. right. by eapply list_elem_of_lookup_2.
  - rewrite list_lookup_insert_ne in Hi by done. right.
    by eapply list_elem_of_lookup_2.
Qed.

Lemma step_inv v plan total e s s' :
  step v e s = Some s' -> inv v plan total s -> inv v plan total s'.
Proof.
  intros Hstep [(consumed & <- & Hmark & Hitems) Hres Hcount Hfailed].
  unfold post_step in Hstep.
  destruct e as [|w|w|w|].
  - (* Fill *)
    destruct (to_put s) as [|x rest] eqn:Hput; simplify_eq/=.
    split; simpl; [|done..].
    exists consumed. split_and!; [|done|done].
    by rewrite <- !app_assoc.
  - (* Get *)
    destruct (workers s !! w) as [[| | |]|] eqn:Hw; try done.
    destruct (data_queue s) as [|x rest] eqn:Hq; [done|].
    assert (forall new, new <> Failed ->
              match v with
              | Thread => Failed ∉ <[w := new]> (workers s)
              | Process =>
                  forall c, c ∈ invocations s -> func c.1 c.2 = Raised ->
                            Failed ∈ <[w := new]> (workers s)
              end) as Hfailed'.
    { intros new Hnew. destruct v.
      - intros c Hc Hr.
        destruct (elem_of_insert_keep _ w new _ (Hfailed c Hc Hr)); [done|congruence].
      - intros Hin. apply elem_of_insert_inv in Hin as [?|?]; done. }
    destruct x as [data|]; simplify_eq/=.
    + split; simpl; [|done|done|by apply Hfailed'].
      exists (consumed ++ [Some data]). split_and!.
      * by rewrite <- app_assoc.
      * pose proof (sum_list_insert is_stopped _ _ _ (Busy data) Hw) as Hb.
        rewrite fmap_app, sum_list_app. simpl in *. lia.
      * rewrite omap_app. simpl. rewrite Hitems.
        pose proof (held_insert _ _ _ (Busy data) Hw) as Hh. simpl in Hh.
        rewrite Hh. rewrite <- app_assoc.
        by rewrite (Permutation_app_comm (held _) [data]).
    + split; simpl; [|done|done|by apply Hfailed'].
      exists (consumed ++ [None]). split_and!.
      * by rewrite <- app_assoc.
      * pose proof (sum_list_insert is_stopped _ _ _ Stopped Hw) as Hst.
        rewrite fmap_app, sum_list_app. simpl in *. lia.
      * rewrite omap_app. simpl. rewrite app_nil_r, Hitems.
        pose proof (held_insert _ _ _ Stopped Hw) as Hh. simpl in Hh.
        by rewrite Hh.
  - (* Call *)
    destruct (workers s !! w) as [[|data| |]|] eqn:Hw; try done.
    pose proof (kept_of_pushed v (w, data)) as Hkept.
    assert (length (flat_map (pushed v func) (invocations s ++ [(w, data)]))
            = (length (flat_map (pushed v func) (invocations s))
               + length (pushed v func (w, data)))%nat) as Hlen.
    { rewrite flat_map_app, length_app. simpl. by rewrite app_nil_r. }
    assert (flat_map (kept_of v func) (invocations s ++ [(w, data)])
            = flat_map (kept_of v func) (invocations s)
              ++ flat_map (keep v) (pushed v func (w, data))) as Hkeep.
    { rewrite flat_map_app. simpl. by rewrite app_nil_r, Hkept. }
    assert (pushed v func (w, data)
            = match func w data, v with
              | Returned result, _ => [result]
              | Raised, Thread => [None]
              | Raised, Process => []
              end) as Hpushed by done.
    rewrite Hpushed in Hlen, Hkeep. clear Hpushed Hkept.
    assert (forall new, is_stopped new = 0%nat -> held_by new = [] ->
              exists consumed',
                consumed' ++ data_queue s ++ to_put s
                = consumed ++ data_queue s ++ to_put s
                /\ sum_list (is_marker <$> consumed')
                   = sum_list (is_stopped <$> <[w := new]> (workers s))
                /\ omap id consumed' ≡ₚ
                   (invocations s ++ [(w, data)]).*2
                   ++ held (<[w := new]> (workers s))) as Hbook.
    { intros new Hnew Hheld. exists consumed. split_and!; [done|..].
      - pose proof (sum_list_insert is_stopped _ _ _ new Hw) as Hb.
        simpl in Hb. lia.
      - rewrite Hitems, fmap_app. simpl.
        pose proof (held_insert _ _ _ new Hw) as Hh. rewrite Hheld in Hh.
        simpl in Hh. by rewrite <- Hh, <- app_assoc. }
    destruct (func w data) as [result|] eqn:Hf.
    + simplify_eq/=. split; simpl.
      * by apply Hbook.
      * rewrite Hkeep, flat_map_app, app_assoc, Hres. done.
      * rewrite Hlen, length_app. simpl. lia.
      * destruct v.
        -- intros c [Hc|Hc%list_elem_of_singleton]%elem_of_app Hr.
           ++ destruct (elem_of_insert_keep _ w Waiting _ (Hfailed c Hc Hr));
                [done|congruence].
           ++ subst c. simpl in Hr. congruence.
        -- intros Hin. apply elem_of_insert_inv in Hin as [?|?]; done.
    + destruct v; simplify_eq/=.
      * split; simpl.
        -- by apply Hbook.
        -- rewrite Hkeep. simpl. by rewrite app_nil_r.
        -- rewrite Hlen. simpl. lia.
        -- intros c _ _. by eapply elem_of_insert_new.
      * split; simpl.
        -- by apply Hbook.
        -- rewrite Hkeep, flat_map_app, app_assoc, Hres. done.
        -- rewrite Hlen, length_app. simpl. lia.
        -- intros Hin. apply elem_of_insert_inv in Hin as [?|?]; done.
  - (* Timeout *)
    destruct v; [|done].
    destruct (workers s !! w) as [[| | |]|] eqn:Hw; try done.
    destruct (data_queue s) as [|x rest] eqn:Hq; [|done]. simplify_eq/=.
    split; simpl; [|done|done|].
    + exists consumed. split_and!.
      * by rewrite Hq.
      * pose proof (sum_list_insert is_stopped _ _ _ Failed Hw) as Hb.
        simpl in Hb. lia.
      * pose proof (held_insert _ _ _ Failed Hw) as Hh. simpl in Hh. by rewrite Hh.
    + intros c _ _. by eapply elem_of_insert_new.
  - (* Collect *)
    destruct (remaining s) as [|n] eqn:Hrem; [done|].
    destruct (result_queue s) as [|result rest] eqn:Hq; [done|]. simplify_eq/=.
    split; simpl; [by exists consumed| |lia|done].
    rewrite <- Hres. unfold keep at 2.
    destruct v, result; simpl; by rewrite <- ?app_assoc.
Qed.

Lemma run_inv v plan total sched s s' :
  run v sched s = Some s' -> inv v plan total s -> inv v plan total s'.
Proof.
  revert s. induction sched as [|e sched IH]; intros s; simpl.
  - by intros [= ->].
  - destruct (step v e s) as [s1|] eqn:Hstep; [|done].
    intros Hrun Hinv. eapply IH; [done|]. by eapply step_inv.
Qed.

Lemma step_workers_length v e s s' :
  step v e s = Some s' -> length (workers s') = length (workers s).
Proof.
  unfold post_step. intros Hstep.
  destruct e; repeat case_match; simplify_eq/=; by rewrite ?length_insert.
Qed.

Lemma run_workers_length v sched s s' :
  run v sched s = Some s' -> length (workers s') = length (workers s).
Proof.
  revert s. induction sched as [|e sched IH]; intros s; simpl.
  - by intros [= ->].
  - destruct (step v e s) as [s1|] eqn:Hstep; [|done].
    intros ->%IH. by eapply step_workers_length.
Qed.

(** Only [Collect] moves the caller's loop counter. *)
Definition is_collect (e : event) : nat :=
  match e with Collect => 1 | _ => 0 end.

Definition collects (sched : list event) : nat := sum_list (is_collect <$> sched).

Lemma run_collects v sched s s' :
  run v sched s = Some s' -> (remaining s' + collects sched = remaining s)%nat.
Proof.
  unfold collects. revert s. induction sched as [|e sched IH]; intros s; simpl.
  - intros [= ->]. lia.
  - destruct (step v e s) as [s1|] eqn:Hstep; [|done]. intros Hrun%IH.
    unfold post_step in Hstep.
    destruct e; repeat case_match; simplify_eq/=; lia.
Qed.

(** *** The initial state *)

Lemma held_replicate_waiting n : held (replicate n (@Waiting T)) = [].
Proof. unfold held. induction n as [|n IH]; simpl; done. Qed.

Lemma init_inv v all_data num_workers :
  let s0 := post_init v all_data num_workers in
  inv v (to_put s0) (remaining s0) s0.
Proof.
  assert (forall n, sum_list (is_stopped <$> replicate n (@Waiting T)) = 0%nat) as Hs.
  { induction n as [|n IH]; simpl; done. }
  assert (forall n, Failed ∉ replicate n (@Waiting T)) as Hf.
  { intros n [? _]%elem_of_replicate. done. }
  unfold post_init.
  destruct v, all_data as [|x all_data]; split; simpl;
    try (exists []; split_and!; simpl; rewrite ?Hs, ?held_replicate_waiting; done);
    try done; try (intros c Hc; by apply elem_of_nil in Hc); try apply Hf.
  all: by apply not_elem_of_nil.
Qed.

(** *** Quiescent states *)

Lemma stopped_count_le (ws : list (wstate T)) :
  (sum_list (is_stopped <$> ws) <= length ws)%nat.
Proof. induction ws as [|[| | |] ws IH]; csimpl; lia. Qed.

Lemma stopped_count_full (ws : list (wstate T)) :
  sum_list (is_stopped <$> ws) = length ws -> Forall (fun st => st = Stopped) ws.
Proof.
  induction ws as [|st ws IH]; [constructor|].
  pose proof (stopped_count_le ws). destruct st; csimpl; try lia.
  intros Heq. constructor; [done|]. apply IH. lia.
Qed.

Lemma stopped_count_all (ws : list (wstate T)) :
  Forall (fun st => st = Stopped) ws -> sum_list (is_stopped <$> ws) = length ws.
Proof. induction 1 as [|st ws -> _ IH]; csimpl; [done|]. by rewrite IH. Qed.

Lemma markers_plan (items : list T) n :
  sum_list (is_marker <$> ((Some <$> items) ++ replicate n None)) = n.
Proof.
  rewrite fmap_app, sum_list_app.
  assert (sum_list (is_marker <$> (Some <$> items)) = 0%nat) as ->.
  { induction items as [|x items IH]; csimpl; done. }
  induction n as [|n IH]; csimpl; lia.
Qed.

Lemma somes_plan (items : list T) n :
  omap id ((Some <$> items) ++ replicate n None) = items.
Proof.
  rewrite omap_app.
  assert (omap id (replicate n (@None T)) = []) as ->.
  { induction n as [|n IH]; csimpl; done. }
  rewrite app_nil_r. induction items as [|x items IH]; csimpl; [done|].
  by rewrite IH.
Qed.

Lemma held_all_stopped (ws : list (wstate T)) :
  Forall (fun st => st = Stopped) ws -> held ws = [].
Proof. unfold held. induction 1 as [|st ws -> _ IH]; simpl; done. Qed.

Lemma quiescent_complete v (items : list T) num_workers s :
  (1 <= num_workers)%nat ->
  inv v ((Some <$> items) ++ replicate num_workers None) (length items) s ->
  length (workers s) = num_workers ->
  quiescent v func s -> no_failed s ->
  to_put s = [] /\ data_queue s = [] /\ result_queue s = []
  /\ loop_done s
  /\ Forall (fun st => st = Stopped) (workers s)
  /\ (invocations s).*2 ≡ₚ items
  /\ all_results s = flat_map (kept_of v func) (invocations s).
Proof.
  intros Hn [(consumed & Hfifo & Hmark & Hitems) Hres Hcount Hfailed] Hlen Hq Hnf.
  assert (to_put s = []) as Hput.
  { specialize (Hq Fill). simpl in Hq. by destruct (to_put s). }
  rewrite Hput, app_nil_r in Hfifo.
  (* no worker is busy; a waiting worker sees an empty data queue *)
  assert (forall w st, workers s !! w = Some st ->
            st = Stopped \/ (st = Waiting /\ data_queue s = [])) as Hws.
  { intros w st Hw. destruct st as [|data| |].
    - right. split; [done|]. specialize (Hq (Get w)). simpl in Hq.
      rewrite Hw in Hq. destruct (data_queue s) as [|[x|] rest]; done.
    - specialize (Hq (Call w)). simpl in Hq. rewrite Hw in Hq.
      destruct (func w data), v; done.
    - by left.
    - exfalso. apply Hnf. by eapply list_elem_of_lookup_2. }
  (* a waiting worker is impossible: all markers would have been consumed *)
  assert (Forall (fun st => st = Stopped) (workers s)) as Hstopped.
  { destruct (decide (data_queue s = [])) as [Hempty|Hne].
    - apply stopped_count_full. rewrite <- Hmark, Hlen.
      rewrite Hempty, app_nil_r in Hfifo. rewrite Hfifo. apply markers_plan.
    - apply Forall_lookup. intros w st Hw.
      destruct (Hws w st Hw) as [?|[_ ?]]; done. }
  assert (data_queue s = []) as Hdq.
  { destruct (data_queue s) as [|x rest _] using rev_ind; [done|]. exfalso.
    pose proof (markers_plan items num_workers) as Hplan.
    destruct num_workers as [|n]; [lia|].
    assert (x = None) as ->.
    { replace (S n) with (n + 1)%nat in Hfifo by lia.
      rewrite replicate_add in Hfifo. simpl in Hfifo.
      rewrite !app_assoc in Hfifo. by apply app_inj_tail in Hfifo as [_ ->]. }
    rewrite <- Hfifo, !fmap_app, !sum_list_app in Hplan. simpl in Hplan.
    pose proof (stopped_count_all _ Hstopped). lia. }
  rewrite Hdq, app_nil_r in Hfifo. subst consumed.
  rewrite somes_plan, held_all_stopped, app_nil_r in Hitems by done.
  assert (length (flat_map (pushed v func) (invocations s)) = length items) as Hpushed.
  { rewrite Hitems, length_fmap.
    assert (Forall (fun c => length (pushed v func c) = 1%nat) (invocations s)) as Hone.
    { apply Forall_forall. intros c Hc. unfold pushed.
      destruct (func c.1 c.2) eqn:Hf; [done|]. destruct v; [|done].
      exfalso. apply Hnf. by eapply Hfailed. }
    clear -Hone. induction Hone as [|c l Hc _ IH]; simpl; [done|].
    rewrite length_app. lia. }
  assert (remaining s = length (result_queue s)) as Hrem by lia.
  assert (result_queue s = []) as Hrq.
  { specialize (Hq Collect). simpl in Hq. rewrite Hrem in Hq.
    by destruct (result_queue s). }
  rewrite Hrq in Hrem, Hres. simpl in Hres. rewrite app_nil_r in Hres.
  unfold loop_done. by split_and!.
Qed.

(** *** When the caller's loop is over *)

Lemma pushed_le_one v c : (length (pushed v func c) <= 1)%nat.
Proof. unfold pushed. destruct (func c.1 c.2), v; simpl; lia. Qed.

Lemma flat_map_short {A B} (f : A -> list B) (l : list A) :
  (forall x, length (f x) <= 1)%nat ->
  (length (flat_map f l) <= length l)%nat
  /\ (length (flat_map f l) = length l ->
      Forall (fun x => length (f x) = 1%nat) l).
Proof.
  intros Hf. induction l as [|x l [IH1 IH2]]; simpl; [by split; [lia|constructor]|].
  rewrite length_app. pose proof (Hf x). split; [lia|].
  intros Heq. constructor; [lia|]. apply IH2. lia.
Qed.

(** A finished loop has seen every item's result: the result queue is
    empty, every item has been passed to [func] exactly once, every
    invocation has pushed a value, and [all_results] is what the caller
    keeps of these values, in the order of the invocations. *)
Lemma loop_done_complete v (items : list T) num_workers s :
  inv v ((Some <$> items) ++ replicate num_workers None) (length items) s ->
  loop_done s ->
  result_queue s = []
  /\ (invocations s).*2 ≡ₚ items
  /\ Forall (fun c => length (pushed v func c) = 1%nat) (invocations s)
  /\ all_results s = flat_map (kept_of v func) (invocations s).
Proof.
  intros [(consumed & Hfifo & Hmark & Hitems) Hres Hcount Hfailed] Hdone.
  unfold loop_done in Hdone. rewrite Hdone in Hcount. simpl in Hcount.
  destruct (flat_map_short (pushed v func) (invocations s) (pushed_le_one v))
    as [Hshort Hfull].
  pose proof (somes_plan items num_workers) as Hplan.
  rewrite <- Hfifo, omap_app in Hplan.
  pose proof (f_equal length Hplan) as Hlen.
  pose proof (Permutation_length Hitems) as Hlen'.
  rewrite length_app in Hlen, Hlen'. rewrite length_fmap in Hlen'.
  assert (result_queue s = []) as Hrq by (apply length_zero_iff_nil; lia).
  assert (held (workers s) = []) as Hheld by (apply length_zero_iff_nil; lia).
  assert (omap id (data_queue s ++ to_put s) = []) as Hrest
    by (apply length_zero_iff_nil; lia).
  rewrite Hrest, app_nil_r in Hplan. rewrite Hplan, Hheld, app_nil_r in Hitems.
  rewrite Hrq in Hres. simpl in Hres. rewrite app_nil_r in Hres.
  split_and!; [done|done| |done]. apply Hfull. lia.
Qed.

Lemma returns_loop_done v s : returns v s = true -> loop_done s.
Proof. unfold returns, loop_done. by destruct (remaining s). Qed.

(** *** Every run can be completed *)

Lemma worker_events_disabled v s w :
  workers s !! w = None ->
  step v (Get w) s = None /\ step v (Call w) s = None /\ step v (Timeout w) s = None.
Proof. intros Hw. simpl. rewrite Hw. by destruct v. Qed.

Lemma enabled_below v s k :
  (exists e s', step v e s = Some s')
  \/ (forall w, (w < k)%nat ->
        step v (Get w) s = None /\ step v (Call w) s = None
        /\ step v (Timeout w) s = None).
Proof.
  induction k as [|k [?|IH]]; [right; intros; lia|by left|].
  destruct (step v (Get k) s) as [s'|] eqn:Hget; [left; eauto|].
  destruct (step v (Call k) s) as [s'|] eqn:Hcall; [left; eauto|].
  destruct (step v (Timeout k) s) as [s'|] eqn:Htime; [left; eauto|].
  right. intros w Hw. destruct (decide (w = k)) as [->|]; [done|].
  apply IH. lia.
Qed.

Lemma enabled_or_quiescent v s :
  (exists e s', step v e s = Some s') \/ quiescent v func s.
Proof.
  destruct (step v Fill s) as [s'|] eqn:Hfill; [left; eauto|].
  destruct (step v Collect s) as [s'|] eqn:Hcollect; [left; eauto|].
  destruct (enabled_below v s (length (workers s))) as [?|Hbelow]; [by left|].
  right. intros [|w|w|w|]; try done;
    (destruct (decide (w < length (workers s))%nat);
     [by apply Hbelow|apply worker_events_disabled, lookup_ge_None; lia]).
Qed.

Lemma run_completes v s :
  exists sched s', run v sched s = Some s' /\ quiescent v func s'.
Proof.
  remember (potential s) as p eqn:Hp. revert s Hp.
  induction p as [p IH] using lt_wf_ind. intros s ->.
  destruct (enabled_or_quiescent v s) as [(e & s1 & Hstep)|Hq].
  - destruct (IH (potential s1) (step_potential _ _ _ _ Hstep) s1 eq_refl)
      as (sched & s' & Hrun & Hq).
    exists (e :: sched), s'. simpl. by rewrite Hstep.
  - by exists [], s.
Qed.

End Runs.

(** The facts shared by the statements below. *)
Lemma queue_fed_run_inv {T R : Type} (func : nat -> T -> outcome (option R))
    (v : variant) (items : list T) (num_workers : nat) (sched : list event)
    (s : qstate) :
  (v = Thread -> items <> []) ->
  post_run v func sched (post_init v (Some <$> items) num_workers) = Some s ->
  inv func v ((Some <$> items) ++ replicate num_workers None) (length items) s
  /\ length (workers s) = num_workers.
Proof.
  intros Hne Hrun.
  set (s0 := post_init v (Some <$> items) num_workers) in *.
  assert (s0 = QState ((Some <$> items) ++ replicate num_workers None) [] []
                 (replicate num_workers Waiting) (length items) [] []) as Hs0.
  { unfold s0, post_init. rewrite length_fmap.
    destruct v; [done|]. destruct items; [by destruct Hne|done]. }
  pose proof (init_inv func v (Some <$> items) num_workers) as Hinit.
  fold s0 in Hinit. cbv zeta in Hinit.
  pose proof (run_inv func v _ _ _ _ _ Hrun Hinit) as Hinv.
  rewrite Hs0 in Hinv at 1 2. simpl in Hinv.
  pose proof (run_workers_length func v _ _ _ Hrun) as Hlen.
  rewrite Hs0 in Hlen. simpl in Hlen. rewrite length_replicate in Hlen.
  done.
Qed.

(** The thread variant on an empty list: nothing is started. *)
Lemma thread_empty_run {T R : Type} (func : nat -> T -> outcome (option R))
    (num_workers : nat) (sched : list event) (s : qstate) :
  post_run Thread func sched (post_init Thread [] num_workers) = Some s ->
  sched = [] /\ s = QState [] [] [] [] 0 [] [].
Proof.
  intros Hrun. pose proof (run_potential func Thread _ _ _ Hrun) as Hpot.
  unfold post_init, potential in Hpot. simpl in Hpot.
  destruct sched; [|simpl in Hpot; lia].
  simpl in Hrun. by injection Hrun as <-.
Qed.

(** C1, as amended.  For both variants, every list of non-[None] items
    (non-empty for the thread variant, which returns [[]] for an empty list
    before it creates any queue) and every [workers >= 1]:
    the data queue receives, in order, all items followed by one marker per
    worker; every run is finite and can be continued until nothing can
    happen any more, at which point the filler has put everything; the
    thread variant never loses a worker, and when nothing can happen any
    more and no worker has left its loop through the exception handler,
    the wrapper returns; and whenever the wrapper returns, every item has
    been passed to [func] exactly once and the returned list holds, in
    completion order, exactly the values these invocations returned, with,
    in the thread variant, the [None] values left out. *)
Theorem queue_fed_exactly_once {T R : Type} (v : variant)
    (func : nat -> T -> outcome (option R)) (items : list T) (num_workers : nat)
    (sched : list event) (s : qstate) :
  (1 <= num_workers)%nat ->
  (v = Thread -> items <> []) ->
  post_run v func sched (post_init v (Some <$> items) num_workers) = Some s ->
  (exists consumed,
     consumed ++ data_queue s ++ to_put s
     = (Some <$> items) ++ replicate num_workers None)
  /\ (length sched <= 5 * (length items + num_workers) + num_workers)%nat
  /\ (exists sched' s',
        post_run v func (sched ++ sched')
          (post_init v (Some <$> items) num_workers) = Some s'
        /\ quiescent v func s')
  /\ (quiescent v func s -> to_put s = [] /\ (no_failed s -> data_queue s = []))
  /\ (v = Thread -> no_failed s)
  /\ (quiescent v func s -> no_failed s ->
      post_allocated v func (Some <$> items) num_workers sched
      = Some (all_results s))
  /\ (forall results,
        post_allocated v func (Some <$> items) num_workers sched = Some results ->
        (invocations s).*2 ≡ₚ items
        /\ (v = Process ->
            Forall (fun c => did_return func c = true) (invocations s))
        /\ results = flat_map (kept_of v func) (invocations s)).
Proof.
  intros Hn Hne Hrun.
  destruct (queue_fed_run_inv func v items num_workers sched s Hne Hrun)
    as [Hinv Hlen].
  assert (quiescent v func s -> no_failed s ->
          to_put s = [] /\ data_queue s = [] /\ returns v s = true) as Hquiet.
  { intros Hq Hnf.
    destruct (quiescent_complete func v items num_workers s Hn Hinv Hlen Hq Hnf)
      as (Hput & Hdq & _ & Hdone & Hstopped & _).
    split_and!; [done..|]. unfold returns. unfold loop_done in Hdone.
    rewrite Hdone, Hput. destruct v; [|done].
    apply forallb_forall. intros st Hin%list_elem_of_In.
    rewrite Forall_forall in Hstopped. by rewrite (Hstopped st Hin). }
  split_and!.
  - destruct Hinv as [(consumed & Hfifo & _) _ _ _]. eauto.
  - pose proof (run_potential func v _ _ _ Hrun) as Hpot.
    assert (@potential T R (post_init v (Some <$> items) num_workers)
            <= 5 * (length items + num_workers) + num_workers)%nat as Hinit.
    { assert (forall n, sum_list (worker_weight <$> replicate n (@Waiting T)) = n)
        as Hw.
      { induction n as [|n IH]; csimpl; [done|]. by rewrite IH. }
      unfold post_init, potential.
      destruct v, (Some <$> items) eqn:E; simpl;
        rewrite ?length_app, ?length_replicate, ?Hw;
        apply (f_equal length) in E; rewrite length_fmap in E; simpl in E; lia. }
    lia.
  - destruct (run_completes func v s) as (sched' & s' & Hrun' & Hq).
    exists sched', s'. rewrite run_app, Hrun. done.
  - intros Hq. split.
    + specialize (Hq Fill). simpl in Hq. by destruct (to_put s).
    + intros Hnf. by destruct (Hquiet Hq Hnf) as (_ & ? & _).
  - intros ->. by destruct Hinv.
  - intros Hq Hnf. destruct (Hquiet Hq Hnf) as (_ & _ & Hret).
    unfold post_allocated. by rewrite Hrun, Hret.
  - intros results. unfold post_allocated. rewrite Hrun.
    destruct (returns v s) eqn:Hret; [|done]. intros [= <-].
    apply returns_loop_done in Hret.
    destruct (loop_done_complete func v items num_workers s Hinv Hret)
      as (_ & Hperm & Hone & Hres).
    split_and!; [done| |done].
    intros ->. eapply Forall_impl; [exact Hone|]. intros c Hc.
    unfold did_return. unfold pushed in Hc. by destruct (func c.1 c.2).
Qed.

Lemma queue_fed_exactly_once_witness :
  let sched := [Fill; Fill; Get 0; Call 0; Collect; Get 0] in
  let s := QState [] [] [] [Stopped] 0 [Some 6%nat] [(0%nat, 3%nat)] in
  (exists consumed,
     consumed ++ data_queue s ++ to_put s = (Some <$> [3%nat]) ++ replicate 1 None)
  /\ (length sched <= 5 * (1 + 1) + 1)%nat
  /\ (exists sched' s',
        post_run Process mixed_func (sched ++ sched')
          (post_init Process (Some <$> [3%nat]) 1) = Some s'
        /\ quiescent Process mixed_func s')
  /\ (quiescent Process mixed_func s ->
      to_put s = [] /\ (no_failed s -> data_queue s = []))
  /\ (Process = Thread -> no_failed s)
  /\ (quiescent Process mixed_func s -> no_failed s ->
      post_allocated Process mixed_func (Some <$> [3%nat]) 1 sched
      = Some (all_results s))
  /\ (forall results,
        post_allocated Process mixed_func (Some <$> [3%nat]) 1 sched = Some results ->
        (invocations s).*2 ≡ₚ [3%nat]
        /\ (Process = Process ->
            Forall (fun c => did_return mixed_func c = true) (invocations s))
        /\ results = flat_map (kept_of Process mixed_func) (invocations s)).
Proof.
  apply (queue_fed_exactly_once Process mixed_func [3%nat] 1
           [Fill; Fill; Get 0; Call 0; Collect; Get 0]).
  - lia.
  - discriminate.
  - reflexivity.
Defined.

(** C1 as stated fails: in the thread variant, an item on which [func]
    returns [None] without raising leaves no entry in the returned list. *)
Lemma queue_fed_exactly_once_counterexample :
  let sched := [Fill; Fill; Get 0; Call 0; Collect; Get 0] in
  let s := QState [] [] [] [Stopped] 0 [] [(0%nat, 7%nat)] in
  post_run Thread none_func sched (post_init Thread [Some 7%nat] 1) = Some s
  /\ post_allocated_multithread none_func [Some 7%nat] 1 sched = Some []
  /\ Forall (fun c => did_return none_func c = true) (invocations s)
  /\ length (@nil (option nat)) <> length (invocations s).
Proof.
  split_and!; [reflexivity|reflexivity|by repeat constructor|discriminate].
Qed.

(** C2, on the code.  In the process variant a worker whose [func] raises
    leaves its loop: with one worker and items 0 (on which [mixed_func]
    raises) and 5, the worker fails on 0, item 5 and the marker stay in the
    data queue, nothing can happen any more, the caller is still waiting
    for two results, and in no run at all does the wrapper return.  In the
    thread variant the same worker goes on to item 5 and the wrapper
    returns its result. *)
Theorem process_worker_stops_after_raise :
  let stuck := QState [] [Some 5%nat; None] [] [Failed] 2 [] [(0%nat, 0%nat)] in
  post_run Process mixed_func [Fill; Fill; Fill; Get 0; Call 0]
    (post_init Process [Some 0%nat; Some 5%nat] 1) = Some stuck
  /\ quiescent Process mixed_func stuck
  /\ ~ loop_done stuck
  /\ (forall sched,
        post_allocated_multiprocess mixed_func [Some 0%nat; Some 5%nat] 1 sched
        = None)
  /\ post_allocated_multithread mixed_func [Some 0%nat; Some 5%nat] 1
       [Fill; Fill; Fill; Get 0; Call 0; Get 0; Call 0; Get 0; Collect; Collect]
     = Some [Some 10%nat].
Proof.
  split_and!.
  - reflexivity.
  - intros [|w|w|w|]; try done; destruct w as [|w]; done.
  - discriminate.
  - intros sched. unfold post_allocated_multiprocess, post_allocated.
    destruct (post_run Process mixed_func sched _) as [s|] eqn:Hrun; [|done].
    destruct (returns Process s) eqn:Hret; [|done]. exfalso.
    apply returns_loop_done in Hret.
    destruct (queue_fed_run_inv mixed_func Process [0%nat; 5%nat] 1 sched s)
      as [Hinv _]; [done|done|].
    destruct (loop_done_complete mixed_func Process _ _ s Hinv Hret)
      as (_ & Hperm & Hone & _).
    assert (0%nat ∈ (invocations s).*2) as Hin by (rewrite Hperm; set_solver).
    apply list_elem_of_fmap in Hin as ([w x] & Hx & Hc). simpl in Hx. subst x.
    rewrite Forall_forall in Hone. specialize (Hone _ Hc). done.
  - reflexivity.
Qed.

(** C9.  Whenever the thread variant returns, the caller has popped
    exactly [len(items)] values, every item has been passed to [func]
    once, and an invocation has left an entry in the returned list only if
    it returned a value other than [None]: an invocation that raised and
    one that returned [None] both leave nothing, and the returned list
    contains no [None]. *)
Theorem thread_none_results_are_omitted {T R : Type}
    (func : nat -> T -> outcome (option R)) (items : list T) (num_workers : nat)
    (sched : list event) (results : list (option R)) :
  post_allocated_multithread func (Some <$> items) num_workers sched = Some results ->
  QueueFedProps.collects sched = length items
  /\ (exists calls,
        calls.*2 ≡ₚ items
        /\ results = flat_map (kept_of Thread func) calls)
  /\ (forall c, kept_of Thread func c =
                match func c.1 c.2 with
                | Returned (Some r) => [Some r]
                | Returned None | Raised => []
                end)
  /\ None ∉ results.
Proof.
  unfold post_allocated_multithread, post_allocated.
  destruct (post_run Thread func sched _) as [s|] eqn:Hrun; [|done].
  destruct (returns Thread s) eqn:Hret; [|done]. intros [= <-].
  apply returns_loop_done in Hret.
  assert (forall c, kept_of Thread func c =
                    match func c.1 c.2 with
                    | Returned (Some r) => [Some r]
                    | Returned None | Raised => []
                    end) as Hkept.
  { intros c. unfold kept_of. by destruct (func c.1 c.2) as [[r|]|]. }
  assert ((invocations s).*2 ≡ₚ items
          /\ all_results s = flat_map (kept_of Thread func) (invocations s))
    as (Hperm & Hres).
  { destruct items as [|x items].
    - by destruct (thread_empty_run func num_workers sched s Hrun) as [_ ->].
    - destruct (queue_fed_run_inv func Thread (x :: items) num_workers sched s)
        as [Hinv _]; [done|done|].
      by destruct (loop_done_complete func Thread _ _ s Hinv Hret)
        as (_ & ? & _ & ?). }
  split_and!; [|by exists (invocations s)|done|].
  - pose proof (run_collects func Thread _ _ _ Hrun) as Hc.
    unfold loop_done in Hret. rewrite Hret in Hc. simpl in Hc.
    rewrite Hc. unfold post_init. destruct items; simpl; [done|].
    by rewrite length_fmap.
  - rewrite Hres. intros (c & _ & Hin)%list_elem_of_In%in_flat_map.
    rewrite Hkept in Hin. destruct (func c.1 c.2) as [[r|]|]; simpl in Hin;
      intuition discriminate.
Qed.

Lemma thread_none_results_are_omitted_witness :
  let sched := [Fill; Fill; Fill; Fill; Get 0; Call 0; Get 0; Call 0; Get 0; Call 0;
                Get 0; Collect; Collect; Collect] in
  QueueFedProps.collects sched = length [0%nat; 1%nat; 3%nat]
  /\ (exists calls,
        calls.*2 ≡ₚ [0%nat; 1%nat; 3%nat]
        /\ [Some 6%nat] = flat_map (kept_of Thread mixed_func) calls)
  /\ (forall c, kept_of Thread mixed_func c =
                match mixed_func c.1 c.2 with
                | Returned (Some r) => [Some r]
                | Returned None | Raised => []
                end)
  /\ None ∉ [Some 6%nat].
Proof.
  apply (thread_none_results_are_omitted mixed_func [0%nat; 1%nat; 3%nat] 1).
  reflexivity.
Defined.

End QueueFedProps.

(** ** Dynamic scheduler and the highest-turn reduction *)

Module DynamicProps.
Import Parallel ListFacts.

(** *** The reduction *)

Lemma item_results_snoc results r :
  item_results (results ++ [r]) = keep_highest (item_results results) r.
Proof. unfold item_results. by rewrite foldl_app. Qed.

(** For every item, the reduction holds a result of that item of maximal
    turn, and holds nothing for an item without results. *)
Lemma item_results_highest results id :
  match item_results results !! id with
  | Some kept =>
      kept ∈ results /\ dr_item_id kept = id
      /\ forall r, r ∈ results -> dr_item_id r = id -> dr_turn r <= dr_turn kept
  | None => forall r, r ∈ results -> dr_item_id r <> id
  end.
Proof.
  induction results as [|x results IH] using rev_ind.
  - unfold item_results. simpl. rewrite lookup_empty. intros r Hr.
    by apply elem_of_nil in Hr.
  - rewrite item_results_snoc. unfold keep_highest.
    destruct (decide (dr_item_id x = id)) as [Hid|Hid].
    + rewrite Hid. destruct (item_results results !! id) as [kept|] eqn:Hkept.
      * destruct IH as (Hin & Hkid & Hmax). case_decide as Hlt.
        -- rewrite lookup_insert_eq. split_and!; [set_solver|done|].
           intros r [Hr|Hr%list_elem_of_singleton]%elem_of_app Hrid; [|subst r; lia].
           specialize (Hmax r Hr Hrid). lia.
        -- rewrite Hkept. split_and!; [set_solver|done|].
           intros r [Hr|Hr%list_elem_of_singleton]%elem_of_app Hrid; [|subst r; lia].
           by apply Hmax.
      * rewrite lookup_insert_eq. split_and!; [set_solver|done|].
        intros r [Hr|Hr%list_elem_of_singleton]%elem_of_app Hrid; [|subst r; lia].
        by destruct (IH r Hr).
    + assert (keep_highest (item_results results) x !! id
              = item_results results !! id) as Hsame.
      { unfold keep_highest. repeat case_match; by rewrite ?lookup_insert_ne. }
      unfold keep_highest in Hsame. rewrite Hsame.
      destruct (item_results results !! id) as [kept|].
      * destruct IH as (Hin & Hkid & Hmax). split_and!; [set_solver|done|].
        intros r [Hr|Hr%list_elem_of_singleton]%elem_of_app Hrid; [|by subst r].
        by apply Hmax.
      * intros r [Hr|Hr%list_elem_of_singleton]%elem_of_app; [|by subst r].
        by apply IH.
Qed.

(** *** The pool: facts for every [func] *)

Section Pool.
Variable func : nat -> task -> outcome fn_result.
Implicit Types (s : dstate_pool) (sched : list devent).

(** The four ways a pool state changes. *)
Lemma dyn_step_cases e s s' :
  dyn_step func e s = Some s' ->
  (exists w x rest,
      e = DGet w /\ d_workers s !! w = Some DWaiting /\ task_queue s = x :: rest
      /\ s' = DPool rest (d_result_queue s)
                (<[w := match x with Some t => DBusy t | None => DExited end]>
                   (d_workers s)))
  \/ (exists w t,
        e = DCall w /\ d_workers s !! w = Some (DBusy t)
        /\ s' = match func w t with
                | Returned result =>
                    DPool (task_queue s ++ fr_next_tasks result)
                      (d_result_queue s ++
                       match fr_result result with
                       | Some r => [DynResult (task_id t) (item_id t) (turn t) r]
                       | None => []
                       end)
                      (<[w := DWaiting]> (d_workers s))
                | Raised =>
                    DPool (task_queue s) (d_result_queue s)
                      (<[w := DWaiting]> (d_workers s))
                end)
  \/ (exists w,
        e = DTimeout w /\ d_workers s !! w = Some DWaiting /\ task_queue s = []
        /\ s' = DPool [] (d_result_queue s) (<[w := DPolling 0]> (d_workers s)))
  \/ (exists w k,
        e = DCheck w /\ d_workers s !! w = Some (DPolling k)
        /\ s' = DPool (task_queue s) (d_result_queue s)
                  (<[w := match task_queue s with
                          | [] => if decide (k < 2)%nat then DPolling (S k)
                                  else DExited
                          | _ :: _ => DWaiting
                          end]> (d_workers s))).
Proof.
  unfold dyn_step, set_dworker. intros Hstep.
  destruct e as [w|w|w|w]; destruct (d_workers s !! w) as [[|t|k|]|] eqn:Hw;
    try done.
  - destruct (task_queue s) as [|x rest] eqn:Hq; [done|].
    left. exists w, x, rest. destruct x; by simplify_eq/=.
  - right; left. exists w, t. split_and!; [done..|].
    destruct (func w t); by simplify_eq/=.
  - destruct (task_queue s) eqn:Hq; simplify_eq/=. right; right; left.
    by exists w.
  - right; right; right. exists w, k. split_and!; [done..|].
    destruct (task_queue s); [case_decide|]; by simplify_eq/=.
Qed.

Lemma dyn_run_app sched1 sched2 s :
  dyn_run func (sched1 ++ sched2) s = dyn_run func sched1 s ≫= dyn_run func sched2.
Proof.
  revert s. induction sched1 as [|e sched1 IH]; intros s; simpl; [done|].
  destruct (dyn_step func e s); simpl; [apply IH|done].
Qed.

(** A worker that has not left its loop can always take a step, so the
    pool is at rest exactly when every worker has exited. *)
Lemma live_worker_steps s w st :
  d_workers s !! w = Some st -> st <> DExited ->
  exists e s', dyn_step func e s = Some s'.
Proof.
  intros Hw Hlive. destruct st as [|t|k|]; [| | |done].
  - destruct (task_queue s) as [|x rest] eqn:Hq.
    + exists (DTimeout w). simpl. rewrite Hw, Hq. eauto.
    + exists (DGet w). simpl. rewrite Hw, Hq. destruct x; eauto.
  - exists (DCall w). simpl. rewrite Hw. destruct (func w t); eauto.
  - exists (DCheck w). simpl. rewrite Hw.
    destruct (task_queue s); [case_decide|]; eauto.
Qed.

Lemma exited_or_live s :
  all_exited s
  \/ exists w st, d_workers s !! w = Some st /\ st <> DExited.
Proof.
  unfold all_exited.
  induction (d_workers s) as [|st ws [IH|(w & st' & Hw & Hlive)]].
  - left. constructor.
  - destruct st as [|t|k|].
    + right. exists 0%nat, DWaiting. split; [reflexivity|discriminate].
    + right. exists 0%nat, (DBusy t). split; [reflexivity|discriminate].
    + right. exists 0%nat, (DPolling k). split; [reflexivity|discriminate].
    + left. by constructor.
  - right. exists (S w), st'. split; [exact Hw|exact Hlive].
Qed.
End Pool.

(** *** The two-turn scenario: every run is finite *)

Lemma idle_weight_flags (ws : list dstate) b :
  (sum_list (idle_weight true <$> ws) <= sum_list (idle_weight b <$> ws))%nat
  /\ (sum_list (idle_weight b <$> ws) <= sum_list (idle_weight false <$> ws))%nat
  /\ (sum_list (idle_weight false <$> ws)
      <= sum_list (idle_weight true <$> ws) + 5 * length ws)%nat.
Proof.
  induction ws as [|st ws (IH1 & IH2 & IH3)]; csimpl; [lia|].
  destruct st as [| |k|], b; simpl; lia.
Qed.

Lemma potential_drops (wl wl' n idle idle' : nat) :
  (wl' < wl)%nat -> (idle' <= idle + 5 * n)%nat ->
  (wl' * (6 * n + 1) + idle' < wl * (6 * n + 1) + idle)%nat.
Proof. nia. Qed.

Lemma potential_idles (wl wl' k idle idle' : nat) :
  wl' = wl -> (idle' < idle)%nat -> (wl' * k + idle' < wl * k + idle)%nat.
Proof. intros -> ?. lia. Qed.

Lemma sum_list_cons (n : nat) (l : list nat) : sum_list (n :: l) = (n + sum_list l)%nat.
Proof. reflexivity. Qed.

Lemma two_turn_step_potential e s s' :
  dyn_step two_turn_func e s = Some s' ->
  (two_turn_potential s' < two_turn_potential s)%nat.
Proof.
  intros Hstep. unfold two_turn_potential, work_left.
  apply dyn_step_cases in Hstep
    as [(w & x & rest & -> & Hw & Hq & ->)
       |[(w & t & -> & Hw & ->)
        |[(w & -> & Hw & Hq & ->)
         |(w & k & -> & Hw & ->)]]].
  - (* DGet *)
    cbn [task_queue d_workers]. rewrite Hq, length_insert.
    set (new := match x with Some t => DBusy t | None => DExited end).
    pose proof (sum_list_insert held_weight _ _ _ new Hw) as Hheld.
    pose proof (sum_list_insert (idle_weight false) _ _ _ new Hw) as Hidle.
    destruct (idle_weight_flags (<[w := new]> (d_workers s))
                (bool_decide (rest = []))) as (_ & Hflag & _).
    assert (queued_weight x = S (held_weight new)) as Hx.
    { unfold new. destruct x as [t|]; simpl; [|done]. by case_decide. }
    assert (idle_weight false new <= 5)%nat as Hnew
      by (unfold new; destruct x; simpl; lia).
    rewrite (bool_decide_eq_false_2 (x :: rest = [])) by done.
    rewrite fmap_cons, sum_list_cons. cbn [held_weight idle_weight] in Hheld, Hidle.
    apply potential_drops; lia.
  - (* DCall *)
    unfold two_turn_func.
    pose proof (sum_list_insert held_weight _ _ _ DWaiting Hw) as Hheld.
    destruct (idle_weight_flags (d_workers s) (bool_decide (task_queue s = [])))
      as (Hlow & _ & _).
    pose proof (sum_list_insert (idle_weight true) _ _ _ DWaiting Hw) as Hidle.
    cbn [held_weight idle_weight] in Hheld, Hidle.
    destruct (decide (turn t = 0)) as [Hturn|Hturn];
      cbn [task_queue d_workers fr_next_tasks fr_result];
      rewrite length_insert.
    + rewrite fmap_app, sum_list_app. cbn [fmap list_fmap sum_list queued_weight].
      rewrite decide_False by done.
      destruct (idle_weight_flags (<[w := DWaiting]> (d_workers s))
                  (bool_decide (task_queue s ++ [Some turn1_task] = [])))
        as (_ & Hflag & Hhigh).
      rewrite length_insert in Hhigh.
      change (id 2%nat) with 2%nat. apply potential_drops; lia.
    + rewrite app_nil_r.
      destruct (idle_weight_flags (<[w := DWaiting]> (d_workers s))
                  (bool_decide (task_queue s = [])))
        as (_ & Hflag & Hhigh).
      rewrite length_insert in Hhigh.
      apply potential_drops; lia.
  - (* DTimeout *)
    cbn [task_queue d_workers]. rewrite Hq, length_insert.
    pose proof (sum_list_insert held_weight _ _ _ (DPolling 0) Hw) as Hheld.
    pose proof (sum_list_insert (idle_weight true) _ _ _ (DPolling 0) Hw) as Hidle.
    rewrite (bool_decide_eq_true_2 (@nil (option task) = [])) by done.
    cbn [held_weight idle_weight] in Hheld, Hidle.
    apply potential_idles; lia.
  - (* DCheck *)
    cbn [task_queue d_workers]. rewrite length_insert.
    set (new := match task_queue s with
                | [] => if decide (k < 2)%nat then DPolling (S k) else DExited
                | _ :: _ => DWaiting
                end).
    pose proof (sum_list_insert held_weight _ _ _ new Hw) as Hheld.
    pose proof (sum_list_insert
                  (idle_weight (bool_decide (task_queue s = []))) _ _ _ new Hw)
      as Hidle.
    assert (held_weight new = 0)%nat as Hnew0.
    { unfold new. destruct (task_queue s); [case_decide|]; done. }
    assert (idle_weight (bool_decide (task_queue s = [])) new
            < idle_weight (bool_decide (task_queue s = [])) (DPolling k))%nat
      as Hnew.
    { unfold new. destruct (task_queue s); simpl; [case_decide; simpl|]; lia. }
    cbn [held_weight] in Hheld.
    apply potential_idles; lia.
Qed.

Lemma two_turn_run_potential sched s s' :
  dyn_run two_turn_func sched s = Some s' ->
  (length sched + two_turn_potential s' <= two_turn_potential s)%nat.
Proof.
  revert s. induction sched as [|e sched IH]; intros s; simpl.
  - intros [= ->]. lia.
  - destruct (dyn_step two_turn_func e s) as [s1|] eqn:Hstep; [|done].
    intros Hrun%IH. apply two_turn_step_potential in Hstep. lia.
Qed.

(** Every run of the scenario can be continued until all workers have
    exited. *)
Lemma two_turn_run_completes s :
  exists sched s', dyn_run two_turn_func sched s = Some s' /\ all_exited s'.
Proof.
  remember (two_turn_potential s) as p eqn:Hp. revert s Hp.
  induction p as [p IH] using lt_wf_ind. intros s ->.
  destruct (exited_or_live s) as [Hdone|(w & st & Hw & Hlive)].
  - by exists [], s.
  - destruct (live_worker_steps two_turn_func s w st Hw Hlive) as (e & s1 & Hstep).
    destruct (IH _ (two_turn_step_potential _ _ _ Hstep) s1 eq_refl)
      as (sched & s' & Hrun & Hexit).
    exists (e :: sched), s'. simpl. by rewrite Hstep.
Qed.

(** *** The two-turn scenario: what a run can look like *)

Definition idle (st : dstate) : Prop := forall t, st <> DBusy t.

Definition no_busy (ws : list dstate) : Prop :=
  forall w st, ws !! w = Some st -> idle st.

Definition only_busy (ws : list dstate) (w : nat) (t : task) : Prop :=
  ws !! w = Some (DBusy t)
  /\ forall w' st, ws !! w' = Some st -> w' <> w -> idle st.

(** The five stages of the scenario. *)
Inductive stage (s : dstate_pool) : Prop :=
  | Queued0 :
      task_queue s = [Some turn0_task] -> d_result_queue s = [] ->
      Forall (fun st => st = DWaiting) (d_workers s) -> d_workers s <> [] ->
      stage s
  | Running0 w :
      task_queue s = [] -> d_result_queue s = [] ->
      only_busy (d_workers s) w turn0_task -> stage s
  | Queued1 w :
      task_queue s = [Some turn1_task] -> d_result_queue s = [partial_result] ->
      d_workers s !! w = Some DWaiting -> no_busy (d_workers s) -> stage s
  | Running1 w :
      task_queue s = [] -> d_result_queue s = [partial_result] ->
      only_busy (d_workers s) w turn1_task -> stage s
  | Finished :
      task_queue s = [] -> d_result_queue s = [partial_result; final_result] ->
      no_busy (d_workers s) -> stage s.

Lemma no_busy_insert ws w new : no_busy ws -> idle new -> no_busy (<[w := new]> ws).
Proof.
  intros Hws Hnew w' st Hw'.
  destruct (decide (w' = w)) as [->|Hne].
  - destruct (decide (w < length ws)%nat).
    + rewrite list_lookup_insert_eq in Hw' by done. by injection Hw' as <-.
    + rewrite list_insert_ge in Hw' by lia. by eapply Hws.
  - rewrite list_lookup_insert_ne in Hw' by done. by eapply Hws.
Qed.

Lemma only_busy_start ws w t :
  no_busy ws -> (w < length ws)%nat -> only_busy (<[w := DBusy t]> ws) w t.
Proof.
  intros Hws Hw. split.
  - by rewrite list_lookup_insert_eq.
  - intros w' st Hw' Hne. rewrite list_lookup_insert_ne in Hw' by done.
    by eapply Hws.
Qed.

Lemma only_busy_end ws w t new :
  only_busy ws w t -> idle new -> no_busy (<[w := new]> ws).
Proof.
  intros [Hw Hothers] Hnew w' st Hw'.
  destruct (decide (w' = w)) as [->|Hne].
  - rewrite list_lookup_insert_eq in Hw' by (by eapply lookup_lt_Some).
    by injection Hw' as <-.
  - rewrite list_lookup_insert_ne in Hw' by done. by eapply Hothers.
Qed.

Lemma only_busy_other ws w t w' st new :
  only_busy ws w t -> ws !! w' = Some st -> idle st -> idle new ->
  only_busy (<[w' := new]> ws) w t.
Proof.
  intros [Hw Hothers] Hw' Hst Hnew.
  assert (w' <> w) as Hne.
  { intros ->. rewrite Hw in Hw'. injection Hw' as <-. by apply (Hst t). }
  split.
  - by rewrite list_lookup_insert_ne.
  - intros w'' st'' Hw'' Hne'. destruct (decide (w'' = w')) as [->|Hne''].
    + rewrite list_lookup_insert_eq in Hw'' by (by eapply lookup_lt_Some).
      by injection Hw'' as <-.
    + rewrite list_lookup_insert_ne in Hw'' by done. by eapply Hothers.
Qed.

Lemma only_busy_unique ws w t w' t' :
  only_busy ws w t -> ws !! w' = Some (DBusy t') -> w' = w /\ t' = t.
Proof.
  intros [Hw Hothers] Hw'. destruct (decide (w' = w)) as [->|Hne].
  - rewrite Hw in Hw'. by injection Hw' as <-.
  - by destruct (Hothers w' _ Hw' Hne t').
Qed.

Lemma all_waiting_no_busy ws :
  Forall (fun st => st = DWaiting) ws -> no_busy ws.
Proof.
  intros Hall w st Hw t ->. rewrite Forall_lookup in Hall.
  by specialize (Hall w _ Hw).
Qed.

Lemma two_turn_step_stage e s s' :
  dyn_step two_turn_func e s = Some s' -> stage s -> stage s'.
Proof.
  intros Hstep Hstage.
  apply dyn_step_cases in Hstep
    as [(w & x & rest & -> & Hw & Hq & ->)
       |[(w & t & -> & Hw & ->)
        |[(w & -> & Hw & Hq & ->)
         |(w & k & -> & Hw & ->)]]].
  - (* DGet *)
    pose proof (lookup_lt_Some _ _ _ Hw) as Hlt.
    destruct Hstage as [Htq Hrq Hws Hne|w0 Htq Hrq Hws|w0 Htq Hrq Hw0 Hws
                       |w0 Htq Hrq Hws|Htq Hrq Hws];
      rewrite Htq in Hq; simplify_eq.
    + apply (Running0 _ w); [done..|].
      by apply only_busy_start; [apply all_waiting_no_busy|].
    + apply (Running1 _ w); [done..|]. by apply only_busy_start.
  - (* DCall *)
    destruct Hstage as [Htq Hrq Hws Hne|w0 Htq Hrq Hws|w0 Htq Hrq Hw0 Hws
                       |w0 Htq Hrq Hws|Htq Hrq Hws].
    + rewrite Forall_lookup in Hws. by specialize (Hws w _ Hw).
    + destruct (only_busy_unique _ _ _ _ _ Hws Hw) as [-> ->].
      unfold two_turn_func. rewrite decide_True by done. rewrite Htq, Hrq.
      apply (Queued1 _ w0); simpl; [done|done| |].
      * rewrite list_lookup_insert_eq; [done|by eapply lookup_lt_Some].
      * by eapply only_busy_end.
    + by destruct (Hws w _ Hw t).
    + destruct (only_busy_unique _ _ _ _ _ Hws Hw) as [-> ->].
      unfold two_turn_func. rewrite decide_False by done. rewrite Htq, Hrq.
      apply Finished; simpl; [done|done|]. by eapply only_busy_end.
    + by destruct (Hws w _ Hw t).
  - (* DTimeout *)
    destruct Hstage as [Htq Hrq Hws Hne|w0 Htq Hrq Hws|w0 Htq Hrq Hw0 Hws
                       |w0 Htq Hrq Hws|Htq Hrq Hws];
      rewrite Htq in Hq; simplify_eq.
    + apply (Running0 _ w0); [done..|]. by eapply only_busy_other.
    + apply (Running1 _ w0); [done..|]. by eapply only_busy_other.
    + apply Finished; [done..|]. by apply no_busy_insert.
  - (* DCheck *)
    set (new := match task_queue s with
                | [] => if decide (k < 2)%nat then DPolling (S k) else DExited
                | _ :: _ => DWaiting
                end).
    assert (idle new) as Hnew.
    { unfold new. destruct (task_queue s); [case_decide|]; done. }
    destruct Hstage as [Htq Hrq Hws Hne|w0 Htq Hrq Hws|w0 Htq Hrq Hw0 Hws
                       |w0 Htq Hrq Hws|Htq Hrq Hws].
    + rewrite Forall_lookup in Hws. by specialize (Hws w _ Hw).
    + apply (Running0 _ w0); [done..|]. by eapply only_busy_other.
    + apply (Queued1 _ w0); simpl; [done|done| |by apply no_busy_insert].
      rewrite list_lookup_insert_ne; [done|]. intros ->. congruence.
    + apply (Running1 _ w0); [done..|]. by eapply only_busy_other.
    + apply Finished; [done..|]. by apply no_busy_insert.
Qed.

Lemma two_turn_run_stage sched s s' :
  dyn_run two_turn_func sched s = Some s' -> stage s -> stage s'.
Proof.
  revert s. induction sched as [|e sched IH]; intros s; simpl.
  - by intros [= ->].
  - destruct (dyn_step two_turn_func e s) as [s1|] eqn:Hstep; [|done].
    intros Hrun Hstage. eapply IH; [done|]. by eapply two_turn_step_stage.
Qed.

(** Once every worker has exited, both results are on the queue. *)
Lemma stage_all_exited s :
  stage s -> all_exited s ->
  d_result_queue s = [partial_result; final_result].
Proof.
  unfold all_exited. rewrite Forall_lookup.
  intros [Htq Hrq Hws Hne|w0 Htq Hrq [Hw _]|w0 Htq Hrq Hw0 Hws
         |w0 Htq Hrq [Hw _]|Htq Hrq Hws] Hexit.
  - destruct (d_workers s) as [|st ws] eqn:E; [done|].
    apply Forall_cons in Hws as [-> _]. by specialize (Hexit 0%nat _ eq_refl).
  - by specialize (Hexit _ _ Hw).
  - by specialize (Hexit _ _ Hw0).
  - by specialize (Hexit _ _ Hw).
  - done.
Qed.

Lemma joined_all_exited s : forallb has_exited (d_workers s) = true <-> all_exited s.
Proof.
  unfold all_exited. rewrite forallb_forall, Forall_forall. split.
  - intros Hall st Hin%list_elem_of_In. specialize (Hall st Hin). by destruct st.
  - intros Hall st Hin%list_elem_of_In. by rewrite (Hall st Hin).
Qed.

(** C4.  The caller-side reduction keeps, for every item, a result of the
    highest turn among that item's results (and nothing for an item with
    no result).  In the two-turn scenario, with at least one worker, every
    run of the scheduler is finite and can be continued until the
    scheduler returns; what it returns is the turn-0 result ["partial"]
    followed by the turn-1 result ["final"], and the reduced output for
    item ["x"] is the ["final"] one. *)
Theorem highest_turn_wins (results : list dyn_result) (id : string)
    (num_workers : nat) (sched : list devent) (s : dstate_pool) :
  (1 <= num_workers)%nat ->
  dyn_run two_turn_func sched (dyn_init [Some turn0_task] num_workers) = Some s ->
  match item_results results !! id with
  | Some kept =>
      kept ∈ results /\ dr_item_id kept = id
      /\ forall r, r ∈ results -> dr_item_id r = id -> dr_turn r <= dr_turn kept
  | None => forall r, r ∈ results -> dr_item_id r <> id
  end
  /\ (length sched <= 29 * num_workers + 4)%nat
  /\ (exists sched' returned,
        dynamic_task_pool_multiprocess two_turn_func [Some turn0_task]
          num_workers (sched ++ sched') = Some returned)
  /\ (forall returned,
        dynamic_task_pool_multiprocess two_turn_func [Some turn0_task]
          num_workers sched = Some returned ->
        returned = [partial_result; final_result]
        /\ item_results returned !! "x" = Some final_result
        /\ dr_result final_result = Some "final").
Proof.
  intros Hn Hrun. split_and!.
  - apply item_results_highest.
  - pose proof (two_turn_run_potential _ _ _ Hrun) as Hpot.
    assert (two_turn_potential (dyn_init [Some turn0_task] num_workers)
            = 29 * num_workers + 4)%nat as Hinit.
    { unfold two_turn_potential, work_left. simpl.
      rewrite length_replicate.
      assert (forall n, sum_list (held_weight <$> replicate n DWaiting) = 0%nat)
        as -> by (induction n; csimpl; done).
      assert (forall n, sum_list (idle_weight false <$> replicate n DWaiting)
                        = 5 * n)%nat as ->.
      { induction n as [|n IH]; csimpl; [done|]. rewrite IH. lia. }
      lia. }
    lia.
  - destruct (two_turn_run_completes s) as (sched' & s' & Hrun' & Hexit).
    exists sched', (d_result_queue s'). unfold dynamic_task_pool_multiprocess.
    rewrite dyn_run_app, Hrun. simpl. rewrite Hrun'.
    apply joined_all_exited in Hexit. by rewrite Hexit.
  - intros returned. unfold dynamic_task_pool_multiprocess. rewrite Hrun.
    destruct (forallb has_exited (d_workers s)) eqn:Hexit; [|done].
    intros [= <-]. apply joined_all_exited in Hexit.
    assert (stage s) as Hstage.
    { eapply two_turn_run_stage; [done|]. apply Queued0; simpl; [done|done|..].
      - apply Forall_replicate. done.
      - destruct num_workers; [lia|done]. }
    rewrite (stage_all_exited s Hstage Hexit). split_and!; [done| |done].
    vm_compute. reflexivity.
Qed.

Lemma highest_turn_wins_witness :
  let sched := [DGet 0; DCall 0; DGet 0; DCall 0; DTimeout 0;
                DCheck 0; DCheck 0; DCheck 0] in
  match item_results [final_result; partial_result] !! "x" with
  | Some kept =>
      kept ∈ [final_result; partial_result] /\ dr_item_id kept = "x"
      /\ forall r, r ∈ [final_result; partial_result] -> dr_item_id r = "x" ->
                   dr_turn r <= dr_turn kept
  | None => forall r, r ∈ [final_result; partial_result] -> dr_item_id r <> "x"
  end
  /\ (length sched <= 29 * 1 + 4)%nat
  /\ (exists sched' returned,
        dynamic_task_pool_multiprocess two_turn_func [Some turn0_task]
          1 (sched ++ sched') = Some returned)
  /\ (forall returned,
        dynamic_task_pool_multiprocess two_turn_func [Some turn0_task]
          1 sched = Some returned ->
        returned = [partial_result; final_result]
        /\ item_results returned !! "x" = Some final_result
        /\ dr_result final_result = Some "final").
Proof.
  apply (highest_turn_wins [final_result; partial_result] "x" 1
           [DGet 0; DCall 0; DGet 0; DCall 0; DTimeout 0;
            DCheck 0; DCheck 0; DCheck 0]
           (DPool [] [partial_result; final_result] [DExited])).
  - lia.
  - reflexivity.
Defined.

End DynamicProps.

(* ===================================================================== *)
(** * Further properties                                                   *)
(* ===================================================================== *)

(** ** Volume packer: nothing is lost, and volumes are sealed greedily *)

Module PackerMore.
Import Packer PackerProps.

Lemma insert_desc_perm x l : insert_desc x l ≡ₚ x :: l.
Proof.
  induction l as [|y l IH]; simpl; [done|].
  destruct (size y <=? size x); [done|]. rewrite IH. apply Permutation_swap.
Qed.

Lemma sorted_desc_perm l : sorted_desc l ≡ₚ l.
Proof.
  unfold sorted_desc. induction l as [|x l IH]; simpl; [done|].
  by rewrite insert_desc_perm, IH.
Qed.

(** Descending by size. *)
Definition descending (l : list file_info) : Prop :=
  forall i j x y, (i < j)%nat -> l !! i = Some x -> l !! j = Some y -> size y <= size x.

Lemma descending_cons x l :
  descending (x :: l) <-> Forall (fun y => size y <= size x) l /\ descending l.
Proof.
  split.
  - intros Hd. split.
    + apply Forall_lookup. intros j y Hy. by apply (Hd 0%nat (S j) x y); [lia|..].
    + intros i j a b Hij Ha Hb. by apply (Hd (S i) (S j) a b); [lia|..].
  - intros [Hall Hd] [|i] [|j] a b Hij Ha Hb; simplify_eq/=; try lia.
    + rewrite Forall_lookup in Hall. by eapply Hall.
    + apply (Hd i j a b); [lia|done..].
Qed.

Lemma insert_desc_descending x l : descending l -> descending (insert_desc x l).
Proof.
  induction l as [|y l IH]; intros Hd; simpl.
  - apply descending_cons. split; [constructor|]. intros i j a b _ Ha. done.
  - destruct (Z.leb_spec (size y) (size x)) as [Hle|Hgt].
    + apply descending_cons. split; [|done].
      apply descending_cons in Hd as [Hall _]. constructor; [done|].
      eapply Forall_impl; [done|]. simpl. lia.
    + apply descending_cons in Hd as [Hall Hd].
      apply descending_cons. split; [|by apply IH].
      rewrite insert_desc_perm. constructor; [lia|done].
Qed.

Lemma sorted_desc_descending l : descending (sorted_desc l).
Proof.
  unfold sorted_desc. induction l as [|x l IH]; simpl.
  - intros i j a b _ Ha. done.
  - by apply insert_desc_descending.
Qed.

(** The loop keeps the entries it has seen, in order, spread over the
    closed volumes and the running one. *)
Lemma alloc_step_files jd b cap st f :
  let st' := alloc_step jd b cap st f in
  concat (files <$> st'.1) ++ files st'.2
  = (concat (files <$> st.1) ++ files st.2) ++ [f].
Proof.
  destruct st as [vols cur]. unfold alloc_step.
  destruct ((cap <? vsize cur + size f) && nonempty (files cur)); simpl.
  - rewrite fmap_app, concat_app. simpl. by rewrite app_nil_r.
  - by rewrite app_assoc.
Qed.

Lemma alloc_loop_files jd b cap st fs :
  let st' := alloc_loop jd b cap st fs in
  concat (files <$> st'.1) ++ files st'.2
  = (concat (files <$> st.1) ++ files st.2) ++ fs.
Proof.
  unfold alloc_loop. revert st. induction fs as [|f fs IH]; intros st; simpl.
  - by rewrite app_nil_r.
  - rewrite IH, alloc_step_files. by rewrite <- app_assoc.
Qed.

Lemma alloc_finish_files st :
  concat (files <$> alloc_finish st) = concat (files <$> st.1) ++ files st.2.
Proof.
  destruct st as [vols cur]. simpl. destruct (files cur) eqn:E; simpl.
  - by rewrite app_nil_r.
  - rewrite fmap_app, concat_app. simpl. by rewrite E, app_nil_r.
Qed.

(** X1.  The volumes, read in order, hold exactly the input entries sorted
    by descending size: every entry is in exactly one volume, none is
    dropped or duplicated, and an empty input gives no volume. *)
Theorem packer_no_loss unique_file_paths jsonl_data config_content max_zip_size :
  let volumes :=
    allocate_files_to_volumes unique_file_paths jsonl_data config_content
      max_zip_size in
  concat (files <$> volumes) = sorted_desc unique_file_paths
  /\ concat (files <$> volumes) ≡ₚ unique_file_paths
  /\ descending (concat (files <$> volumes))
  /\ (unique_file_paths = [] -> volumes = []).
Proof.
  intros volumes.
  assert (concat (files <$> volumes) = sorted_desc unique_file_paths) as Heq.
  { unfold volumes, allocate_files_to_volumes.
    rewrite alloc_finish_files. by rewrite alloc_loop_files. }
  split_and!; [done|by rewrite Heq, sorted_desc_perm| |].
  - rewrite Heq. apply sorted_desc_descending.
  - intros ->. reflexivity.
Qed.

(** A volume follows another only because its first entry did not fit. *)
Definition sealed_greedily (cap : Z) (l : list volume) : Prop :=
  forall i v v', l !! i = Some v -> l !! S i = Some v' ->
    exists g rest, files v' = g :: rest /\ cap < vsize v + size g.

Lemma sealed_greedily_seal cap l v v' g :
  sealed_greedily cap (l ++ [v]) -> files v' = [g] -> cap < vsize v + size g ->
  sealed_greedily cap ((l ++ [v]) ++ [v']).
Proof.
  intros Hl Hv' Hover i a a' Ha Ha'.
  destruct (decide (S i < length (l ++ [v]))%nat) as [Hlt|Hge].
  - rewrite lookup_app_l in Ha, Ha' by lia. by eapply Hl.
  - rewrite length_app in Hge. simpl in Hge.
    assert (i = length l) as ->.
    { apply lookup_lt_Some in Ha'. rewrite !length_app in Ha'. simpl in Ha'. lia. }
    rewrite lookup_app_l in Ha by (rewrite length_app; simpl; lia).
    rewrite lookup_app_r, Nat.sub_diag in Ha by lia. injection Ha as <-.
    rewrite lookup_app_r in Ha' by (rewrite length_app; simpl; lia).
    rewrite length_app in Ha'. simpl in Ha'.
    replace (S (length l) - (length l + 1))%nat with 0%nat in Ha' by lia.
    injection Ha' as <-. eauto.
Qed.

Lemma sealed_greedily_absorb cap l v f :
  sealed_greedily cap (l ++ [v]) ->
  sealed_greedily cap
    (l ++ [Volume (files v ++ [f]) (jsonl v) (config v) (vsize v + size f)]).
Proof.
  intros Hl i a a' Ha Ha'.
  assert (S i < length l + 1)%nat as Hlt.
  { apply lookup_lt_Some in Ha'. rewrite length_app in Ha'. simpl in Ha'. lia. }
  rewrite lookup_app_l in Ha by lia.
  destruct (decide (S i < length l)%nat) as [Hin|Hlast].
  - rewrite lookup_app_l in Ha' by done.
    apply (Hl i); by rewrite lookup_app_l by lia.
  - assert (S i = length l) as Hi by lia.
    rewrite lookup_app_r, Hi, Nat.sub_diag in Ha' by lia. injection Ha' as <-.
    destruct (Hl i a v) as (g & rest & Hfiles & Hover).
    + by rewrite lookup_app_l by lia.
    + by rewrite lookup_app_r, Hi, Nat.sub_diag by lia.
    + simpl. rewrite Hfiles. eauto.
Qed.

Lemma sealed_greedily_prefix cap l v :
  sealed_greedily cap (l ++ [v]) -> sealed_greedily cap l.
Proof.
  intros Hl i a a' Ha Ha'. apply (Hl i).
  - apply lookup_app_l_Some, Ha.
  - apply lookup_app_l_Some, Ha'.
Qed.

(** X2.  Volumes are sealed greedily: whenever one volume follows another,
    the first entry of the later volume would have pushed the earlier one
    over the cap. *)
Theorem packer_greedy_seal unique_file_paths jsonl_data config_content max_zip_size :
  sealed_greedily max_zip_size
    (allocate_files_to_volumes unique_file_paths jsonl_data config_content
       max_zip_size).
Proof.
  unfold allocate_files_to_volumes.
  set (b := base_overhead jsonl_data config_content).
  assert (forall st, sealed_greedily max_zip_size (st.1 ++ [st.2]) ->
                     sealed_greedily max_zip_size (alloc_finish st)) as Hfinish.
  { intros [vols cur] Hst. simpl in *.
    destruct (nonempty (files cur)); [done|by eapply sealed_greedily_prefix]. }
  apply Hfinish.
  apply (alloc_loop_invariant
           (fun st => sealed_greedily max_zip_size (st.1 ++ [st.2]))).
  - intros [|i] v v' Hv Hv'; simplify_eq/=.
  - intros [vols cur] f Hst. simpl in Hst. unfold alloc_step.
    destruct ((max_zip_size <? vsize cur + size f) && nonempty (files cur))
      eqn:Hseal; simpl.
    + apply andb_prop in Hseal as [Hover%Z.ltb_lt _].
      by eapply sealed_greedily_seal.
    + by apply sealed_greedily_absorb.
Qed.

End PackerMore.

(** ** Splitting and the Static-Partition Executor: shares and totals *)

Module StaticMore.
Import Parallel StaticProps.

(** The element-wise transform [[g(x) for x in data]] as a pool function. *)
Definition map_func {T R : Type} (g : T -> R) (data : list T) (pid : nat)
    : outcome (pyresult R) :=
  Returned (Seq (g <$> data)).

Section Shares.
Context {T : Type}.
Implicit Types (data : list T) (dist : list (list T)).

Lemma split_snoc data x n dist l :
  (0 < n)%nat ->
  split_data_for_workers data n = Some dist ->
  dist !! (length data `mod` n)%nat = Some l ->
  split_data_for_workers (data ++ [x]) n
  = Some (<[(length data `mod` n)%nat := l ++ [x]]> dist).
Proof.
  intros Hn Hsplit Hl. unfold split_data_for_workers in *.
  rewrite split_loop_app, Hsplit. simpl.
  destruct (decide (n = 0)%nat); [lia|]. by rewrite Hl.
Qed.

Lemma concat_insert_snoc dist i l x :
  dist !! i = Some l -> concat (<[i := l ++ [x]]> dist) ≡ₚ x :: concat dist.
Proof.
  revert i. induction dist as [|l0 dist IH]; intros [|i] Hi; simplify_eq/=.
  - rewrite <- app_assoc. simpl. by rewrite <- Permutation_middle.
  - rewrite (IH i Hi). by rewrite <- Permutation_middle.
Qed.

Lemma split_perm data n dist :
  (0 < n)%nat -> split_data_for_workers data n = Some dist -> concat dist ≡ₚ data.
Proof.
  intros Hn. revert dist. induction data as [|x data IH] using rev_ind; intros dist.
  - intros [= <-]. clear. induction n as [|n IH]; simpl; done.
  - destruct (split_round_robin data n Hn) as (dist0 & Hsplit0 & Hlen & Hrr).
    destruct (lookup_lt_is_Some_2 dist0 (length data `mod` n)%nat) as [l Hl].
    { rewrite Hlen. apply Nat.mod_upper_bound. lia. }
    rewrite (split_snoc _ _ _ _ _ Hn Hsplit0 Hl). intros [= <-].
    rewrite concat_insert_snoc by done. rewrite (IH _ Hsplit0).
    by rewrite <- Permutation_cons_append.
Qed.

(** The share of worker [w]: one more item for the first
    [len mod n] workers. *)
Lemma round_robin_share n data dist w l :
  (0 < n)%nat -> round_robin n data dist -> dist !! w = Some l ->
  length l = ((length data `div` n)
              + if decide (w < length data `mod` n)%nat then 1 else 0)%nat.
Proof.
  intros Hn [Hlen Hrr] Hl.
  assert (w < n)%nat as Hw by (apply lookup_lt_Some in Hl; lia).
  pose proof (Nat.div_mod_eq (length data) n) as Hdm.
  pose proof (Nat.mod_upper_bound (length data) n ltac:(lia)) as Hmod.
  set (q := (length data `div` n)%nat) in *.
  set (r := (length data `mod` n)%nat) in *.
  assert (forall k, (k < length l <-> k * n + w < length data)%nat) as Hk.
  { intros k. rewrite <- !lookup_lt_is_Some. by rewrite (Hrr _ _ Hl). }
  case_decide as Hwr.
  - apply Nat.le_antisymm.
    + destruct (decide (length l <= q + 1)%nat); [done|].
      assert (q + 1 < length l)%nat as Hlt%Hk by lia. nia.
    + assert (q < length l)%nat; [|lia]. apply Hk. nia.
  - apply Nat.le_antisymm.
    + destruct (decide (length l <= q + 0)%nat); [done|].
      assert (q < length l)%nat as Hlt%Hk by lia. nia.
    + destruct q as [|q']; [lia|].
      assert (q' < length l)%nat; [|lia]. apply Hk. nia.
Qed.
End Shares.

(** X3.  With at least one worker the split loses and invents nothing
    (the sub-lists together are a rearrangement of the input) and is
    balanced: the first [len mod workers] workers get
    [len div workers + 1] items and the others [len div workers]. *)
Theorem split_is_balanced_partition {T : Type} (data_list : list T)
    (num_workers : nat) :
  (0 < num_workers)%nat ->
  exists distributed_data,
    split_data_for_workers data_list num_workers = Some distributed_data
    /\ length distributed_data = num_workers
    /\ concat distributed_data ≡ₚ data_list
    /\ forall w l, distributed_data !! w = Some l ->
         length l = ((length data_list `div` num_workers)
                     + if decide (w < length data_list `mod` num_workers)%nat
                       then 1 else 0)%nat.
Proof.
  intros Hn.
  destruct (split_round_robin data_list num_workers Hn) as (dist & Hsplit & Hrr).
  exists dist. split_and!; [done|by destruct Hrr|by eapply split_perm|].
  intros w l Hl. by eapply round_robin_share.
Qed.

Lemma split_is_balanced_partition_witness :
  exists distributed_data,
    split_data_for_workers [1; 2; 3; 4; 5] 3 = Some distributed_data
    /\ length distributed_data = 3%nat
    /\ concat distributed_data ≡ₚ [1; 2; 3; 4; 5]
    /\ forall w l, distributed_data !! w = Some l ->
         length l = ((length [1; 2; 3; 4; 5] `div` 3)
                     + if decide (w < length [1; 2; 3; 4; 5] `mod` 3)%nat
                       then 1 else 0)%nat.
Proof. apply (split_is_balanced_partition [1; 2; 3; 4; 5] 3). lia. Defined.

(** X4.  With zero workers the split raises as soon as there is an item to
    place, so the Static-Partition Executor returns only for an empty
    input, and then returns the empty list without starting a process. *)
Theorem static_partition_zero_workers {T R : Type}
    (func : list T -> nat -> outcome (pyresult R)) (all_data : list T)
    (order : list nat) (results : list R) :
  split_data_for_workers all_data 0
  = match all_data with [] => Some [] | _ :: _ => None end
  /\ (pre_allocated_multiprocess func all_data 0 order = Some results <->
      all_data = [] /\ order = [] /\ results = []).
Proof.
  split; [by destruct all_data|].
  unfold pre_allocated_multiprocess. destruct all_data as [|x all_data]; simpl.
  - destruct order as [|pid order]; simpl.
    + split; [by intros [= <-]|by intros (_ & _ & ->)].
    + unfold process_worker. simpl. split; [done|by intros (_ & ? & _)].
  - split; [done|by intros (? & _)].
Qed.

Lemma flat_map_lookup_seq {A} (dist : list (list A)) :
  flat_map (fun i => default [] (dist !! i)) (seq 0 (length dist)) = concat dist.
Proof.
  induction dist as [|l dist IH] using rev_ind; [done|].
  rewrite length_app, seq_app, flat_map_app, concat_app. simpl.
  rewrite lookup_app_r, Nat.sub_diag by lia. simpl. rewrite !app_nil_r.
  f_equal. rewrite <- IH. apply flat_map_ext_elem.
  intros i Hi%elem_of_seq. by rewrite lookup_app_l by lia.
Qed.

(** X5.  For an element-wise transform and at least one worker, every run
    of the Static-Partition Executor returns a rearrangement of the
    transformed input: as many results as items, each item's result
    exactly once, whatever the order in which the processes end. *)
Theorem static_partition_elementwise {T R : Type} (g : T -> R)
    (all_data : list T) (num_workers : nat) (order : list nat)
    (results : list R) :
  (0 < num_workers)%nat ->
  pre_allocated_multiprocess (map_func g) all_data num_workers order
  = Some results ->
  results ≡ₚ g <$> all_data /\ length results = length all_data.
Proof.
  intros Hn Hrun.
  destruct (split_round_robin all_data num_workers Hn) as (dist & Hsplit & Hrr).
  destruct (pre_allocated_runs (map_func g) all_data num_workers dist order
              Hsplit (proj1 Hrr)) as [Hres _].
  destruct (Hres results Hrun) as [Hperm ->].
  assert (flat_map (worker_output (map_func g) dist) order ≡ₚ g <$> all_data)
    as Hall.
  { rewrite Hperm. destruct Hrr as [Hlen _]. rewrite <- Hlen.
    set (outputs := (fun l : list T => g <$> l) <$> dist).
    rewrite (flat_map_ext_elem _ (fun i => default [] (outputs !! i))).
    - replace (length dist) with (length outputs)
        by (unfold outputs; by rewrite length_fmap).
      rewrite flat_map_lookup_seq.
      rewrite <- (split_perm all_data num_workers dist Hn Hsplit).
      unfold outputs. clear. induction dist as [|l dist IH]; simpl; [done|].
      by rewrite fmap_app, IH.
    - intros pid _. unfold worker_output, map_func, outputs.
      rewrite list_lookup_fmap. by destruct (dist !! pid). }
  split; [done|]. by rewrite Hall, length_fmap.
Qed.

Lemma static_partition_elementwise_witness :
  [40; 20; 60] ≡ₚ (fun x => 2 * x) <$> [10; 20; 30]
  /\ length [40; 20; 60] = length [10; 20; 30].
Proof.
  apply (static_partition_elementwise (fun x => 2 * x) [10; 20; 30] 2 [1; 0]%nat).
  - lia.
  - reflexivity.
Defined.

End StaticMore.

(** ** Queue-Fed Executor: inputs on which the caller waits forever, and
       the order of the results with a single worker *)

Module QueueFedMore.
Import Parallel ListFacts QueueFedProps.

Lemma somes_length_le {T} (l : list (option T)) :
  (length (omap id l) <= length l)%nat.
Proof. induction l as [|[x|] l IH]; csimpl; lia. Qed.

Lemma somes_length_lt {T} (l : list (option T)) :
  None ∈ l -> (length (omap id l) < length l)%nat.
Proof.
  induction l as [|[x|] l IH]; intros Hin.
  - by apply elem_of_nil in Hin.
  - apply elem_of_cons in Hin as [?|Hin]; [done|]. csimpl. specialize (IH Hin). lia.
  - csimpl. pose proof (somes_length_le l). lia.
Qed.

Lemma somes_markers {T} n : omap id (replicate n (@None T)) = [].
Proof. induction n as [|n IH]; csimpl; done. Qed.

Section Hangs.
Context {T R : Type}.
Variable func : nat -> T -> outcome (option R).

(** When the loop is over, at least as many invocations have happened as
    there were values to collect. *)
Lemma loop_done_invocations v plan total (s : @qstate T R) :
  inv func v plan total s -> loop_done s ->
  (total <= length (omap id plan))%nat.
Proof.
  intros [(consumed & Hfifo & _ & Hitems) _ Hcount _] Hdone.
  unfold loop_done in Hdone. rewrite Hdone in Hcount. simpl in Hcount.
  destruct (flat_map_short (pushed v func) (invocations s) (pushed_le_one func v))
    as [Hshort _].
  pose proof (Permutation_length Hitems) as Hlen.
  rewrite length_app, length_fmap in Hlen.
  rewrite <- Hfifo, omap_app, length_app. lia.
Qed.

(** Without workers only the filler moves. *)
Lemma no_worker_step v e (s s' : @qstate T R) :
  workers s = [] -> result_queue s = [] ->
  post_step v func e s = Some s' ->
  workers s' = [] /\ result_queue s' = [] /\ remaining s' = remaining s.
Proof.
  intros Hw Hrq. unfold post_step. rewrite Hw, Hrq.
  destruct e as [|w|w|w|]; simpl.
  - destruct (to_put s); [done|]. by intros [= <-].
  - done.
  - done.
  - by destruct v.
  - by destruct (remaining s).
Qed.

Lemma no_worker_run v sched (s s' : @qstate T R) :
  workers s = [] -> result_queue s = [] ->
  post_run v func sched s = Some s' -> remaining s' = remaining s.
Proof.
  revert s. induction sched as [|e sched IH]; intros s Hw Hrq; simpl.
  - by intros [= <-].
  - destruct (post_step v func e s) as [s1|] eqn:Hstep; [|done].
    destruct (no_worker_step v e s s1 Hw Hrq Hstep) as (Hw1 & Hrq1 & <-).
    by apply IH.
Qed.
End Hangs.

(** X6.  An item that is [None] is taken for a termination marker: if the
    input list contains [None], then in no run of either variant does the
    wrapper return (a worker stops at the item, one result too few is
    produced, and the caller waits for it forever). *)
Theorem queue_fed_none_item_never_returns {T R : Type} (v : variant)
    (func : nat -> T -> outcome (option R)) (all_data : list (option T))
    (num_workers : nat) (sched : list event) :
  None ∈ all_data ->
  post_allocated v func all_data num_workers sched = None.
Proof.
  intros Hnone. unfold post_allocated.
  destruct (post_run v func sched _) as [s|] eqn:Hrun; [|done].
  destruct (returns v s) eqn:Hret; [|done]. exfalso.
  apply returns_loop_done in Hret.
  pose proof (init_inv func v all_data num_workers) as Hinit. cbv zeta in Hinit.
  pose proof (run_inv func v _ _ _ _ _ Hrun Hinit) as Hinv.
  apply loop_done_invocations in Hinv; [|done].
  assert (post_init (R:=R) v all_data num_workers
          = QState (all_data ++ replicate num_workers None) [] []
              (replicate num_workers Waiting) (length all_data) [] []) as Hs0.
  { unfold post_init. destruct v, all_data; try done. by apply elem_of_nil in Hnone. }
  rewrite Hs0 in Hinv. simpl in Hinv.
  rewrite omap_app, somes_markers, app_nil_r in Hinv.
  pose proof (somes_length_lt all_data Hnone). lia.
Qed.

Lemma queue_fed_none_item_never_returns_witness :
  post_allocated Thread mixed_func [Some 3%nat; None] 1
    [Fill; Fill; Fill; Get 0; Call 0; Collect; Get 0] = None.
Proof.
  apply (queue_fed_none_item_never_returns Thread mixed_func [Some 3%nat; None] 1).
  set_solver.
Defined.

(** X7.  Without workers nothing is ever processed: for a non-empty input
    and [num_workers = 0] the wrapper returns in no run of either
    variant. *)
Theorem queue_fed_zero_workers_never_returns {T R : Type} (v : variant)
    (func : nat -> T -> outcome (option R)) (all_data : list (option T))
    (sched : list event) :
  all_data <> [] ->
  post_allocated v func all_data 0 sched = None.
Proof.
  intros Hne. unfold post_allocated.
  destruct (post_run v func sched _) as [s|] eqn:Hrun; [|done].
  destruct (returns v s) eqn:Hret; [|done]. exfalso.
  apply returns_loop_done in Hret. unfold loop_done in Hret.
  apply no_worker_run in Hrun.
  - rewrite Hret in Hrun. destruct v, all_data; simpl in Hrun; done.
  - by destruct v, all_data.
  - by destruct v, all_data.
Qed.

Lemma queue_fed_zero_workers_never_returns_witness :
  post_allocated Process mixed_func [Some 3%nat] 0 [Fill] = None.
Proof.
  apply (queue_fed_zero_workers_never_returns Process mixed_func [Some 3%nat]).
  discriminate.
Defined.

(** *** A single worker *)

Section Serial.
Context {T R : Type}.
Variable func : nat -> T -> outcome (option R).

(** With one worker the items are called in the order of the plan: the
    items taken off the queue are those called, then the one held. *)
Definition serial (plan : list (option T)) (s : @qstate T R) : Prop :=
  exists consumed st,
    workers s = [st]
    /\ consumed ++ data_queue s ++ to_put s = plan
    /\ omap id consumed = (invocations s).*2 ++ held_by st
    /\ Forall (fun c : nat * T => c.1 = 0%nat) (invocations s).

Lemma single_lookup (st st' : wstate T) w :
  [st] !! w = Some st' -> w = 0%nat /\ st' = st.
Proof. destruct w as [|w]; [by intros [= <-]|done]. Qed.

Lemma step_serial v plan e s s' :
  post_step v func e s = Some s' -> serial plan s -> serial plan s'.
Proof.
  intros Hstep (consumed & st & Hws & Hfifo & Hitems & Hzero).
  unfold post_step in Hstep. rewrite Hws in Hstep. unfold serial.
  destruct e as [|w|w|w|].
  - (* Fill *)
    destruct (to_put s) as [|x rest] eqn:Hput; simplify_eq/=.
    exists consumed, st. split_and!; [done| |done|done].
    by rewrite <- !app_assoc.
  - (* Get *)
    destruct ([st] !! w) as [st'|] eqn:Hw; [|done].
    apply single_lookup in Hw as [-> ->].
    destruct st; try done.
    destruct (data_queue s) as [|x rest] eqn:Hq; [done|].
    destruct x as [data|]; simplify_eq/=.
    + exists (consumed ++ [Some data]), (Busy data).
      split_and!; [done|by rewrite <- app_assoc| |done].
      rewrite omap_app, Hitems. csimpl. by rewrite app_nil_r.
    + exists (consumed ++ [None]), Stopped.
      split_and!; [done|by rewrite <- app_assoc| |done].
      rewrite omap_app, Hitems. csimpl. by rewrite !app_nil_r.
  - (* Call *)
    destruct ([st] !! w) as [st'|] eqn:Hw; [|done].
    apply single_lookup in Hw as [-> ->].
    destruct st as [|data| |]; try done.
    assert (Forall (fun c : nat * T => c.1 = 0%nat) (invocations s ++ [(0%nat, data)]))
      as Hzero' by (apply Forall_app; split; [done|by constructor]).
    assert (omap id consumed = (invocations s ++ [(0%nat, data)]).*2 ++ [])
      as Hitems' by (by rewrite fmap_app, app_nil_r).
    destruct (func 0%nat data) as [result|] eqn:Hf; [|destruct v];
      simplify_eq/=; rewrite Hws.
    + by exists consumed, Waiting.
    + by exists consumed, Failed.
    + by exists consumed, Waiting.
  - (* Timeout *)
    destruct v; [|done].
    destruct ([st] !! w) as [st'|] eqn:Hw; [|done].
    apply single_lookup in Hw as [-> ->].
    destruct st; try done.
    destruct (data_queue s) as [|x rest] eqn:Hq; [|done]. simplify_eq/=.
    rewrite Hws. exists consumed, Failed. split_and!; [done| |done|done].
    by rewrite Hq.
  - (* Collect *)
    destruct (remaining s) as [|n] eqn:Hrem; [done|].
    destruct (result_queue s) as [|result rest] eqn:Hq; [done|]. simplify_eq/=.
    by exists consumed, st.
Qed.

Lemma run_serial v plan sched s s' :
  post_run v func sched s = Some s' -> serial plan s -> serial plan s'.
Proof.
  revert s. induction sched as [|e sched IH]; intros s; simpl.
  - by intros [= ->].
  - destruct (post_step v func e s) as [s1|] eqn:Hstep; [|done].
    intros Hrun Hs. eapply IH; [done|]. by eapply step_serial.
Qed.

Lemma init_serial v (items : list T) :
  (v = Thread -> items <> []) ->
  serial ((Some <$> items) ++ [None]) (post_init v (Some <$> items) 1).
Proof.
  intros Hne. exists [], Waiting. unfold post_init.
  destruct v, items as [|x items]; csimpl; try done.
  by destruct Hne.
Qed.

(** The calls of a single worker are a prefix of the items. *)
Lemma serial_prefix (items : list T) s :
  serial ((Some <$> items) ++ [None]) s ->
  exists rest, (invocations s).*2 ++ rest = items.
Proof.
  intros (consumed & st & _ & Hfifo & Hitems & _).
  apply (f_equal (omap id)) in Hfifo.
  pose proof (somes_plan items 1) as Hplan. cbn [replicate] in Hplan.
  rewrite Hplan, omap_app, Hitems in Hfifo.
  eexists. by rewrite <- Hfifo, <- app_assoc.
Qed.
End Serial.

Lemma zero_calls {T} (calls : list (nat * T)) :
  Forall (fun c : nat * T => c.1 = 0%nat) calls ->
  calls = (fun x => (0%nat, x)) <$> calls.*2.
Proof.
  induction 1 as [|[w x] calls Hw _ IH]; csimpl; [done|].
  cbn [fst] in Hw. subst w. by rewrite <- IH.
Qed.

(** X8.  With a single worker the executor is sequential: in every run
    the calls made so far are calls of worker 0 on a prefix of the items,
    in input order; whenever the wrapper returns, the returned list is what
    the items leave behind taken in input order; and in the thread variant
    every run can be continued until the wrapper returns. *)
Theorem queue_fed_single_worker_keeps_order {T R : Type} (v : variant)
    (func : nat -> T -> outcome (option R)) (items : list T)
    (sched : list event) (s : qstate) :
  (v = Thread -> items <> []) ->
  post_run v func sched (post_init v (Some <$> items) 1) = Some s ->
  (exists rest,
     invocations s = (fun x => (0%nat, x)) <$> (invocations s).*2
     /\ (invocations s).*2 ++ rest = items)
  /\ (forall results,
        post_allocated v func (Some <$> items) 1 sched = Some results ->
        results = flat_map (kept_of v func) ((fun x => (0%nat, x)) <$> items))
  /\ (v = Thread ->
      exists sched' results,
        post_allocated v func (Some <$> items) 1 (sched ++ sched') = Some results).
Proof.
  intros Hne Hrun.
  pose proof (run_serial func v _ _ _ _ Hrun (init_serial v items Hne)) as Hserial.
  destruct (serial_prefix items s Hserial) as (rest & Hrest).
  assert (invocations s = (fun x => (0%nat, x)) <$> (invocations s).*2) as Hzero.
  { destruct Hserial as (_ & _ & _ & _ & _ & Hzero). by apply zero_calls. }
  destruct (queue_fed_run_inv func v items 1 sched s Hne Hrun) as [Hinv Hlen].
  split_and!.
  - by exists rest.
  - intros results. unfold post_allocated. rewrite Hrun.
    destruct (returns v s) eqn:Hret; [|done]. intros [= <-].
    apply returns_loop_done in Hret.
    destruct (loop_done_complete func v items 1 s Hinv Hret)
      as (_ & Hperm & _ & Hres).
    assert (rest = []) as ->.
    { apply Permutation_length in Hperm. apply (f_equal length) in Hrest.
      rewrite length_app in Hrest. apply length_zero_iff_nil. lia. }
    rewrite app_nil_r in Hrest. by rewrite Hres, Hzero, Hrest.
  - intros ->.
    destruct (run_completes func Thread s) as (sched' & s' & Hrun' & Hq).
    assert (post_run Thread func (sched ++ sched')
              (post_init Thread (Some <$> items) 1) = Some s') as Hall
      by (by rewrite run_app, Hrun).
    destruct (queue_fed_run_inv func Thread items 1 _ s' Hne Hall) as [Hinv' Hlen'].
    assert (no_failed s') as Hnf by (by destruct Hinv').
    destruct (quiescent_complete func Thread items 1 s' (le_n 1) Hinv' Hlen' Hq Hnf)
      as (_ & _ & _ & Hdone & _).
    exists sched', (all_results s'). unfold post_allocated. rewrite Hall.
    unfold returns. unfold loop_done in Hdone. by rewrite Hdone.
Qed.

Lemma queue_fed_single_worker_keeps_order_witness :
  let s := QState [] [] [] [Stopped] 0 [Some 6%nat]
             [(0%nat, 0%nat); (0%nat, 1%nat); (0%nat, 3%nat)] in
  let sched := [Fill; Fill; Fill; Fill; Get 0; Call 0; Get 0; Call 0; Get 0; Call 0;
                Get 0; Collect; Collect; Collect] in
  (exists rest,
     invocations s = (fun x => (0%nat, x)) <$> (invocations s).*2
     /\ (invocations s).*2 ++ rest = [0%nat; 1%nat; 3%nat])
  /\ (forall results,
        post_allocated Thread mixed_func (Some <$> [0%nat; 1%nat; 3%nat]) 1 sched
        = Some results ->
        results = flat_map (kept_of Thread mixed_func)
                    ((fun x => (0%nat, x)) <$> [0%nat; 1%nat; 3%nat]))
  /\ (Thread = Thread ->
      exists sched' results,
        post_allocated Thread mixed_func (Some <$> [0%nat; 1%nat; 3%nat]) 1
          (sched ++ sched') = Some results).
Proof.
  apply (queue_fed_single_worker_keeps_order Thread mixed_func [0%nat; 1%nat; 3%nat]
           [Fill; Fill; Fill; Fill; Get 0; Call 0; Get 0; Call 0; Get 0; Call 0;
            Get 0; Collect; Collect; Collect]).
  - discriminate.
  - reflexivity.
Defined.

End QueueFedMore.

(** ** Content hasher: the chunked read of small files, and the bytes the
       sampled digest of large files never looks at *)

Module HasherMore.
Import Hasher HasherProps.

#[local] Opaque MiB.

Lemma chunk_size_pos : (0 < 8192)%nat.
Proof. apply Nat.ltb_lt. vm_compute. reflexivity. Qed.

(** One bounded read followed by the rest is the rest. *)
Lemma read_then_rest {A} (n pos : nat) (data : list A) :
  take n (drop pos data) ++ drop (pos + length (take n (drop pos data))) data
  = drop pos data.
Proof.
  rewrite <- drop_drop, length_take.
  destruct (decide (n <= length (drop pos data))%nat) as [Hle|Hgt].
  - rewrite Nat.min_l by done. apply take_drop.
  - rewrite Nat.min_r by lia. rewrite take_ge by lia.
    rewrite drop_all. apply app_nil_r.
Qed.

(** The chunk loop feeds everything from the position to the end of the
    file, provided the fuel exceeds the number of bytes left. *)
Lemma read_chunks_rest fuel data pos fed :
  (length data - pos < fuel)%nat ->
  read_chunks fuel (Handle data pos) fed = fed ++ drop pos data.
Proof.
  pose proof chunk_size_pos as Hpos.
  revert pos fed. induction fuel as [|fuel IH]; intros pos fed Hfuel; [lia|].
  cbn [read_chunks]. unfold read. cbn [h_data h_pos].
  generalize dependent 8192%nat. intros n Hn.
  destruct (take n (drop pos data)) as [|b chunk] eqn:Hchunk.
  - apply take_nil_inv in Hchunk as [?|Hnil]; [lia|]. by rewrite Hnil, app_nil_r.
  - rewrite <- Hchunk.
    assert (0 < length (take n (drop pos data)))%nat as Hadv
      by (rewrite Hchunk; simpl; lia).
    assert (length (take n (drop pos data)) <= length data - pos)%nat as Hin
      by (rewrite length_take, length_drop; lia).
    rewrite IH by lia.
    rewrite <- app_assoc. f_equal. apply read_then_rest.
Qed.

(** X9.  The chunked read of the small-file branch feeds the digest the
    whole content, byte for byte and in order, whatever the length; so the
    hash of a readable non-empty file below 10 MiB is the plain hex digest
    of its content, without prefix and without the size. *)
Theorem hasher_small_file_digest content :
  full_digest_input content = content
  /\ forall md5_hexdigest (fs : gmap string fs_entry) file_path,
       fs !! file_path = Some (FsEntry content true) ->
       content <> [] ->
       (length content < 10 * MiB)%nat ->
       get_file_hash_fast md5_hexdigest fs file_path
       = Some (md5_hexdigest content).
Proof.
  assert (full_digest_input content = content) as Hfull.
  { unfold full_digest_input, open. rewrite read_chunks_rest by lia.
    by rewrite drop_0. }
  split; [done|].
  intros md5_hexdigest fs file_path Hfile Hne Hsmall.
  unfold get_file_hash_fast. rewrite Hfile.
  cbv beta iota zeta delta [Hasher.content readable negb].
  destruct (decide (length content = 0)%nat) as [Hz|_].
  { destruct content; [done|discriminate]. }
  destruct (decide (length content < 10 * MiB)%nat); [|lia].
  by rewrite Hfull.
Qed.

Lemma hasher_small_file_digest_witness :
  full_digest_input [x61; x62; x63] = [x61; x62; x63]
  /\ get_file_hash_fast Dedup.bytes_digest Dedup.locked_fs "/d1/a.png"
     = Some (Dedup.bytes_digest [x61; x62; x63]).
Proof.
  destruct (hasher_small_file_digest [x61; x62; x63]) as [Hfull Hhash].
  split; [exact Hfull|]. apply Hhash.
  - reflexivity.
  - discriminate.
  - pose proof MiB_pos. simpl. lia.
Defined.

(** X10.  The large-file digest never reads the bytes strictly between the
    three sampled windows: overwriting any byte at an offset in
    [MiB, size // 2) or in [size // 2 + MiB, size - MiB) of a file of at
    least 10 MiB leaves the digest input, and hence the returned hash,
    unchanged. *)
Theorem hasher_large_file_blind_spots content (i : nat) (b : byte) :
  (10 * MiB <= length content)%nat ->
  (MiB <= i < length content `div` 2)%nat
  \/ (length content `div` 2 + MiB <= i < length content - MiB)%nat ->
  fast_digest_input (<[i := b]> content) = fast_digest_input content
  /\ forall md5_hexdigest (fs : gmap string fs_entry) file_path r,
       fs !! file_path = Some (FsEntry content r) ->
       get_file_hash_fast md5_hexdigest
         (<[file_path := FsEntry (<[i := b]> content) r]> fs) file_path
       = get_file_hash_fast md5_hexdigest fs file_path.
Proof.
  intros Hbig Hi. pose proof MiB_pos as Hpos.
  pose proof (Nat.div_mod_eq (length content) 2) as Hdiv.
  pose proof (Nat.mod_upper_bound (length content) 2) as Hmod.
  assert (fast_digest_input (<[i := b]> content) = fast_digest_input content)
    as Hsame.
  { rewrite !fast_digest_input_slices by (rewrite ?length_insert; lia).
    rewrite length_insert.
    rewrite take_insert_ge by lia.
    rewrite (drop_insert_lt _ (length content - MiB)) by lia.
    destruct Hi as [Hi|Hi].
    - by rewrite drop_insert_lt by lia.
    - rewrite drop_insert_ge, take_insert_ge by lia. done. }
  split; [done|].
  intros md5_hexdigest fs file_path r Hfile.
  unfold get_file_hash_fast. rewrite lookup_insert_eq, Hfile.
  cbv beta iota zeta delta [Hasher.content readable].
  rewrite length_insert, Hsame.
  destruct (decide (length content < 10 * MiB)%nat); [lia|]. reflexivity.
Qed.

Lemma hasher_large_file_blind_spots_witness :
  fast_digest_input (<[MiB := x01]> two_tone_file)
  = fast_digest_input two_tone_file
  /\ forall md5_hexdigest (fs : gmap string fs_entry) file_path r,
       fs !! file_path = Some (FsEntry two_tone_file r) ->
       get_file_hash_fast md5_hexdigest
         (<[file_path := FsEntry (<[MiB := x01]> two_tone_file) r]> fs) file_path
       = get_file_hash_fast md5_hexdigest fs file_path.
Proof.
  apply (hasher_large_file_blind_spots two_tone_file MiB x01).
  - rewrite two_tone_length. lia.
  - left. rewrite two_tone_midpoint. pose proof MiB_pos. lia.
Defined.

End HasherMore.

(** ** Deduplicator: numbering of the unique files, the path-based variant,
       and what the hash-based variant does with files of equal size *)

Module DedupMore.
Import Hasher Dedup DedupProps.

(** The destination written for a unique file. *)
Definition destination (info : unique_info) : string :=
  rel_path (u_media_type info) (u_idx info) (u_suffix info).

(** *** Numbering *)

(** Every index is between 1 and the counter of its (dataset, media type),
    and two entries of one (dataset, media type) have different indices. *)
Record numbered (t : tables) : Prop := {
  numbered_range : forall key info,
    unique_files t !! key = Some info ->
    (1 <= u_idx info
     <= default 0 (media_counters t !! (u_original_dataset info, u_media_type info)))%nat;
  numbered_apart : forall k1 k2 i1 i2,
    unique_files t !! k1 = Some i1 -> unique_files t !! k2 = Some i2 ->
    k1 <> k2 ->
    u_original_dataset i1 = u_original_dataset i2 ->
    u_media_type i1 = u_media_type i2 ->
    u_idx i1 <> u_idx i2
}.

Lemma empty_numbered : numbered empty_tables.
Proof. split; simpl; intros *; by rewrite lookup_empty. Qed.

Lemma add_unique_numbered key mf t :
  numbered t -> numbered (add_unique key mf t).1.
Proof.
  intros [Hrange Hapart]. unfold add_unique, bump. simpl.
  set (c := default 0%nat (media_counters t !! (dataset_name mf, media_type mf))).
  assert (forall k info, k <> key ->
            <[key := UniqueInfo (media_type mf) (src_path mf) (S c) (suffix mf)
                       (size mf) (dataset_name mf)]> (unique_files t) !! k = Some info ->
            unique_files t !! k = Some info) as Hold.
  { intros k info Hk. by rewrite lookup_insert_ne. }
  split; simpl.
  - intros k info. destruct (decide (k = key)) as [->|Hk].
    + rewrite lookup_insert_eq. intros [= <-]. simpl.
      rewrite lookup_insert_eq. simpl. lia.
    + intros Hinfo%Hold; [|done]. specialize (Hrange _ _ Hinfo).
      destruct (decide ((dataset_name mf, media_type mf)
                        = (u_original_dataset info, u_media_type info))) as [Heq|Hne].
      * rewrite <- Heq, lookup_insert_eq. simpl. rewrite <- Heq in Hrange.
        fold c in Hrange. lia.
      * by rewrite lookup_insert_ne.
  - intros k1 k2 i1 i2 H1 H2 Hk Hds Hmt.
    destruct (decide (k1 = key)) as [->|Hk1]; destruct (decide (k2 = key)) as [->|Hk2].
    + done.
    + rewrite lookup_insert_eq in H1. injection H1 as <-. simpl in *.
      apply Hold in H2; [|done]. specialize (Hrange _ _ H2).
      rewrite <- Hds, <- Hmt in Hrange. fold c in Hrange. lia.
    + rewrite lookup_insert_eq in H2. injection H2 as <-. simpl in *.
      apply Hold in H1; [|done]. specialize (Hrange _ _ H1).
      rewrite Hds, Hmt in Hrange. fold c in Hrange. lia.
    + apply Hold in H1; [|done]. apply Hold in H2; [|done]. by eapply Hapart.
Qed.

Lemma hash_result_step_numbered st result :
  numbered st.2 -> numbered (hash_result_step st result).2.
Proof.
  destruct st as [ghm t]. intros Hnum. cbn [snd] in Hnum.
  cbv beta iota zeta delta [hash_result_step].
  destruct (r_status result); [|exact Hnum].
  destruct (r_file_hash result) as [h|]; [|exact Hnum].
  destruct (negb (truthy (Some h))); [exact Hnum|].
  destruct (ghm !! h) as [existing|].
  - destruct Hnum as [Hrange Hapart]. split; simpl; [exact Hrange|exact Hapart].
  - pose proof (add_unique_numbered h (r_media_file result) t Hnum) as Hadd.
    destruct (add_unique h (r_media_file result) t) as [t' info]. exact Hadd.
Qed.

Lemma hash_results_numbered results st :
  numbered st.2 -> numbered (foldl hash_result_step st results).2.
Proof.
  revert st. induction results as [|r results IH]; intros st Hnum; [done|].
  simpl. apply IH. by apply hash_result_step_numbered.
Qed.

Lemma dedup_group_numbered md5_hexdigest fs completion t g :
  numbered t -> numbered (dedup_group md5_hexdigest fs completion t g).
Proof.
  intros Hnum.
  assert (forall group,
            numbered (process_hash_group_concurrent_zip md5_hexdigest fs
                        completion group t)) as Hgroup.
  { intros group. unfold process_hash_group_concurrent_zip.
    destruct (filter _ group); [done|]. by apply hash_results_numbered. }
  destruct g as [sz [|mf [|mf' group]]]; simpl; [apply Hgroup| |apply Hgroup].
  by apply add_unique_numbered.
Qed.

Lemma byhash_numbered md5_hexdigest fs completion groups t :
  numbered t ->
  numbered (foldl (dedup_group md5_hexdigest fs completion) t groups).
Proof.
  revert t. induction groups as [|g groups IH]; intros t Hnum; [done|].
  simpl. apply IH. by apply dedup_group_numbered.
Qed.

Lemma by_path_numbered l st :
  numbered st.2 -> numbered (foldl by_path_step st l).2.
Proof.
  revert st. induction l as [|mf l IH]; intros [seen t] Hnum; [done|].
  simpl. apply IH. unfold by_path_step.
  case_decide; [done|]. simpl. by apply add_unique_numbered.
Qed.

(** *** Strings *)

Lemma string_length_app (s t : string) :
  String.length (s +:+ t) = (String.length s + String.length t)%nat.
Proof. induction s as [|a s IH]; simpl; [done|]. by rewrite IH. Qed.

Lemma string_app_inv_tail (s1 s2 t : string) : s1 +:+ t = s2 +:+ t -> s1 = s2.
Proof.
  revert s2. induction s1 as [|a s1 IH]; intros [|b s2] Heq.
  - done.
  - apply (f_equal String.length) in Heq.
    rewrite !string_length_app in Heq. simpl in Heq. lia.
  - apply (f_equal String.length) in Heq.
    rewrite !string_length_app in Heq. simpl in Heq. lia.
  - change (String a (s1 +:+ t) = String b (s2 +:+ t)) in Heq.
    injection Heq as -> Heq. f_equal. by apply IH.
Qed.

Lemma rel_path_index media_type i j suffix :
  rel_path media_type i suffix = rel_path media_type j suffix -> i = j.
Proof.
  unfold rel_path. intros Heq.
  do 3 apply String.app_inj in Heq.
  apply string_app_inv_tail in Heq. by apply (inj pretty) in Heq.
Qed.

(** X11.  Both deduplicators number the unique files of one dataset and
    media type apart: two different entries of the returned unique-file
    table with the same dataset and media type have different indices,
    each at least 1, and, when their suffixes agree, different
    destinations. *)
Theorem dedup_numbers_unique_files_apart md5_hexdigest fs completion
    (all_media_files : list media_file) (unique_files : gmap string unique_info)
    (k1 k2 : string) (i1 i2 : unique_info) :
  unique_files
    = (deduplicate_media_files_byhash md5_hexdigest fs completion all_media_files).1
  \/ unique_files = (deduplicate_media_files_by_path all_media_files).1 ->
  unique_files !! k1 = Some i1 ->
  unique_files !! k2 = Some i2 ->
  k1 <> k2 ->
  u_original_dataset i1 = u_original_dataset i2 ->
  u_media_type i1 = u_media_type i2 ->
  (1 <= u_idx i1)%nat /\ (1 <= u_idx i2)%nat
  /\ u_idx i1 <> u_idx i2
  /\ (u_suffix i1 = u_suffix i2 -> destination i1 <> destination i2).
Proof.
  intros Hwhich H1 H2 Hk Hds Hmt.
  assert (exists t, numbered t /\ unique_files = Dedup.unique_files t)
    as (t & [Hrange Hapart] & ->).
  { destruct Hwhich as [->| ->].
    - eexists. split; [|reflexivity].
      apply byhash_numbered, empty_numbered.
    - eexists. split; [|reflexivity].
      apply (by_path_numbered all_media_files (∅, empty_tables)), empty_numbered. }
  pose proof (Hrange _ _ H1). pose proof (Hrange _ _ H2).
  pose proof (Hapart _ _ _ _ H1 H2 Hk Hds Hmt) as Hidx.
  split_and!; [lia|lia|done|].
  intros Hsfx Hdst. apply Hidx. unfold destination in Hdst.
  rewrite Hmt, Hsfx in Hdst. by apply rel_path_index in Hdst.
Qed.

Lemma dedup_numbers_unique_files_apart_witness :
  (1 <= 1)%nat /\ (1 <= 2)%nat /\ 1%nat <> 2%nat
  /\ (".png" = ".png" ->
      destination (UniqueInfo "images" "/d1/a.png" 1 ".png" 3 "d1")
      <> destination (UniqueInfo "images" "/d1/b.png" 2 ".png" 3 "d1")).
Proof.
  apply (dedup_numbers_unique_files_apart bytes_digest locked_fs input_order
           [a_file; b_file]
           (deduplicate_media_files_by_path [a_file; b_file]).1
           "/d1/a.png" "/d1/b.png"
           (UniqueInfo "images" "/d1/a.png" 1 ".png" 3 "d1")
           (UniqueInfo "images" "/d1/b.png" 2 ".png" 3 "d1")).
  - right. reflexivity.
  - vm_compute. reflexivity.
  - vm_compute. reflexivity.
  - discriminate.
  - reflexivity.
  - reflexivity.
Defined.

(** *** The path-based deduplicator *)

(** The first record of the input with path [p]. *)
Definition first_with_path (p : string) (l : list media_file) : option media_file :=
  head (filter (fun mf => src_path mf = p) l).

(** The entry made for [mf] when it receives index [idx]. *)
Definition info_of (mf : media_file) (idx : nat) : unique_info :=
  UniqueInfo (media_type mf) (src_path mf) idx (suffix mf) (size mf)
    (dataset_name mf).

Lemma first_with_path_None p l :
  first_with_path p l = None <-> p ∉ src_path <$> l.
Proof.
  unfold first_with_path. induction l as [|mf l IH]; csimpl.
  - split; [|done]. intros _. apply not_elem_of_nil.
  - rewrite filter_cons, not_elem_of_cons. case_decide as Hp; simpl.
    + split; [done|]. intros [? _]. done.
    + rewrite IH. split; [|tauto]. intros ?. split; [congruence|done].
Qed.

Lemma first_with_path_app p l k mf :
  first_with_path p l = Some mf -> first_with_path p (l ++ k) = Some mf.
Proof.
  unfold first_with_path. rewrite filter_app.
  destruct (filter _ l); [done|]. done.
Qed.

Lemma first_with_path_snoc p l mf :
  p ∉ src_path <$> l -> src_path mf = p ->
  first_with_path p (l ++ [mf]) = Some mf.
Proof.
  intros Hp%first_with_path_None Hmf. unfold first_with_path in *.
  rewrite filter_app. apply head_None in Hp. rewrite Hp. simpl.
  rewrite filter_cons. by case_decide.
Qed.

Record by_path_inv (l : list media_file) (st : gset string * tables) : Prop := {
  bp_seen : forall p, p ∈ st.1 <-> p ∈ src_path <$> l;
  bp_unique : forall p, p ∈ st.1 ->
    exists mf idx,
      first_with_path p l = Some mf
      /\ unique_files st.2 !! p = Some (info_of mf idx)
      /\ path_mapping st.2 !! p = Some (rel_path (media_type mf) idx (suffix mf));
  bp_only : forall p, p ∉ st.1 ->
    unique_files st.2 !! p = None /\ path_mapping st.2 !! p = None
}.

Lemma by_path_step_inv l st mf :
  by_path_inv l st -> by_path_inv (l ++ [mf]) (by_path_step st mf).
Proof.
  destruct st as [seen t]. intros [Hseen Hunique Honly]. cbn [fst snd] in *.
  unfold by_path_step. case_decide as Hmf.
  - split; cbn [fst snd].
    + intros p. rewrite fmap_app, elem_of_app, <- Hseen. csimpl.
      rewrite list_elem_of_singleton. split; [tauto|]. intros [?| ->]; done.
    + intros p Hp. destruct (Hunique p Hp) as (mf0 & idx & Hfirst & Huf & Hpm).
      exists mf0, idx. split_and!; [|done|done]. by apply first_with_path_app.
    + done.
  - assert (src_path mf ∉ src_path <$> l) as Hnew by (by rewrite <- Hseen).
    split; cbn [fst snd].
    + intros p. rewrite fmap_app, elem_of_app, <- Hseen. csimpl.
      rewrite list_elem_of_singleton, elem_of_union, elem_of_singleton. tauto.
    + intros p Hp. unfold add_unique, bump. cbn [fst unique_files path_mapping].
      destruct (decide (p = src_path mf)) as [->|Hne].
      * eexists mf, _. rewrite !lookup_insert_eq.
        split_and!; [|reflexivity|reflexivity]. by apply first_with_path_snoc.
      * assert (p ∈ seen) as Hold.
        { apply elem_of_union in Hp as [?|Hp]; [done|].
          by apply elem_of_singleton in Hp. }
        destruct (Hunique p Hold) as (mf0 & idx & Hfirst & Huf & Hpm).
        exists mf0, idx. rewrite !lookup_insert_ne by done.
        split_and!; [|done|done]. by apply first_with_path_app.
    + intros p Hp. unfold add_unique, bump. cbn [fst unique_files path_mapping].
      rewrite elem_of_union, elem_of_singleton in Hp.
      rewrite !lookup_insert_ne by (intros Heq; apply Hp; by right).
      apply Honly. tauto.
Qed.

Lemma by_path_run_inv l :
  by_path_inv l (foldl by_path_step (∅, empty_tables) l).
Proof.
  induction l as [|mf l IH] using rev_ind.
  - split; cbn [fst snd foldl].
    + intros p. csimpl. rewrite elem_of_nil. apply elem_of_empty.
    + intros p Hp. by apply elem_of_empty in Hp.
    + intros p _. simpl. by rewrite !lookup_empty.
  - rewrite foldl_snoc. by apply by_path_step_inv.
Qed.

(** X12.  The path-based deduplicator keeps exactly one entry per distinct
    path, made from the first record with that path (later records with
    the same path are ignored, whatever their other fields): the
    unique-file table is keyed by the path itself, and the path is mapped
    to the destination built from the entry's media type, index and
    suffix.  A path that does not occur in the input is in neither
    table. *)
Theorem by_path_first_record_wins (all_media_files : list media_file) (p : string) :
  let '(unique_files, path_mapping) :=
    deduplicate_media_files_by_path all_media_files in
  match first_with_path p all_media_files with
  | Some mf =>
      exists idx,
        unique_files !! p = Some (info_of mf idx)
        /\ path_mapping !! p = Some (destination (info_of mf idx))
  | None => unique_files !! p = None /\ path_mapping !! p = None
  end.
Proof.
  unfold deduplicate_media_files_by_path.
  destruct (by_path_run_inv all_media_files) as [Hseen Hunique Honly].
  destruct (first_with_path p all_media_files) as [mf|] eqn:Hfirst.
  - assert (p ∈ src_path <$> all_media_files) as Hp.
    { destruct (decide (p ∈ src_path <$> all_media_files)) as [|Hn]; [done|].
      apply first_with_path_None in Hn. congruence. }
    apply Hseen in Hp. destruct (Hunique p Hp) as (mf0 & idx & Hf & Huf & Hpm).
    assert (mf0 = mf) as -> by congruence. by exists idx.
  - apply Honly. rewrite Hseen. by apply first_with_path_None.
Qed.

(** *** The size groups *)

#[local] Abbreviation group_map g :=
  (list_to_map g : gmap nat (list media_file)).

Lemma group_append_map sz mf (g : size_groups) :
  group_map (group_append sz mf g)
  = <[sz := default [] (group_map g !! sz) ++ [mf]]> (group_map g).
Proof.
  induction g as [|[k l] g IH]; cbn [group_append].
  - done.
  - case_decide as Hk.
    + subst k. rewrite !list_to_map_cons, lookup_insert_eq. cbn [default].
      by rewrite insert_insert_eq.
    + rewrite !list_to_map_cons, IH, lookup_insert_ne by done.
      by rewrite insert_insert_ne by done.
Qed.

Lemma group_append_key sz mf (g : size_groups) k :
  k ∈ (group_append sz mf g).*1 -> k = sz \/ k ∈ g.*1.
Proof.
  induction g as [|[k0 l] g IH]; cbn [group_append]; csimpl.
  - rewrite list_elem_of_singleton. tauto.
  - case_decide as Hk; csimpl; rewrite !elem_of_cons; [tauto|].
    intros [?|Hin]; [tauto|]. destruct (IH Hin); tauto.
Qed.

Lemma group_append_keys sz mf (g : size_groups) :
  NoDup g.*1 -> NoDup (group_append sz mf g).*1.
Proof.
  induction g as [|[k0 l] g IH]; cbn [group_append]; csimpl.
  - intros _. apply NoDup_singleton.
  - rewrite NoDup_cons. intros [Hk0 Hnd]. case_decide as Hk; csimpl.
    + by apply NoDup_cons.
    + apply NoDup_cons. split; [|by apply IH].
      intros [?|?]%group_append_key; done.
Qed.

Section BySize.
Variable md5_hexdigest : list byte -> string.
Variable fs : gmap string fs_entry.
Variable completion : list hash_result -> list hash_result.

(** [stat] gives [mf] the size [k]. *)
Definition sized (k : nat) (mf : media_file) : Prop :=
  exists e, fs !! src_path mf = Some e /\ length (content e) = k.

(** What the first phase has built after the records [l]. *)
Record grouped (l : list media_file) (st : gset string * size_groups) : Prop := {
  grouped_seen : forall p, p ∈ st.1 <-> p ∈ src_path <$> l;
  grouped_keys : NoDup st.2.*1;
  grouped_files : forall k g mf,
    group_map st.2 !! k = Some g -> mf ∈ g -> sized k mf /\ mf ∈ l;
  grouped_nodup : forall k g,
    group_map st.2 !! k = Some g -> NoDup (src_path <$> g);
  grouped_all : forall p e,
    p ∈ src_path <$> l -> fs !! p = Some e ->
    exists g mf,
      group_map st.2 !! length (content e) = Some g /\ mf ∈ g /\ src_path mf = p
}.

Lemma group_step_grouped l st mf :
  grouped l st -> grouped (l ++ [mf]) (group_step fs st mf).
Proof.
  destruct st as [seen groups].
  intros [Hseen Hkeys Hfiles Hnodup Hall]. cbn [fst snd] in *.
  assert (forall p, p ∈ src_path <$> l ++ [mf] <-> p ∈ seen \/ p = src_path mf)
    as Hsnoc.
  { intros p. rewrite fmap_app, elem_of_app, <- Hseen. csimpl.
    by rewrite list_elem_of_singleton. }
  unfold group_step. case_decide as Hmf.
  { split; cbn [fst snd].
    - intros p. rewrite Hsnoc. split; [tauto|]. intros [?| ->]; done.
    - done.
    - intros k g mf0 Hg Hin. destruct (Hfiles k g mf0 Hg Hin) as [? ?].
      split; [done|]. apply elem_of_app. by left.
    - done.
    - intros p e Hp. apply Hall. apply Hseen. apply Hsnoc in Hp as [?| ->]; done. }
  destruct (fs !! src_path mf) as [e0|] eqn:Hstat.
  - split; cbn [fst snd].
    + intros p. by rewrite Hsnoc, elem_of_union, elem_of_singleton.
    + by apply group_append_keys.
    + intros k g mf0. rewrite group_append_map.
      destruct (decide (k = length (content e0))) as [->|Hk].
      * rewrite lookup_insert_eq. intros [= <-] [Hin| ->%list_elem_of_singleton]%elem_of_app.
        -- destruct (group_map groups !! length (content e0)) as [g0|] eqn:Hg0;
             cbn [default] in Hin; [|by apply elem_of_nil in Hin].
           destruct (Hfiles _ _ _ Hg0 Hin) as [? ?].
           split; [done|]. apply elem_of_app. by left.
        -- split; [by exists e0|]. apply elem_of_app. right. by left.
      * rewrite lookup_insert_ne by done. intros Hg Hin.
        destruct (Hfiles _ _ _ Hg Hin) as [? ?].
        split; [done|]. apply elem_of_app. by left.
    + intros k g. rewrite group_append_map.
      destruct (decide (k = length (content e0))) as [->|Hk].
      * rewrite lookup_insert_eq. intros [= <-]. rewrite fmap_app. csimpl.
        apply NoDup_app. split_and!.
        -- destruct (group_map groups !! length (content e0)) as [g0|] eqn:Hg0;
             cbn [default]; [by eapply Hnodup|apply NoDup_nil_2].
        -- intros p Hp ->%list_elem_of_singleton. apply Hmf, Hseen.
           destruct (group_map groups !! length (content e0)) as [g0|] eqn:Hg0;
             cbn [default] in Hp; [|by apply elem_of_nil in Hp].
           apply list_elem_of_fmap in Hp as (mf0 & -> & Hin).
           apply list_elem_of_fmap. exists mf0. split; [done|].
           by apply (Hfiles _ _ _ Hg0).
        -- apply NoDup_singleton.
      * rewrite lookup_insert_ne by done. apply Hnodup.
    + intros p e Hp He. rewrite group_append_map.
      destruct (decide (p = src_path mf)) as [->|Hne].
      * assert (e = e0) as -> by congruence. rewrite lookup_insert_eq.
        eexists _, mf. split_and!; [reflexivity| |done].
        apply elem_of_app. right. by left.
      * assert (p ∈ src_path <$> l) as Hold.
        { apply Hseen. apply Hsnoc in Hp as [?|?]; done. }
        destruct (Hall p e Hold He) as (g & mf0 & Hg & Hin & Hsrc).
        destruct (decide (length (content e) = length (content e0))) as [Hk|Hk].
        -- rewrite Hk, lookup_insert_eq. rewrite Hk in Hg. rewrite Hg. cbn [default].
           eexists _, mf0. split_and!; [reflexivity| |done].
           apply elem_of_app. by left.
        -- rewrite lookup_insert_ne by done. by exists g, mf0.
  - split; cbn [fst snd].
    + intros p. by rewrite Hsnoc, elem_of_union, elem_of_singleton.
    + done.
    + intros k g mf0 Hg Hin. destruct (Hfiles k g mf0 Hg Hin) as [? ?].
      split; [done|]. apply elem_of_app. by left.
    + done.
    + intros p e Hp He. apply Hall; [|done]. apply Hseen.
      apply Hsnoc in Hp as [?| ->]; [done|congruence].
Qed.

Lemma group_run_grouped l : grouped l (foldl (group_step fs) (∅, []) l).
Proof.
  induction l as [|mf l IH] using rev_ind.
  - split; cbn [fst snd foldl].
    + intros p. csimpl. rewrite elem_of_nil. apply elem_of_empty.
    + apply NoDup_nil_2.
    + intros k g mf. by rewrite list_to_map_nil, lookup_empty.
    + intros k g. by rewrite list_to_map_nil, lookup_empty.
    + intros p e Hp. by apply elem_of_nil in Hp.
  - rewrite foldl_snoc. by apply group_step_grouped.
Qed.

(** The groups the second phase iterates over. *)
Lemma group_by_size_spec l :
  NoDup (group_by_size fs l).*1
  /\ (forall k g mf, (k, g) ∈ group_by_size fs l -> mf ∈ g -> sized k mf /\ mf ∈ l)
  /\ (forall k g, (k, g) ∈ group_by_size fs l -> NoDup (src_path <$> g))
  /\ (forall p e, p ∈ src_path <$> l -> fs !! p = Some e ->
        exists g mf, (length (content e), g) ∈ group_by_size fs l
                     /\ mf ∈ g /\ src_path mf = p).
Proof.
  unfold group_by_size.
  destruct (group_run_grouped l) as [_ Hkeys Hfiles Hnodup Hall].
  split_and!; [done| | |].
  - intros k g mf Hg. apply Hfiles. by apply elem_of_list_to_map.
  - intros k g Hg. eapply Hnodup. by apply elem_of_list_to_map.
  - intros p e Hp He. destruct (Hall p e Hp He) as (g & mf & Hg & ? & ?).
    exists g, mf. split_and!; [|done|done]. by apply elem_of_list_to_map.
Qed.

End BySize.

(** *** The second phase *)

Section SecondPhase.
Variable md5_hexdigest : list byte -> string.
Variable fs : gmap string fs_entry.
Variable completion : list hash_result -> list hash_result.
Hypothesis completion_perm : forall l, completion l ≡ₚ l.

#[local] Abbreviation compute := (compute_hash_for_file_zip md5_hexdigest fs).
#[local] Abbreviation hash_of p := (get_file_hash md5_hexdigest fs p).

(** Only the paths of the records at hand are (re)mapped. *)
Lemma add_unique_frame key mf t p :
  p <> src_path mf ->
  path_mapping (add_unique key mf t).1 !! p = path_mapping t !! p.
Proof. intros Hp. unfold add_unique, bump. simpl. by rewrite lookup_insert_ne. Qed.

Lemma hash_result_step_frame st mf p :
  p <> src_path mf ->
  path_mapping (hash_result_step st (compute mf)).2 !! p = path_mapping st.2 !! p.
Proof.
  destruct st as [ghm t]. intros Hp.
  cbv beta iota zeta delta [hash_result_step compute_hash_for_file_zip
                              r_status r_file_hash r_media_file].
  destruct (hash_of (src_path mf)) as [h|]; [|done].
  destruct (negb (truthy (Some h))); [done|].
  destruct (ghm !! h) as [existing|]; cbn [snd path_mapping].
  - by rewrite lookup_insert_ne.
  - pose proof (add_unique_frame h mf t p Hp) as Hadd.
    destruct (add_unique h mf t) as [t' info]. exact Hadd.
Qed.

Lemma hash_results_frame (mfs : list media_file) st p :
  p ∉ src_path <$> mfs ->
  path_mapping (foldl hash_result_step st (compute <$> mfs)).2 !! p
  = path_mapping st.2 !! p.
Proof.
  revert st. induction mfs as [|mf mfs IH]; intros st Hp; [done|].
  csimpl in *. apply not_elem_of_cons in Hp as [Hne Hp].
  rewrite IH by done. by apply hash_result_step_frame.
Qed.

(** The results are those of the tasks, in completion order. *)
Lemma completion_tasks (tasks : list media_file) :
  exists mfs, mfs ≡ₚ tasks /\ completion (compute <$> tasks) = compute <$> mfs.
Proof.
  destruct (Permutation_map_inv compute tasks
              (completion_perm (compute <$> tasks))) as (mfs & Heq & Hperm).
  exists mfs. split; [by symmetry|done].
Qed.

Lemma process_hash_group_frame group t p :
  p ∉ src_path <$> group ->
  path_mapping (process_hash_group_concurrent_zip md5_hexdigest fs completion
                  group t) !! p
  = path_mapping t !! p.
Proof.
  intros Hp. unfold process_hash_group_concurrent_zip.
  destruct (filter _ group) as [|mf tasks] eqn:Htasks; [done|].
  destruct (completion_tasks (mf :: tasks)) as (mfs & Hperm & ->).
  apply (hash_results_frame mfs (∅, t)).
  intros (mf0 & -> & Hin)%list_elem_of_fmap. apply Hp.
  apply list_elem_of_fmap. exists mf0. split; [done|].
  rewrite Hperm, <- Htasks in Hin. by apply list_elem_of_filter in Hin as [_ ?].
Qed.

Lemma dedup_group_frame t g p :
  p ∉ src_path <$> g.2 ->
  path_mapping (dedup_group md5_hexdigest fs completion t g) !! p
  = path_mapping t !! p.
Proof.
  destruct g as [sz [|mf [|mf' group]]]; cbn [snd dedup_group]; intros Hp.
  - by apply process_hash_group_frame.
  - apply add_unique_frame. intros ->. apply Hp. csimpl. by left.
  - by apply process_hash_group_frame.
Qed.

Lemma dedup_groups_frame groups t p :
  Forall (fun g : nat * list media_file => p ∉ src_path <$> g.2) groups ->
  path_mapping (foldl (dedup_group md5_hexdigest fs completion) t groups) !! p
  = path_mapping t !! p.
Proof.
  revert t. induction groups as [|g groups IH]; intros t Hgs; [done|].
  inversion Hgs; subst. cbn [foldl]. rewrite IH by done.
  by apply dedup_group_frame.
Qed.

(** Every record handled so far whose hash is usable is mapped to the
    destination of the entry registered for its hash in this group. *)
Definition merged (handled : list media_file)
    (st : gmap string unique_info * tables) : Prop :=
  forall mf h,
    mf ∈ handled -> hash_of (src_path mf) = Some h -> truthy (Some h) = true ->
    exists info,
      st.1 !! h = Some info
      /\ path_mapping st.2 !! src_path mf = Some (destination info).

Lemma hash_result_step_merged handled st mf :
  merged handled st ->
  merged (handled ++ [mf]) (hash_result_step st (compute mf)).
Proof.
  destruct st as [ghm t]. intros Hmerged mf0 h Hin Hh Htruthy.
  cbv beta iota zeta delta [hash_result_step compute_hash_for_file_zip
                              r_status r_file_hash r_media_file].
  destruct (hash_of (src_path mf)) as [h'|] eqn:Hh'.
  2:{ apply elem_of_app in Hin as [Hin|Hin%list_elem_of_singleton].
      - by apply (Hmerged mf0 h).
      - subst mf0. congruence. }
  destruct (truthy (Some h')) eqn:Htruthy'; cbn [negb].
  2:{ apply elem_of_app in Hin as [Hin|Hin%list_elem_of_singleton].
      - by apply (Hmerged mf0 h).
      - subst mf0. congruence. }
  destruct (ghm !! h') as [existing|] eqn:Hghm.
  - cbn [fst snd path_mapping].
    destruct (decide (src_path mf0 = src_path mf)) as [Hsrc|Hsrc].
    + rewrite Hsrc in Hh. assert (h = h') as -> by congruence.
      exists existing. split; [done|]. rewrite Hsrc. by rewrite lookup_insert_eq.
    + apply elem_of_app in Hin as [Hin|Hin%list_elem_of_singleton];
        [|by subst mf0].
      rewrite lookup_insert_ne by done. by apply (Hmerged mf0 h).
  - unfold add_unique, bump. cbn [fst snd path_mapping].
    destruct (decide (src_path mf0 = src_path mf)) as [Hsrc|Hsrc].
    + rewrite Hsrc in Hh. assert (h = h') as -> by congruence.
      eexists. rewrite Hsrc, !lookup_insert_eq. split; reflexivity.
    + apply elem_of_app in Hin as [Hin|Hin%list_elem_of_singleton];
        [|by subst mf0].
      destruct (Hmerged mf0 h Hin Hh Htruthy) as (info & Hinfo & Hpm).
      cbn [fst snd] in Hinfo, Hpm.
      exists info. rewrite !lookup_insert_ne; [done|done|congruence].
Qed.

Lemma hash_results_merged (mfs handled : list media_file) st :
  merged handled st ->
  merged (handled ++ mfs) (foldl hash_result_step st (compute <$> mfs)).
Proof.
  revert handled st. induction mfs as [|mf mfs IH]; intros handled st Hmerged.
  - by rewrite app_nil_r.
  - csimpl. rewrite cons_middle, (assoc_L (++) handled [mf] mfs). apply IH.
    by apply hash_result_step_merged.
Qed.

(** Two records of one group with the same usable hash end up with the
    same destination. *)
Lemma process_hash_group_merges group t mf1 mf2 h :
  mf1 ∈ group -> mf2 ∈ group ->
  is_Some (fs !! src_path mf1) -> is_Some (fs !! src_path mf2) ->
  hash_of (src_path mf1) = Some h -> hash_of (src_path mf2) = Some h ->
  truthy (Some h) = true ->
  exists info,
    let t' := process_hash_group_concurrent_zip md5_hexdigest fs completion
                group t in
    path_mapping t' !! src_path mf1 = Some (destination info)
    /\ path_mapping t' !! src_path mf2 = Some (destination info).
Proof.
  intros Hin1 Hin2 Hfs1 Hfs2 Hh1 Hh2 Htruthy.
  unfold process_hash_group_concurrent_zip.
  assert (forall mf, mf ∈ group -> is_Some (fs !! src_path mf) ->
            mf ∈ filter (fun mf => is_Some (fs !! src_path mf)) group) as Htask.
  { intros mf ? ?. by apply list_elem_of_filter. }
  pose proof (Htask mf1 Hin1 Hfs1) as Ht1. pose proof (Htask mf2 Hin2 Hfs2) as Ht2.
  destruct (filter _ group) as [|mf tasks] eqn:Htasks;
    [by apply elem_of_nil in Ht1|].
  destruct (completion_tasks (mf :: tasks)) as (mfs & Hperm & ->).
  rewrite <- Hperm in Ht1, Ht2.
  assert (merged [] (∅, t)) as Hinit by (intros ? ? []%elem_of_nil).
  pose proof (hash_results_merged mfs [] (∅, t) Hinit) as Hmerged.
  rewrite app_nil_l in Hmerged.
  destruct (Hmerged mf1 h Ht1 Hh1 Htruthy) as (info1 & Hi1 & Hpm1).
  destruct (Hmerged mf2 h Ht2 Hh2 Htruthy) as (info2 & Hi2 & Hpm2).
  assert (info2 = info1) as -> by congruence. by exists info1.
Qed.

(** The records of the groups after the one of size [k] have other paths
    than a file of size [k]. *)
Lemma later_groups_apart (pre post : size_groups) k g p e :
  NoDup (pre ++ (k, g) :: post).*1 ->
  (forall k' g' mf, (k', g') ∈ pre ++ (k, g) :: post -> mf ∈ g' -> sized fs k' mf) ->
  fs !! p = Some e -> length (content e) = k ->
  Forall (fun g' : nat * list media_file => p ∉ src_path <$> g'.2) post.
Proof.
  intros Hkeys Hsized Hp Hk. apply Forall_forall. intros [k' g'] Hin.
  cbn [snd]. intros (mf & -> & Hmf)%list_elem_of_fmap.
  assert ((k', g') ∈ pre ++ (k, g) :: post) as Hin'.
  { apply elem_of_app. right. by right. }
  destruct (Hsized k' g' mf Hin' Hmf) as (e' & He' & Hk').
  assert (k' = k) as -> by congruence.
  rewrite fmap_app, fmap_cons in Hkeys. apply NoDup_app in Hkeys as (_ & _ & Hkeys).
  apply NoDup_cons in Hkeys as [Hnotin _]. apply Hnotin.
  apply list_elem_of_fmap. by exists (k, g').
Qed.

End SecondPhase.

Lemma truthy_nonempty h : h <> "" -> truthy (Some h) = true.
Proof. intros Hh. unfold truthy. by apply negb_true_iff, String.eqb_neq. Qed.

Lemma NoDup_constant {A} (l : list A) (x : A) :
  NoDup l -> (forall y, y ∈ l -> y = x) -> (length l <= 1)%nat.
Proof.
  intros Hnd Hall. destruct l as [|a [|b l]]; simpl; [lia|lia|exfalso].
  apply NoDup_cons in Hnd as [Hnotin _]. apply Hnotin.
  rewrite (Hall a), (Hall b); [by left| right; by left | by left].
Qed.

(** Two same-size, same-content files from different datasets. *)
Definition twin_fs : gmap string fs_entry :=
  {[ "/d1/a.png" := FsEntry [x61; x62; x63] true;
     "/d2/c.png" := FsEntry [x61; x62; x63] true ]}.

Definition c_file : media_file := MediaFile "/d2/c.png" "images" ".png" 3 "d2".

(** A single file, which cannot be opened. *)
Definition lone_fs : gmap string fs_entry :=
  {[ "/d1/b.png" := FsEntry [x64; x65; x66] false ]}.

(** X13.  The hash-based deduplicator merges duplicates: two different
    input paths whose files have the same size and the same non-empty
    hash are mapped to one and the same destination, whatever the order
    in which the executor hands back the hashes. *)
Theorem dedup_same_hash_same_destination md5_hexdigest fs completion
    (all_media_files : list media_file) (p1 p2 : string) (e1 e2 : fs_entry)
    (h : string) :
  (forall l, completion l ≡ₚ l) ->
  p1 ∈ src_path <$> all_media_files ->
  p2 ∈ src_path <$> all_media_files ->
  p1 <> p2 ->
  fs !! p1 = Some e1 -> fs !! p2 = Some e2 ->
  length (content e1) = length (content e2) ->
  get_file_hash md5_hexdigest fs p1 = Some h ->
  get_file_hash md5_hexdigest fs p2 = Some h ->
  h <> "" ->
  let path_mapping :=
    (deduplicate_media_files_byhash md5_hexdigest fs completion
       all_media_files).2 in
  exists info,
    path_mapping !! p1 = Some (destination info)
    /\ path_mapping !! p2 = Some (destination info).
Proof.
  intros Hperm Hp1 Hp2 Hne He1 He2 Hlen Hh1 Hh2 Hh.
  unfold deduplicate_media_files_byhash. cbn [snd].
  destruct (group_by_size_spec fs all_media_files) as (Hkeys & Hfiles & _ & Hall).
  destruct (Hall p1 e1 Hp1 He1) as (g & mf1 & Hg & Hin1 & Hsrc1).
  destruct (Hall p2 e2 Hp2 He2) as (g2 & mf2 & Hg2 & Hin2 & Hsrc2).
  rewrite <- Hlen in Hg2.
  assert (g2 = g) as ->.
  { apply (elem_of_list_to_map_1 (M := gmap nat)) in Hg, Hg2; [|done..].
    congruence. }
  remember (group_by_size fs all_media_files) as groups eqn:Hgroups.
  clear Hgroups Hall.
  apply list_elem_of_split in Hg as (pre & post & ->).
  assert (forall k' g' mf, (k', g') ∈ pre ++ (length (content e1), g) :: post ->
            mf ∈ g' -> sized fs k' mf) as Hsized.
  { intros k' g' mf Hk' Hmf. by destruct (Hfiles k' g' mf Hk' Hmf). }
  rewrite foldl_app. cbn [foldl].
  rewrite !(dedup_groups_frame md5_hexdigest fs completion Hperm post).
  2:{ by eapply (later_groups_apart fs pre post _ g p2 e2). }
  2:{ by eapply (later_groups_apart fs pre post _ g p1 e1). }
  subst p1 p2.
  destruct g as [|a [|b g]].
  - by apply elem_of_nil in Hin1.
  - apply list_elem_of_singleton in Hin1, Hin2. congruence.
  - cbn [dedup_group].
    apply (process_hash_group_merges md5_hexdigest fs completion Hperm
             (a :: b :: g) _ mf1 mf2 h); try done.
    by apply truthy_nonempty.
Qed.

Lemma dedup_same_hash_same_destination_witness :
  let path_mapping :=
    (deduplicate_media_files_byhash bytes_digest twin_fs input_order
       [a_file; c_file]).2 in
  exists info,
    path_mapping !! "/d1/a.png" = Some (destination info)
    /\ path_mapping !! "/d2/c.png" = Some (destination info).
Proof.
  apply (dedup_same_hash_same_destination bytes_digest twin_fs input_order
           [a_file; c_file] "/d1/a.png" "/d2/c.png"
           (FsEntry [x61; x62; x63] true) (FsEntry [x61; x62; x63] true) "abc").
  - intros l. reflexivity.
  - vm_compute. left.
  - vm_compute. right. left.
  - discriminate.
  - vm_compute. reflexivity.
  - vm_compute. reflexivity.
  - reflexivity.
  - vm_compute. reflexivity.
  - vm_compute. reflexivity.
  - discriminate.
Defined.

(** X14.  A file that does not exist (its [stat] fails) is dropped in the
    first phase without an error: it receives no destination, and no
    unique-file entry is made from it. *)
Theorem dedup_missing_file_is_skipped md5_hexdigest fs completion
    (all_media_files : list media_file) (p : string) :
  (forall l, completion l ≡ₚ l) ->
  fs !! p = None ->
  let '(unique_files, path_mapping) :=
    deduplicate_media_files_byhash md5_hexdigest fs completion all_media_files in
  path_mapping !! p = None
  /\ forall key info, unique_files !! key = Some info -> u_src_path info <> p.
Proof.
  intros Hperm Hmissing. unfold deduplicate_media_files_byhash.
  assert (get_file_hash md5_hexdigest fs p = None) as Hnone.
  { unfold get_file_hash, get_file_hash_fast. by rewrite Hmissing. }
  assert (forall l r, r ∈ completion l -> r ∈ l) as Hsound.
  { intros l r. by rewrite Hperm. }
  apply (dedup_groups_absent md5_hexdigest fs completion p Hsound Hnone).
  - destruct (group_by_size_spec fs all_media_files) as (_ & Hfiles & _ & _).
    apply Forall_forall. intros [k g] Hg mf Hone Hsrc. cbn [snd] in Hone. subst g.
    destruct (Hfiles k [mf] mf Hg) as [(e & He & _) _]; [by left|]. congruence.
  - split; [done|]. intros key info. simpl. by rewrite lookup_empty.
Qed.

Lemma dedup_missing_file_is_skipped_witness :
  let '(unique_files, path_mapping) :=
    deduplicate_media_files_byhash bytes_digest lone_fs input_order
      [a_file; b_file] in
  path_mapping !! "/d1/a.png" = None
  /\ forall key info, unique_files !! key = Some info -> u_src_path info <> "/d1/a.png".
Proof.
  apply (dedup_missing_file_is_skipped bytes_digest lone_fs input_order
           [a_file; b_file] "/d1/a.png").
  - intros l. reflexivity.
  - vm_compute. reflexivity.
Defined.

(** X15.  A file that is the only one of its size among the input paths
    is never hashed: it always receives a destination, built from one of
    its own records, even when it cannot be opened. *)
Theorem dedup_lone_size_is_never_hashed md5_hexdigest fs completion
    (all_media_files : list media_file) (p : string) (e : fs_entry) :
  (forall l, completion l ≡ₚ l) ->
  p ∈ src_path <$> all_media_files ->
  fs !! p = Some e ->
  (forall q e', q ∈ src_path <$> all_media_files -> fs !! q = Some e' ->
                length (content e') = length (content e) -> q = p) ->
  let path_mapping :=
    (deduplicate_media_files_byhash md5_hexdigest fs completion
       all_media_files).2 in
  exists mf idx,
    mf ∈ all_media_files /\ src_path mf = p
    /\ path_mapping !! p = Some (destination (info_of mf idx)).
Proof.
  intros Hperm Hp He Halone.
  unfold deduplicate_media_files_byhash. cbn [snd].
  destruct (group_by_size_spec fs all_media_files) as (Hkeys & Hfiles & Hnodup & Hall).
  destruct (Hall p e Hp He) as (g & mf & Hg & Hin & Hsrc).
  assert (forall mf', mf' ∈ g -> src_path mf' = p) as Hsame.
  { intros mf' Hmf'. destruct (Hfiles _ _ _ Hg Hmf') as [(e' & He' & Hk') Hl].
    apply (Halone _ e'); [|done|done].
    apply list_elem_of_fmap. by exists mf'. }
  assert (g = [mf]) as ->.
  { assert (length g <= 1)%nat as Hlen.
    { rewrite <- (length_fmap src_path). apply (NoDup_constant _ p).
      - by eapply Hnodup.
      - intros y (mf' & -> & Hmf')%list_elem_of_fmap. by apply Hsame. }
    destruct g as [|a [|b g]].
    - by apply elem_of_nil in Hin.
    - by apply list_elem_of_singleton in Hin as ->.
    - simpl in Hlen. lia. }
  assert (mf ∈ all_media_files) as Hmf by (by destruct (Hfiles _ _ _ Hg Hin)).
  remember (group_by_size fs all_media_files) as groups eqn:Hgroups.
  clear Hgroups Hall.
  apply list_elem_of_split in Hg as (pre & post & ->).
  assert (forall k' g' mf', (k', g') ∈ pre ++ (length (content e), [mf]) :: post ->
            mf' ∈ g' -> sized fs k' mf') as Hsized.
  { intros k' g' mf' Hk' Hmf'. by destruct (Hfiles k' g' mf' Hk' Hmf'). }
  rewrite foldl_app. cbn [foldl].
  rewrite (dedup_groups_frame md5_hexdigest fs completion Hperm post).
  2:{ by eapply (later_groups_apart fs pre post _ [mf] p e). }
  cbn [dedup_group]. unfold add_unique, bump. cbn [fst path_mapping].
  eexists mf, _. split_and!; [done|done|].
  rewrite <- Hsrc, lookup_insert_eq. reflexivity.
Qed.

Lemma dedup_lone_size_is_never_hashed_witness :
  get_file_hash bytes_digest lone_fs "/d1/b.png" = None
  /\ let path_mapping :=
       (deduplicate_media_files_byhash bytes_digest lone_fs input_order
          [a_file; b_file]).2 in
     exists mf idx,
       mf ∈ [a_file; b_file] /\ src_path mf = "/d1/b.png"
       /\ path_mapping !! "/d1/b.png" = Some (destination (info_of mf idx)).
Proof.
  split; [vm_compute; reflexivity|].
  apply (dedup_lone_size_is_never_hashed bytes_digest lone_fs input_order
           [a_file; b_file] "/d1/b.png" (FsEntry [x64; x65; x66] false)).
  - intros l. reflexivity.
  - vm_compute. right. left.
  - vm_compute. reflexivity.
  - intros q e' _ Hq _. unfold lone_fs in Hq.
    apply lookup_singleton_Some in Hq as [<- _]. reflexivity.
Defined.

End DedupMore.

(** ** Dynamic scheduler: termination for every well-founded task tree,
       tasks left behind, and plain single-pass transforms *)

Module DynamicMore.
Import Parallel ListFacts DynamicProps.

(** *** Ranked task trees *)

(** A rank bounds the work a task can still cause: a queued task weighs
    one more than the task held by a worker. *)
Definition queued_rank (rank : task -> nat) (x : option task) : nat :=
  match x with
  | Some t => S (rank t)
  | None => 1
  end.

Definition held_rank (rank : task -> nat) (st : dstate) : nat :=
  match st with
  | DBusy t => rank t
  | _ => 0
  end.

Definition rank_left (rank : task -> nat) (s : dstate_pool) : nat :=
  sum_list (queued_rank rank <$> task_queue s)
  + sum_list (held_rank rank <$> d_workers s).

Definition rank_potential (rank : task -> nat) (s : dstate_pool) : nat :=
  rank_left rank s * (6 * length (d_workers s) + 1)
  + sum_list (idle_weight (bool_decide (task_queue s = [])) <$> d_workers s).

(** The rank of the scenario of the specification. *)
Definition two_turn_rank (t : task) : nat := if decide (turn t = 0) then 3 else 1.

Section Ranked.
Variable func : nat -> task -> outcome fn_result.
Variable rank : task -> nat.
Hypothesis rank_pos : forall t, (1 <= rank t)%nat.
Hypothesis rank_drops : forall w t result,
  func w t = Returned result ->
  (sum_list (queued_rank rank <$> fr_next_tasks result) < rank t)%nat.

Lemma ranked_step_potential e s s' :
  dyn_step func e s = Some s' ->
  (rank_potential rank s' < rank_potential rank s)%nat.
Proof.
  intros Hstep. unfold rank_potential, rank_left.
  apply dyn_step_cases in Hstep
    as [(w & x & rest & -> & Hw & Hq & ->)
       |[(w & t & -> & Hw & ->)
        |[(w & -> & Hw & Hq & ->)
         |(w & k & -> & Hw & ->)]]].
  - (* DGet *)
    cbn [task_queue d_workers]. rewrite Hq, length_insert.
    set (new := match x with Some t => DBusy t | None => DExited end).
    pose proof (sum_list_insert (held_rank rank) _ _ _ new Hw) as Hheld.
    pose proof (sum_list_insert (idle_weight false) _ _ _ new Hw) as Hidle.
    destruct (idle_weight_flags (<[w := new]> (d_workers s))
                (bool_decide (rest = []))) as (_ & Hflag & _).
    assert (queued_rank rank x = S (held_rank rank new)) as Hx
      by (unfold new; by destruct x).
    assert (idle_weight false new <= 5)%nat as Hnew
      by (unfold new; destruct x; simpl; lia).
    rewrite (bool_decide_eq_false_2 (x :: rest = [])) by done.
    rewrite fmap_cons, sum_list_cons. cbn [held_rank idle_weight] in Hheld, Hidle.
    apply potential_drops; lia.
  - (* DCall *)
    pose proof (sum_list_insert (held_rank rank) _ _ _ DWaiting Hw) as Hheld.
    destruct (idle_weight_flags (d_workers s) (bool_decide (task_queue s = [])))
      as (Hlow & _ & _).
    pose proof (sum_list_insert (idle_weight true) _ _ _ DWaiting Hw) as Hidle.
    cbn [held_rank idle_weight] in Hheld, Hidle.
    pose proof (rank_pos t) as Hpos.
    destruct (func w t) as [result|] eqn:Hcall;
      cbn [task_queue d_workers]; rewrite length_insert.
    + pose proof (rank_drops w t result Hcall) as Hdrop.
      rewrite fmap_app, sum_list_app.
      destruct (idle_weight_flags (<[w := DWaiting]> (d_workers s))
                  (bool_decide (task_queue s ++ fr_next_tasks result = [])))
        as (_ & Hflag & Hhigh).
      rewrite length_insert in Hhigh.
      apply potential_drops; lia.
    + destruct (idle_weight_flags (<[w := DWaiting]> (d_workers s))
                  (bool_decide (task_queue s = [])))
        as (_ & Hflag & Hhigh).
      rewrite length_insert in Hhigh.
      apply potential_drops; lia.
  - (* DTimeout *)
    cbn [task_queue d_workers]. rewrite Hq, length_insert.
    pose proof (sum_list_insert (held_rank rank) _ _ _ (DPolling 0) Hw) as Hheld.
    pose proof (sum_list_insert (idle_weight true) _ _ _ (DPolling 0) Hw) as Hidle.
    rewrite (bool_decide_eq_true_2 (@nil (option task) = [])) by done.
    cbn [held_rank idle_weight] in Hheld, Hidle.
    apply potential_idles; lia.
  - (* DCheck *)
    cbn [task_queue d_workers]. rewrite length_insert.
    set (new := match task_queue s with
                | [] => if decide (k < 2)%nat then DPolling (S k) else DExited
                | _ :: _ => DWaiting
                end).
    pose proof (sum_list_insert (held_rank rank) _ _ _ new Hw) as Hheld.
    pose proof (sum_list_insert
                  (idle_weight (bool_decide (task_queue s = []))) _ _ _ new Hw)
      as Hidle.
    assert (held_rank rank new = 0)%nat as Hnew0.
    { unfold new. destruct (task_queue s); [case_decide|]; done. }
    assert (idle_weight (bool_decide (task_queue s = [])) new
            < idle_weight (bool_decide (task_queue s = [])) (DPolling k))%nat
      as Hnew.
    { unfold new. destruct (task_queue s); simpl; [case_decide; simpl|]; lia. }
    cbn [held_rank] in Hheld.
    apply potential_idles; lia.
Qed.

Lemma ranked_run_potential sched s s' :
  dyn_run func sched s = Some s' ->
  (length sched + rank_potential rank s' <= rank_potential rank s)%nat.
Proof.
  revert s. induction sched as [|e sched IH]; intros s; simpl.
  - intros [= ->]. lia.
  - destruct (dyn_step func e s) as [s1|] eqn:Hstep; [|done].
    intros Hrun%IH. apply ranked_step_potential in Hstep. lia.
Qed.

Lemma ranked_run_completes s :
  exists sched s', dyn_run func sched s = Some s' /\ all_exited s'.
Proof.
  remember (rank_potential rank s) as p eqn:Hp. revert s Hp.
  induction p as [p IH] using lt_wf_ind. intros s ->.
  destruct (exited_or_live s) as [Hdone|(w & st & Hw & Hlive)].
  - by exists [], s.
  - destruct (live_worker_steps func s w st Hw Hlive) as (e & s1 & Hstep).
    destruct (IH _ (ranked_step_potential _ _ _ Hstep) s1 eq_refl)
      as (sched & s' & Hrun & Hexit).
    exists (e :: sched), s'. simpl. by rewrite Hstep.
Qed.

Lemma ranked_init_potential initial_tasks num_workers :
  (rank_potential rank (dyn_init initial_tasks num_workers)
   <= sum_list (queued_rank rank <$> initial_tasks) * (6 * num_workers + 1)
      + 5 * num_workers)%nat.
Proof.
  unfold rank_potential, rank_left, dyn_init.
  destruct initial_tasks as [|x tasks]; [simpl; lia|].
  cbn [task_queue d_workers]. rewrite length_replicate.
  assert (forall n, sum_list (held_rank rank <$> replicate n DWaiting) = 0%nat)
    as -> by (induction n; csimpl; done).
  assert (forall b n, sum_list (idle_weight b <$> replicate n DWaiting)
                      = 5 * n)%nat as ->.
  { intros b. induction n as [|n IH]; csimpl; [done|]. rewrite IH. lia. }
  lia.
Qed.

Lemma ranked_returns initial_tasks num_workers sched s :
  dyn_run func sched (dyn_init initial_tasks num_workers) = Some s ->
  exists sched' returned,
    dynamic_task_pool_multiprocess func initial_tasks num_workers (sched ++ sched')
    = Some returned.
Proof.
  intros Hrun. destruct (ranked_run_completes s) as (sched' & s' & Hrun' & Hexit).
  exists sched', (d_result_queue s'). unfold dynamic_task_pool_multiprocess.
  rewrite dyn_run_app, Hrun. simpl. rewrite Hrun'.
  apply joined_all_exited in Hexit. by rewrite Hexit.
Qed.
End Ranked.

(** X16.  The scheduler terminates on every well-founded task tree: if a
    rank of at least 1 can be given to the tasks such that the follow-up
    tasks of a call weigh less than the task itself, then every run is
    finite, with a bound that depends on the initial tasks and the number
    of workers only, and every run can be continued until the wrapper
    returns. *)
Theorem dynamic_pool_terminates (func : nat -> task -> outcome fn_result)
    (rank : task -> nat) (initial_tasks : list (option task))
    (num_workers : nat) (sched : list devent) (s : dstate_pool) :
  (forall t, (1 <= rank t)%nat) ->
  (forall w t result,
     func w t = Returned result ->
     (sum_list (queued_rank rank <$> fr_next_tasks result) < rank t)%nat) ->
  dyn_run func sched (dyn_init initial_tasks num_workers) = Some s ->
  (length sched
   <= sum_list (queued_rank rank <$> initial_tasks) * (6 * num_workers + 1)
      + 5 * num_workers)%nat
  /\ exists sched' returned,
       dynamic_task_pool_multiprocess func initial_tasks num_workers
         (sched ++ sched') = Some returned.
Proof.
  intros Hpos Hdrops Hrun. split.
  - pose proof (ranked_run_potential func rank Hpos Hdrops _ _ _ Hrun).
    pose proof (ranked_init_potential rank initial_tasks num_workers). lia.
  - by eapply ranked_returns.
Qed.

Lemma two_turn_rank_drops w t result :
  two_turn_func w t = Returned result ->
  (sum_list (queued_rank two_turn_rank <$> fr_next_tasks result) < two_turn_rank t)%nat.
Proof.
  unfold two_turn_func, two_turn_rank.
  case_decide; intros [= <-]; vm_compute; lia.
Qed.

Lemma dynamic_pool_terminates_witness :
  (length [DGet 0; DCall 0; DGet 0] <= 4 * (6 * 1 + 1) + 5 * 1)%nat
  /\ exists sched' returned,
       dynamic_task_pool_multiprocess two_turn_func [Some turn0_task] 1
         ([DGet 0; DCall 0; DGet 0] ++ sched') = Some returned.
Proof.
  apply (dynamic_pool_terminates two_turn_func two_turn_rank [Some turn0_task] 1
           [DGet 0; DCall 0; DGet 0]
           (DPool [] [partial_result] [DBusy turn1_task])).
  - intros t. unfold two_turn_rank. case_decide; lia.
  - apply two_turn_rank_drops.
  - reflexivity.
Defined.

(** *** The calls of a run *)

(** What a worker holds. *)
Definition busy_of (st : dstate) : list task :=
  match st with
  | DBusy t => [t]
  | _ => []
  end.

(** The call of [func] an event stands for, if any: worker and task. *)
Definition call_of (e : devent) (s : dstate_pool) : list (nat * task) :=
  match e with
  | DCall w =>
      match d_workers s !! w with
      | Some (DBusy t) => [(w, t)]
      | _ => []
      end
  | _ => []
  end.

Section Calls.
Variable func : nat -> task -> outcome fn_result.

(** The calls a run makes, in order. *)
Fixpoint dyn_calls (sched : list devent) (s : dstate_pool) : list (nat * task) :=
  match sched with
  | [] => []
  | e :: sched' =>
      match dyn_step func e s with
      | Some s' => call_of e s ++ dyn_calls sched' s'
      | None => []
      end
  end.

(** What one call puts on the result queue, and on the task queue. *)
Definition produced_by (c : nat * task) : list dyn_result :=
  match func c.1 c.2 with
  | Returned result =>
      match fr_result result with
      | Some r => [DynResult (task_id c.2) (item_id c.2) (turn c.2) r]
      | None => []
      end
  | Raised => []
  end.

Definition next_of (c : nat * task) : list (option task) :=
  match func c.1 c.2 with
  | Returned result => fr_next_tasks result
  | Raised => []
  end.

Lemma busy_insert (ws : list dstate) w old new :
  ws !! w = Some old ->
  (<[w := new]> ws ≫= busy_of) ++ busy_of old ≡ₚ (ws ≫= busy_of) ++ busy_of new.
Proof.
  revert w. induction ws as [|st ws IH]; intros [|w] Hw; simplify_eq/=.
  - solve_Permutation.
  - rewrite <- !(assoc_L (++)). f_equiv. by apply IH.
Qed.

(** The result queue holds what the calls produced, in call order. *)
Lemma run_results sched s s' :
  dyn_run func sched s = Some s' ->
  d_result_queue s' = d_result_queue s ++ (dyn_calls sched s ≫= produced_by).
Proof.
  revert s. induction sched as [|e sched IH]; intros s; cbn [dyn_run dyn_calls].
  - intros [= ->]. by rewrite app_nil_r.
  - destruct (dyn_step func e s) as [s1|] eqn:Hstep; [|done].
    intros Hrun. rewrite (IH _ Hrun).
    apply dyn_step_cases in Hstep
      as [(w & x & rest & -> & Hw & Hq & ->)
         |[(w & t & -> & Hw & ->)
          |[(w & -> & Hw & Hq & ->)
           |(w & k & -> & Hw & ->)]]]; cbn [call_of]; try done.
    rewrite Hw. csimpl. unfold produced_by at 2. cbn [fst snd].
    destruct (func w t) as [result|]; cbn [d_result_queue].
    + by rewrite <- (assoc_L (++)).
    + done.
Qed.

(** Tasks are neither lost nor duplicated by an event ... *)
Lemma step_tasks e s s1 :
  dyn_step func e s = Some s1 ->
  (call_of e s).*2 ++ (d_workers s1 ≫= busy_of) ++ omap id (task_queue s1)
  ≡ₚ (d_workers s ≫= busy_of) ++ omap id (task_queue s)
     ++ omap id (call_of e s ≫= next_of).
Proof.
  intros Hstep.
  apply dyn_step_cases in Hstep
    as [(w & x & rest & -> & Hw & Hq & ->)
       |[(w & t & -> & Hw & ->)
        |[(w & -> & Hw & Hq & ->)
         |(w & k & -> & Hw & ->)]]]; cbn [call_of].
  - (* DGet *)
    cbn [d_workers task_queue]. rewrite Hq. csimpl. rewrite app_nil_r.
    pose proof (busy_insert (d_workers s) w DWaiting
                  (match x with Some t => DBusy t | None => DExited end) Hw)
      as Hbusy.
    cbn [busy_of] in Hbusy. rewrite app_nil_r in Hbusy. rewrite Hbusy.
    destruct x as [t|]; csimpl; [|by rewrite app_nil_r].
    by rewrite <- (assoc_L (++)).
  - (* DCall *)
    rewrite Hw. csimpl. rewrite app_nil_r. unfold next_of. cbn [fst snd].
    pose proof (busy_insert (d_workers s) w (DBusy t) DWaiting Hw) as Hbusy.
    cbn [busy_of] in Hbusy. rewrite app_nil_r in Hbusy. rewrite <- Hbusy.
    destruct (func w t) as [result|]; cbn [d_workers task_queue].
    + rewrite omap_app, <- !(assoc_L (++)).
      apply Permutation_middle.
    + csimpl. rewrite app_nil_r, <- !(assoc_L (++)).
      apply Permutation_middle.
  - (* DTimeout *)
    cbn [d_workers task_queue]. rewrite Hq. csimpl.
    pose proof (busy_insert (d_workers s) w DWaiting (DPolling 0) Hw) as Hbusy.
    cbn [busy_of] in Hbusy. rewrite !app_nil_r in Hbusy. by rewrite Hbusy.
  - (* DCheck *)
    cbn [d_workers task_queue]. csimpl. rewrite app_nil_r.
    set (new := match task_queue s with
                | [] => if decide (k < 2)%nat then DPolling (S k) else DExited
                | _ :: _ => DWaiting
                end).
    pose proof (busy_insert (d_workers s) w (DPolling k) new Hw) as Hbusy.
    assert (busy_of new = []) as Hnew.
    { unfold new. destruct (task_queue s); [case_decide|]; done. }
    cbn [busy_of] in Hbusy. rewrite Hnew, !app_nil_r in Hbusy. by rewrite Hbusy.
Qed.

(** ... nor by a run: the tasks called, held or queued are those held or
    queued at the start and the follow-ups of the calls. *)
Lemma run_tasks sched s s' :
  dyn_run func sched s = Some s' ->
  (dyn_calls sched s).*2 ++ (d_workers s' ≫= busy_of) ++ omap id (task_queue s')
  ≡ₚ (d_workers s ≫= busy_of) ++ omap id (task_queue s)
     ++ omap id (dyn_calls sched s ≫= next_of).
Proof.
  revert s. induction sched as [|e sched IH]; intros s; cbn [dyn_run dyn_calls].
  - intros [= ->]. csimpl. by rewrite app_nil_r.
  - destruct (dyn_step func e s) as [s1|] eqn:Hstep; [|done].
    intros Hrun. specialize (IH _ Hrun). apply step_tasks in Hstep.
    rewrite fmap_app, bind_app, omap_app.
    rewrite <- (assoc_L (++) _.*2), IH.
    rewrite !(assoc_L (++)). rewrite !(assoc_L (++)) in Hstep.
    by rewrite Hstep.
Qed.

(** While no marker is queued, a non-empty queue has a worker to take it. *)
Definition attended (s : dstate_pool) : Prop :=
  (None ∉ task_queue s)
  /\ (task_queue s = []
      \/ exists w st, d_workers s !! w = Some st /\ st <> DExited).

Hypothesis no_markers : forall w t result,
  func w t = Returned result -> None ∉ fr_next_tasks result.

Lemma step_attended e s s' :
  dyn_step func e s = Some s' -> attended s -> attended s'.
Proof.
  intros Hstep [Hnone Hlive].
  apply dyn_step_cases in Hstep
    as [(w & x & rest & -> & Hw & Hq & ->)
       |[(w & t & -> & Hw & ->)
        |[(w & -> & Hw & Hq & ->)
         |(w & k & -> & Hw & ->)]]];
    pose proof (lookup_lt_Some _ _ _ Hw) as Hlt.
  - rewrite Hq in Hnone. apply not_elem_of_cons in Hnone as [Hx Hrest].
    destruct x as [t|]; [|done]. split; [done|]. right.
    exists w, (DBusy t). cbn [d_workers]. by rewrite list_lookup_insert_eq.
  - destruct (func w t) as [result|] eqn:Hcall.
    + split; cbn [task_queue d_workers].
      * rewrite elem_of_app. intros [?|?]; [done|]. by eapply no_markers.
      * right. exists w, DWaiting. by rewrite list_lookup_insert_eq.
    + split; [done|]. right. exists w, DWaiting. cbn [d_workers].
      by rewrite list_lookup_insert_eq.
  - split; cbn [task_queue]; [apply not_elem_of_nil|by left].
  - split; [done|]. cbn [task_queue d_workers].
    destruct (task_queue s) as [|x rest]; [by left|]. right.
    exists w, DWaiting. by rewrite list_lookup_insert_eq.
Qed.

Lemma run_attended sched s s' :
  dyn_run func sched s = Some s' -> attended s -> attended s'.
Proof.
  revert s. induction sched as [|e sched IH]; intros s; simpl.
  - by intros [= ->].
  - destruct (dyn_step func e s) as [s1|] eqn:Hstep; [|done].
    intros Hrun Hs. eapply IH; [done|]. by eapply step_attended.
Qed.

Lemma attended_all_exited s :
  attended s -> all_exited s ->
  task_queue s = [] /\ d_workers s ≫= busy_of = [].
Proof.
  intros [_ Hlive] Hexit. unfold all_exited in Hexit. split.
  - destruct Hlive as [?|(w & st & Hw & Hst)]; [done|].
    rewrite Forall_lookup in Hexit. by specialize (Hexit _ _ Hw).
  - clear Hlive. induction Hexit as [|st ws Hst _ IH]; [done|].
    subst st. csimpl. exact IH.
Qed.
End Calls.

(** X17.  Every task is called exactly once: if no call hands back a
    [None] among its follow-up tasks, the initial tasks hold no [None] and
    there is at least one worker, then whenever the wrapper returns, the
    tasks it has called are, up to order, the initial tasks together with
    all follow-up tasks of those calls; nothing is left on the queue.  The
    list it returns holds what these calls produced, in the order of the
    calls. *)
Theorem dynamic_pool_calls_every_task_once
    (func : nat -> task -> outcome fn_result)
    (initial_tasks : list (option task)) (num_workers : nat)
    (sched : list devent) (returned : list dyn_result) :
  (forall w t result, func w t = Returned result -> None ∉ fr_next_tasks result) ->
  None ∉ initial_tasks ->
  (1 <= num_workers)%nat ->
  dynamic_task_pool_multiprocess func initial_tasks num_workers sched
  = Some returned ->
  let calls := dyn_calls func sched (dyn_init initial_tasks num_workers) in
  Some <$> calls.*2 ≡ₚ initial_tasks ++ (calls ≫= next_of func)
  /\ returned = calls ≫= produced_by func
  /\ (exists s, dyn_run func sched (dyn_init initial_tasks num_workers) = Some s
                /\ task_queue s = []).
Proof.
  intros Hmarkers Hnone Hn. unfold dynamic_task_pool_multiprocess.
  destruct (dyn_run func sched _) as [s|] eqn:Hrun; [|done].
  destruct (forallb has_exited (d_workers s)) eqn:Hexit; [|done].
  intros [= <-]. apply joined_all_exited in Hexit. cbv zeta.
  assert (attended (dyn_init initial_tasks num_workers)) as Hinit.
  { unfold dyn_init. destruct initial_tasks as [|x tasks].
    - split; [apply not_elem_of_nil|by left].
    - split; [done|]. right. exists 0%nat, DWaiting. cbn [d_workers].
      split; [|done]. destruct num_workers; [lia|done]. }
  pose proof (run_attended func Hmarkers _ _ _ Hrun Hinit) as Hs.
  destruct (attended_all_exited s Hs Hexit) as [Hqueue Hbusy].
  assert (forall l : list (option task), None ∉ l -> Some <$> omap id l = l) as Hsome.
  { induction l as [|[t|] l IH]; csimpl; intros Hl; [done| |set_solver].
    f_equal. apply IH. set_solver. }
  assert (None ∉ dyn_calls func sched (dyn_init initial_tasks num_workers)
                 ≫= next_of func) as Hnext.
  { intros (c & Hc & _)%list_elem_of_bind. unfold next_of in Hc.
    destruct (func c.1 c.2) as [result|] eqn:Hcall.
    - by eapply Hmarkers.
    - by apply elem_of_nil in Hc. }
  split_and!.
  - pose proof (run_tasks func _ _ _ Hrun) as Htasks.
    rewrite Hqueue, Hbusy in Htasks. csimpl in Htasks.
    rewrite !app_nil_r in Htasks.
    assert (d_workers (dyn_init initial_tasks num_workers) ≫= busy_of = []) as Hidle.
    { unfold dyn_init. destruct initial_tasks; [done|]. cbn [d_workers].
      clear. induction num_workers; [done|]. by csimpl. }
    rewrite Hidle, app_nil_l in Htasks.
    assert (task_queue (dyn_init initial_tasks num_workers) = initial_tasks) as Hq0.
    { unfold dyn_init. by destruct initial_tasks. }
    rewrite Hq0 in Htasks.
    rewrite Htasks, fmap_app, !Hsome by done. done.
  - pose proof (run_results func _ _ _ Hrun) as Hres.
    assert (d_result_queue (dyn_init initial_tasks num_workers) = []) as Hr0.
    { unfold dyn_init. by destruct initial_tasks. }
    by rewrite Hr0 in Hres.
  - by exists s.
Qed.

Lemma dynamic_pool_calls_every_task_once_witness :
  let sched := [DGet 0; DCall 0; DGet 0; DCall 0; DTimeout 0;
                DCheck 0; DCheck 0; DCheck 0] in
  let calls := dyn_calls two_turn_func sched (dyn_init [Some turn0_task] 1) in
  Some <$> calls.*2 ≡ₚ [Some turn0_task] ++ (calls ≫= next_of two_turn_func)
  /\ [partial_result; final_result] = calls ≫= produced_by two_turn_func
  /\ (exists s, dyn_run two_turn_func sched (dyn_init [Some turn0_task] 1) = Some s
                /\ task_queue s = []).
Proof.
  apply (dynamic_pool_calls_every_task_once two_turn_func [Some turn0_task] 1
           [DGet 0; DCall 0; DGet 0; DCall 0; DTimeout 0;
            DCheck 0; DCheck 0; DCheck 0] [partial_result; final_result]).
  - intros w t result. unfold two_turn_func.
    case_decide; intros [= <-]; cbn [fr_next_tasks];
      [intros [=]%list_elem_of_singleton|apply not_elem_of_nil].
  - intros [=]%list_elem_of_singleton.
  - lia.
  - reflexivity.
Defined.

(** X18.  Without workers the wrapper returns the empty list at once,
    whatever the tasks: no event of the pool can happen, so no task is
    ever called, and the tasks are dropped without an error. *)
Theorem dynamic_pool_without_workers (func : nat -> task -> outcome fn_result)
    (initial_tasks : list (option task)) (sched : list devent) :
  dynamic_task_pool_multiprocess func initial_tasks 0 sched
  = match sched with
    | [] => Some []
    | _ :: _ => None
    end.
Proof.
  unfold dynamic_task_pool_multiprocess.
  assert (d_workers (dyn_init initial_tasks 0) = []
          /\ d_result_queue (dyn_init initial_tasks 0) = []) as [Hw Hr].
  { unfold dyn_init. by destruct initial_tasks. }
  destruct sched as [|e sched]; cbn [dyn_run].
  - by rewrite Hw, Hr.
  - assert (dyn_step func e (dyn_init initial_tasks 0) = None) as ->; [|done].
    unfold dyn_step. rewrite Hw. by destruct e.
Qed.

End DynamicMore.

(** ** The caller-side reduction ([process_turn_hook]): independence of
       the order of the results, and the count of successes and failures *)

Module ReductionMore.
Import Parallel DynamicProps.

(** What identifies a result: its item and its turn. *)
Definition turn_key (r : dyn_result) : string * Z := (dr_item_id r, dr_turn r).

(** [for item_id, last_result in item_results.items()]: an item is
    successful when the result kept for it holds a value. *)
Definition classify_step (item_id : string) (last_result : dyn_result)
    (acc : gset string * gset string) : gset string * gset string :=
  match dr_result last_result with
  | Some _ => (acc.1 ∪ {[item_id]}, acc.2)
  | None => (acc.1, acc.2 ∪ {[item_id]})
  end.

(** The pair [(successful_items, failed_items)]. *)
Definition classify (item_results : gmap string dyn_result)
    : gset string * gset string :=
  map_fold classify_step (∅, ∅) item_results.

Lemma NoDup_fmap_eq {A B} (f : A -> B) (l : list A) x y :
  NoDup (f <$> l) -> x ∈ l -> y ∈ l -> f x = f y -> x = y.
Proof.
  induction l as [|a l IH]; csimpl; intros Hnd Hx Hy Hf.
  - by apply elem_of_nil in Hx.
  - apply NoDup_cons in Hnd as [Ha Hnd].
    apply elem_of_cons in Hx as [->|Hx]; apply elem_of_cons in Hy as [->|Hy].
    + done.
    + exfalso. apply Ha. rewrite Hf. by apply list_elem_of_fmap_2.
    + exfalso. apply Ha. rewrite <- Hf. by apply list_elem_of_fmap_2.
    + by apply IH.
Qed.

(** X19.  The reduction does not depend on the order in which the
    scheduler returned the results, as long as no item has two results
    for the same turn: two result lists that are permutations of one
    another then reduce to the same table. *)
Theorem reduction_ignores_result_order (results results' : list dyn_result) :
  results ≡ₚ results' ->
  NoDup (turn_key <$> results) ->
  item_results results = item_results results'.
Proof.
  intros Hperm Hnd. apply map_eq. intros id.
  pose proof (item_results_highest results id) as H1.
  pose proof (item_results_highest results' id) as H2.
  destruct (item_results results !! id) as [k1|],
           (item_results results' !! id) as [k2|].
  - destruct H1 as (Hin1 & Hid1 & Hmax1), H2 as (Hin2 & Hid2 & Hmax2).
    f_equal. apply (NoDup_fmap_eq turn_key results); [done|done|by rewrite Hperm|].
    unfold turn_key. f_equal; [congruence|].
    assert (dr_turn k2 <= dr_turn k1) by (apply Hmax1; [by rewrite Hperm|done]).
    assert (dr_turn k1 <= dr_turn k2) by (apply Hmax2; [by rewrite <- Hperm|done]).
    lia.
  - destruct H1 as (Hin1 & Hid1 & _). exfalso.
    apply (H2 k1); [by rewrite <- Hperm|done].
  - destruct H2 as (Hin2 & Hid2 & _). exfalso.
    apply (H1 k2); [by rewrite Hperm|done].
  - done.
Qed.

Lemma reduction_ignores_result_order_witness :
  item_results [partial_result; final_result]
  = item_results [final_result; partial_result].
Proof.
  apply (reduction_ignores_result_order [partial_result; final_result]
           [final_result; partial_result]).
  - apply perm_swap.
  - vm_compute. repeat constructor.
    + intros [Heq|Hin]%elem_of_cons; [discriminate|by apply elem_of_nil in Hin].
    + apply not_elem_of_nil.
Defined.

(** The classification of a table, item by item. *)
Lemma classify_spec (m : gmap string dyn_result) :
  (forall id, id ∈ (classify m).1
              <-> exists kept v, m !! id = Some kept /\ dr_result kept = Some v)
  /\ (forall id, id ∈ (classify m).2
                 <-> exists kept, m !! id = Some kept /\ dr_result kept = None).
Proof.
  unfold classify.
  apply (map_fold_weak_ind
           (fun acc m =>
              (forall id, id ∈ acc.1
                 <-> exists kept v, m !! id = Some kept /\ dr_result kept = Some v)
              /\ (forall id, id ∈ acc.2
                    <-> exists kept, m !! id = Some kept /\ dr_result kept = None))).
  - split; intros id; cbn [fst snd]; rewrite elem_of_empty.
    + split; [done|]. intros (? & ? & Hm & _). by rewrite lookup_empty in Hm.
    + split; [done|]. intros (? & Hm & _). by rewrite lookup_empty in Hm.
  - intros i x m' [succ fail] Hnone [Hs Hf]. cbn [fst snd] in *.
    unfold classify_step. cbn [fst snd].
    destruct (dr_result x) as [v|] eqn:Hx; cbn [fst snd]; split; intros id;
      rewrite ?elem_of_union, ?elem_of_singleton, ?Hs, ?Hf;
      (destruct (decide (id = i)) as [->|Hne];
       [rewrite lookup_insert_eq|rewrite lookup_insert_ne by done]).
    + split; [intros _; by exists x, v|by right].
    + split; [intros [?|?]; done|by left].
    + rewrite Hnone. split.
      * intros (? & [=] & _).
      * intros (kept & [= <-] & ?). congruence.
    + done.
    + rewrite Hnone. split.
      * intros (? & ? & [=] & _).
      * intros (kept & ? & [= <-] & ?). congruence.
    + done.
    + split; [intros _; by exists x|by right].
    + split; [intros [?|?]; done|by left].
Qed.

(** X20.  The final statistics: an item is counted as successful exactly
    when the result kept for it (one of its highest turn) holds a value,
    and as failed exactly when that result holds [None]; no item is
    counted twice, and the items counted are exactly those that occur in
    the results. *)
Theorem reduction_counts_last_turns (results : list dyn_result) :
  let '(successful_items, failed_items) := classify (item_results results) in
  (forall id, id ∈ successful_items
     <-> exists kept v,
           item_results results !! id = Some kept /\ dr_result kept = Some v)
  /\ (forall id, id ∈ failed_items
        <-> exists kept,
              item_results results !! id = Some kept /\ dr_result kept = None)
  /\ successful_items ## failed_items
  /\ (forall id, id ∈ successful_items ∪ failed_items
        <-> id ∈ dr_item_id <$> results).
Proof.
  destruct (classify_spec (item_results results)) as [Hs Hf].
  destruct (classify (item_results results)) as [succ fail]. cbn [fst snd] in *.
  split_and!; [done|done| |].
  - intros id (k1 & v & Hk1 & Hv)%Hs (k2 & Hk2 & Hn)%Hf. congruence.
  - intros id. rewrite elem_of_union, Hs, Hf.
    pose proof (item_results_highest results id) as Hhigh.
    destruct (item_results results !! id) as [kept|]; split.
    + intros _. destruct Hhigh as (Hin & <- & _). by apply list_elem_of_fmap_2.
    + intros _. destruct (dr_result kept) as [v|] eqn:Hv.
      * left. by exists kept, v.
      * right. by exists kept.
    + intros [(? & ? & [=] & _)|(? & [=] & _)].
    + intros (r & -> & Hr)%list_elem_of_fmap. by destruct (Hhigh r Hr).
Qed.

End ReductionMore.

(** ** Splitting a JSONL file into parts ([scripts/split_jsonl.py]) *)

Module SplitJsonl.

(** A Python slice bound, normalised against the length. *)
Definition py_index (len i : Z) : Z :=
  if decide (i < 0) then Z.max (i + len) 0 else Z.min i len.

(** [l[start:stop]]. *)
Definition py_slice {A} (l : list A) (start stop : Z) : list A :=
  let len := Z.of_nat (length l) in
  let a := py_index len start in
  let b := py_index len stop in
  take (Z.to_nat (b - a)) (drop (Z.to_nat a) l).

(** [range(n)]. *)
Definition py_range (n : Z) : list Z := Z.of_nat <$> seq 0 (Z.to_nat n).

(** The result dictionary, by status; [Success] carries the samples
    written to each output file and [num_parts]. *)
Inductive split_result (A : Type) : Type :=
  | Skipped
  | NoSplitNeeded (total_samples : Z)
  | Success (output_files : list (list A)) (num_parts : Z)
  | Error.
Arguments Skipped {A}.
Arguments NoSplitNeeded {A} total_samples.
Arguments Success {A} output_files num_parts.
Arguments Error {A}.

(** [split_single_jsonl_file] on the samples read from the file; [Error]
    is the [except Exception] branch, reached here by the division. *)
Definition split_single_jsonl_file {A} (all_samples : list A) (max_samples : Z)
    : split_result A :=
  match all_samples with
  | [] => Skipped
  | _ =>
      let total_samples := Z.of_nat (length all_samples) in
      if decide (total_samples <= max_samples) then NoSplitNeeded total_samples
      else if decide (max_samples = 0) then Error
      else
        let num_parts := (total_samples + max_samples - 1) `div` max_samples in
        Success
          ((fun part_idx =>
              py_slice all_samples (part_idx * max_samples)
                (Z.min ((part_idx + 1) * max_samples) total_samples))
             <$> py_range num_parts)
          num_parts
  end.

(** The first [k] full-size windows of a list make up its first [k * m]
    elements. *)
Lemma windows_take {A} (l : list A) (m k : nat) :
  concat ((fun i => take m (drop (i * m) l)) <$> seq 0 k) = take (k * m) l.
Proof.
  induction k as [|k IH]; [done|].
  rewrite seq_S, fmap_app, concat_app, IH. csimpl. rewrite app_nil_r.
  rewrite take_take_drop. f_equal. lia.
Qed.

(** A slice with bounds inside the list. *)
Lemma py_slice_window {A} (l : list A) (i m : nat) :
  (0 < m)%nat -> (i * m < length l)%nat ->
  py_slice l (Z.of_nat i * Z.of_nat m)
    (Z.min ((Z.of_nat i + 1) * Z.of_nat m) (Z.of_nat (length l)))
  = take m (drop (i * m) l).
Proof.
  intros Hm Hi. unfold py_slice, py_index.
  destruct (decide (Z.of_nat i * Z.of_nat m < 0)); [lia|].
  destruct (decide (Z.min ((Z.of_nat i + 1) * Z.of_nat m) (Z.of_nat (length l)) < 0));
    [lia|].
  replace (Z.to_nat (Z.min (Z.of_nat i * Z.of_nat m) (Z.of_nat (length l))))
    with (i * m)%nat by lia.
  destruct (decide ((i + 1) * m <= length l)%nat) as [Hfull|Hlast].
  - f_equal. lia.
  - rewrite (take_ge _ m) by (rewrite length_drop; lia).
    rewrite take_ge; [done|]. rewrite length_drop. lia.
Qed.

(** X21.  Splitting loses nothing: for a limit of at least 1 and a file
    with more samples than the limit, the result is a success whose parts,
    read in order, are exactly the samples of the file; there are
    [ceil(total / limit)] parts, each holds at least one and at most
    [limit] samples, and [num_parts] is their number. *)
Theorem split_parts_partition_samples {A} (all_samples : list A) (max_samples : Z) :
  0 < max_samples ->
  max_samples < Z.of_nat (length all_samples) ->
  exists output_files num_parts,
    split_single_jsonl_file all_samples max_samples
    = Success output_files num_parts
    /\ concat output_files = all_samples
    /\ Z.of_nat (length output_files) = num_parts
    /\ (num_parts - 1) * max_samples < Z.of_nat (length all_samples)
       <= num_parts * max_samples
    /\ Forall (fun part => 1 <= Z.of_nat (length part) <= max_samples) output_files.
Proof.
  intros Hpos Hbig. unfold split_single_jsonl_file.
  destruct all_samples as [|x rest] eqn:Hall; [simpl in Hbig; lia|].
  rewrite <- Hall in *. clear Hall x rest.
  set (total := Z.of_nat (length all_samples)) in *.
  destruct (decide (total <= max_samples)) as [|_]; [lia|].
  destruct (decide (max_samples = 0)) as [|_]; [lia|].
  set (n := (total + max_samples - 1) `div` max_samples).
  assert ((n - 1) * max_samples < total <= n * max_samples) as Hn.
  { pose proof (Z.mul_div_le (total + max_samples - 1) max_samples Hpos) as Hlo.
    pose proof (Z.mul_succ_div_gt (total + max_samples - 1) max_samples Hpos) as Hhi.
    fold n in Hlo, Hhi. nia. }
  assert (0 < n) as Hn0 by nia.
  set (m := Z.to_nat max_samples).
  assert (max_samples = Z.of_nat m) as Hm by lia.
  assert ((fun part_idx : Z =>
             py_slice all_samples (part_idx * max_samples)
               (Z.min ((part_idx + 1) * max_samples) total)) <$> py_range n
          = (fun i => take m (drop (i * m) all_samples)) <$> seq 0 (Z.to_nat n))
    as Hparts.
  { unfold py_range. rewrite <- list_fmap_compose. apply list_fmap_ext.
    intros k i Hi%lookup_seq. destruct Hi as [-> Hlt]. cbn [compose].
    rewrite Hm. apply py_slice_window; [lia|]. simpl. nia. }
  eexists _, n. split; [reflexivity|]. rewrite Hparts. split_and!.
  - rewrite windows_take. apply take_ge. lia.
  - rewrite length_fmap, length_seq. lia.
  - lia.
  - lia.
  - apply Forall_fmap, Forall_forall. intros i [_ Hi]%elem_of_seq. cbn [compose].
    rewrite length_take, length_drop. nia.
Qed.

Lemma split_parts_partition_samples_witness :
  exists output_files num_parts,
    split_single_jsonl_file [1; 2; 3; 4; 5] 2 = Success output_files num_parts
    /\ concat output_files = [1; 2; 3; 4; 5]
    /\ Z.of_nat (length output_files) = num_parts
    /\ (num_parts - 1) * 2 < Z.of_nat (length [1; 2; 3; 4; 5]) <= num_parts * 2
    /\ Forall (fun part => 1 <= Z.of_nat (length part) <= 2) output_files.
Proof.
  apply (split_parts_partition_samples [1; 2; 3; 4; 5] 2).
  - lia.
  - simpl. lia.
Defined.

(** X22.  A limit below 1 is not rejected.  With limit 0 a non-empty file
    ends in the error status (the division fails).  With a negative limit
    a non-empty file is reported as a success although no sample is
    written to any part: every part is empty. *)
Theorem split_limit_below_one {A} (all_samples : list A) (max_samples : Z) :
  all_samples <> [] ->
  max_samples <= 0 ->
  match split_single_jsonl_file all_samples max_samples with
  | Error => max_samples = 0
  | Success output_files num_parts =>
      max_samples < 0 /\ concat output_files = []
  | _ => False
  end.
Proof.
  intros Hne Hmax. unfold split_single_jsonl_file.
  destruct all_samples as [|x rest] eqn:Hall; [done|].
  rewrite <- Hall in *. clear Hall x rest.
  assert (0 < Z.of_nat (length all_samples)) as Hlen.
  { destruct all_samples; [done|]. simpl. lia. }
  set (total := Z.of_nat (length all_samples)) in *.
  destruct (decide (total <= max_samples)) as [|_]; [lia|].
  destruct (decide (max_samples = 0)) as [|Hnz]; [done|].
  split; [lia|].
  set (n := (total + max_samples - 1) `div` max_samples).
  assert (n <= 0 \/ total = 1) as [Hn|Htotal].
  { pose proof (Z.div_mod (total + max_samples - 1) max_samples Hnz) as Hdiv.
    pose proof (Z.mod_neg_bound (total + max_samples - 1) max_samples) as Hmod.
    fold n in Hdiv. nia. }
  - unfold py_range. by replace (Z.to_nat n) with 0%nat by lia.
  - unfold py_range. rewrite <- list_fmap_compose.
    induction (seq 0 (Z.to_nat n)) as [|k idxs IH]; [done|].
    csimpl. rewrite IH, app_nil_r.
    unfold py_slice, py_index. fold total.
    apply length_zero_iff_nil. rewrite length_take, length_drop.
    destruct (decide (Z.of_nat k * max_samples < 0)),
             (decide (Z.min ((Z.of_nat k + 1) * max_samples) total < 0)); nia.
Qed.

Lemma split_limit_below_one_witness :
  match split_single_jsonl_file [1; 2; 3] (-5) with
  | Error => -5 = 0
  | Success output_files num_parts => -5 < 0 /\ concat output_files = []
  | _ => False
  end.
Proof.
  apply (split_limit_below_one [1; 2; 3] (-5)).
  - discriminate.
  - lia.
Defined.

End SplitJsonl.

(** ** From the unique-file table to the archive paths
       ([create_zip_files_streaming_optimized]) *)

Module ArchivePaths.
Import Dedup DedupMore.

(** A Python [dict] with its insertion order: [d[k] = v] replaces the value
    of an existing key in place and appends a new key at the end. *)
Fixpoint dict_set {V} (k : string) (v : V) (d : list (string * V))
    : list (string * V) :=
  match d with
  | [] => [(k, v)]
  | (k', v') :: d' =>
      if decide (k' = k) then (k, v) :: d' else (k', v') :: dict_set k v d'
  end.

(** [deduplicate_media_files_by_path], keeping the order of
    [unique_files]: the set of paths seen, the counters, the table. *)
Definition by_path_ordered_step
    (st : gset string * gmap (string * string) nat * list (string * unique_info))
    (mf : media_file)
    : gset string * gmap (string * string) nat * list (string * unique_info) :=
  let '(processed_paths, media_counters, unique_files) := st in
  if decide (src_path mf ∈ processed_paths) then st
  else
    let '(media_counters, idx) :=
      bump (dataset_name mf) (media_type mf) media_counters in
    (processed_paths ∪ {[src_path mf]}, media_counters,
     dict_set (src_path mf)
       (UniqueInfo (media_type mf) (src_path mf) idx (suffix mf) (size mf)
          (dataset_name mf))
       unique_files).

Definition by_path_ordered (all_media_files : list media_file)
    : list (string * unique_info) :=
  (foldl by_path_ordered_step (∅, ∅, []) all_media_files).2.

(** One iteration of [for file_hash, info in unique_files.items()]: the
    archive path is numbered by a counter of its own. *)
Definition archive_path_step
    (st : gmap (string * string) nat * list Packer.file_info)
    (entry : string * unique_info)
    : gmap (string * string) nat * list Packer.file_info :=
  let '(dataset_file_counters, unique_file_paths) := st in
  let info := entry.2 in
  let '(dataset_file_counters, idx) :=
    bump (u_original_dataset info) (u_media_type info) dataset_file_counters in
  (dataset_file_counters,
   unique_file_paths ++
   [Packer.FileInfo (u_src_path info)
      (u_original_dataset info +:+ "/MediaFiles/" +:+ u_media_type info +:+ "/"
       +:+ pretty idx +:+ u_suffix info)
      (u_size info)]).

Definition unique_file_paths (unique_files : list (string * unique_info))
    : list Packer.file_info :=
  (foldl archive_path_step (∅, []) unique_files).2.

(** The archive path that matches the destination written into the
    items. *)
Definition archived (entry : string * unique_info) : Packer.file_info :=
  Packer.FileInfo (u_src_path entry.2)
    (u_original_dataset entry.2 +:+ "/" +:+ destination entry.2)
    (u_size entry.2).

Lemma dict_set_new {V} k (v : V) d : k ∉ d.*1 -> dict_set k v d = d ++ [(k, v)].
Proof.
  induction d as [|[k' v'] d IH]; csimpl; intros Hk; [done|].
  apply not_elem_of_cons in Hk as [Hne Hk]. rewrite decide_False by done.
  by rewrite IH.
Qed.

(** The ordered run against the run of the table model. *)
Record in_step (l : list media_file)
    (st : gset string * gmap (string * string) nat * list (string * unique_info))
    : Prop := {
  in_step_seen : st.1.1 = (foldl by_path_step (∅, empty_tables) l).1;
  in_step_counters :
    st.1.2 = media_counters (foldl by_path_step (∅, empty_tables) l).2;
  in_step_table :
    list_to_map st.2 = unique_files (foldl by_path_step (∅, empty_tables) l).2;
  in_step_keys : forall k, k ∈ st.2.*1 <-> k ∈ st.1.1;
  in_step_nodup : NoDup st.2.*1;
  in_step_paths :
    foldl archive_path_step (∅, []) st.2 = (st.1.2, archived <$> st.2)
}.

Lemma ordered_in_step l : in_step l (foldl by_path_ordered_step (∅, ∅, []) l).
Proof.
  induction l as [|mf l IH] using rev_ind.
  - split; cbn [foldl fst snd]; try done.
    + intros k. csimpl. by rewrite elem_of_nil, elem_of_empty.
    + apply NoDup_nil_2.
  - rewrite foldl_snoc.
    destruct (foldl by_path_ordered_step (∅, ∅, []) l) as [[seen counters] entries].
    destruct IH as [Hseen Hcounters Htable Hkeys Hnodup Hpaths].
    remember (foldl by_path_step (∅, empty_tables) l) as g eqn:Hg.
    destruct g as [seen' t]. cbn [fst snd] in *. subst seen' counters.
    unfold by_path_ordered_step.
    case_decide as Hmf.
    { split; cbn [fst snd]; rewrite ?foldl_snoc, <- ?Hg; unfold by_path_step;
        rewrite ?decide_True by done; done. }
    assert (src_path mf ∉ entries.*1) as Hnew by (by rewrite Hkeys).
    unfold bump. rewrite dict_set_new by done.
    split; cbn [fst snd]; rewrite ?foldl_snoc, <- ?Hg; unfold by_path_step;
      rewrite ?decide_False by done; unfold add_unique, bump;
      cbn [fst snd media_counters unique_files].
    + done.
    + done.
    + by rewrite list_to_map_snoc, Htable by done.
    + intros k. rewrite fmap_app, elem_of_app, Hkeys, elem_of_union. csimpl.
      by rewrite list_elem_of_singleton, elem_of_singleton.
    + rewrite fmap_app. csimpl. apply NoDup_app. split_and!; [done| |].
      * by intros k Hk ->%list_elem_of_singleton.
      * apply NoDup_singleton.
    + rewrite Hpaths. unfold archive_path_step, bump.
      cbn [fst snd u_original_dataset u_media_type u_src_path u_suffix u_size].
      by rewrite fmap_app.
Qed.

(** X23.  The archive paths agree with the rewritten items.  The packer
    numbers the files of a dataset and media type again, by its own
    counter, in the order of the unique-file table; for the table of the
    path-based deduplicator this gives every file the archive path
    [<dataset>/<destination>], where the destination is the one the
    deduplicator has put into the path mapping for it.  The table has one
    entry per distinct path, in the order of first occurrence. *)
Theorem archive_paths_match_destinations (all_media_files : list media_file) :
  let unique_files := by_path_ordered all_media_files in
  list_to_map unique_files = (deduplicate_media_files_by_path all_media_files).1
  /\ NoDup unique_files.*1
  /\ unique_file_paths unique_files = archived <$> unique_files
  /\ forall key info,
       (key, info) ∈ unique_files ->
       (deduplicate_media_files_by_path all_media_files).2 !! key
       = Some (destination info).
Proof.
  cbv zeta. unfold by_path_ordered, unique_file_paths, deduplicate_media_files_by_path.
  destruct (ordered_in_step all_media_files)
    as [Hseen Hcounters Htable Hkeys Hnodup Hpaths].
  split_and!; [done|done|by rewrite Hpaths|].
  intros key info Hin. cbn [snd].
  apply (elem_of_list_to_map_1 (M := gmap string)) in Hin; [|done].
  rewrite Htable in Hin.
  destruct (by_path_run_inv all_media_files) as [Hs Hunique Honly].
  destruct (decide (key ∈ (foldl by_path_step (∅, empty_tables) all_media_files).1))
    as [Hkey|Hkey].
  - destruct (Hunique key Hkey) as (mf & idx & _ & Huf & Hpm).
    assert (info = info_of mf idx) as -> by congruence. by rewrite Hpm.
  - destruct (Honly key Hkey) as [Huf _]. congruence.
Qed.

End ArchivePaths.

(** ** From the items to the archive ([process_datasets], stages 2 to 5) *)

Module Pipeline.
Import Hasher Dedup DedupMore ArchivePaths.

(** One element of [all_items]: the dataset and the three media lists of
    the [meta_item] (a missing key reads as the empty list; the item has
    an [id]). *)
Record item := Item {
  i_dataset : string;
  i_images : list string;
  i_videos : list string;
  i_audios : list string
}.



Section Stages.
(** [str(Path(p))] and [Path(p).suffix]. *)
Variable normalize : string -> string.
Variable suffix_of : string -> string.
Variable fs : gmap string fs_entry.
(** The order in which the executor hands back the per-item lists. *)
Variable completion : list (list media_file) -> list (list media_file).
Hypothesis completion_perm : forall l, completion l ≡ₚ l.



(** [new_paths]: the mapped paths, the others are dropped. *)
Definition update_paths (path_mapping : gmap string string)
    (media_paths : list string) : list string :=
  omap (fun p => path_mapping !! normalize p) media_paths.

Definition update_item_paths (path_mapping : gmap string string) (it : item)
    : item :=
  Item (i_dataset it)
    (update_paths path_mapping (i_images it))
    (update_paths path_mapping (i_videos it))
    (update_paths path_mapping (i_audios it)).





End Stages.





End Pipeline.
